(** * The voice-input pipeline of the Sanskrit chat client

    A shallow embedding of the audio path of [ChatInterface]
    (capture, resampling, WAV encoding, upload) and of
    [transcribeAudio] from [services/api.ts], with the properties the
    specification states about them; then the rest of the service
    layer, the sending of messages, the chat history kept by [App] and
    the upload component, with properties read off the code. *)

From Stdlib Require Import ZArith QArith Qround Lia Lqa String Ascii Floats Uint63.
From stdpp Require Import base tactics option list numbers strings pretty.

Local Open Scope Z_scope.

(* ================================================================== *)
(** * ECMAScript Numbers as far as the pipeline uses them *)
(* ================================================================== *)

(** A Number is a binary64 value; [number] holds the value it denotes,
    a rational when finite.  The encoder multiplies the elements of a
    [Float32Array] (24-bit significands, clamped to [[-1, 1]] first) by
    [0x8000] or [0x7FFF]: such a product has at most 39 significant
    bits, binary64 computes it exactly, and [number_mul] is that exact
    product.  Where binary64 does round (the duration of a buffer and
    its product with the target rate) the arithmetic is done on
    primitive floats and only the result is read as a [number].  [-0]
    and [+0] are both [Finite 0]: no operation used here tells them
    apart ([-0 < 0] is false and every integer conversion sends both to
    [0]). *)
Inductive number : Type :=
  | NaN
  | Finite (q : Q)
  | PosInf
  | NegInf.

Definition of_Z (z : Z) : number := Finite (inject_Z z).

(** The binary64 value nearest to a non-negative integer below 2^63
    (the integer itself below 2^53). *)
Definition float_of_Z (z : Z) : float := PrimFloat.of_uint63 (Uint63.of_Z z).

(** The value a binary64 float denotes. *)
Definition number_of_float (f : float) : number :=
  match Prim2SF f with
  | S754_zero _ => Finite 0
  | S754_infinity false => PosInf
  | S754_infinity true => NegInf
  | S754_nan => NaN
  | S754_finite negative m e =>
      let magnitude :=
        if 0 <=? e then inject_Z (Z.pos m * 2 ^ e)
        else Qmake (Z.pos m) (Z.to_pos (2 ^ (- e))) in
      Finite (if negative then Qopp magnitude else magnitude)
  end.

(** [x < y] on rationals, decided by cross-multiplication. *)
Definition Qlt_bool (x y : Q) : bool :=
  Qnum x * Z.pos (Qden y) <? Qnum y * Z.pos (Qden x).

(** [a < b] of ECMAScript: false as soon as one side is [NaN]. *)
Definition number_lt (a b : number) : bool :=
  match a, b with
  | NaN, _ | _, NaN => false
  | Finite x, Finite y => Qlt_bool x y
  | Finite _, PosInf => true
  | Finite _, NegInf => false
  | PosInf, _ => false
  | NegInf, NegInf => false
  | NegInf, _ => true
  end.

(** [Math.min(a, b)] and [Math.max(a, b)]: [NaN] is contagious. *)
Definition Math_min (a b : number) : number :=
  match a, b with
  | NaN, _ | _, NaN => NaN
  | _, _ => if number_lt b a then b else a
  end.

Definition Math_max (a b : number) : number :=
  match a, b with
  | NaN, _ | _, NaN => NaN
  | _, _ => if number_lt a b then b else a
  end.

Definition Qsign (q : Q) : Z := Z.sgn (Qnum q).

(** [a * b] of ECMAScript, exact on the finite values (see above). *)
Definition number_mul (a b : number) : number :=
  match a, b with
  | NaN, _ | _, NaN => NaN
  | Finite x, Finite y => Finite (x * y)
  | Finite x, PosInf | PosInf, Finite x =>
      match Qsign x with 0 => NaN | Zpos _ => PosInf | Zneg _ => NegInf end
  | Finite x, NegInf | NegInf, Finite x =>
      match Qsign x with 0 => NaN | Zpos _ => NegInf | Zneg _ => PosInf end
  | PosInf, PosInf | NegInf, NegInf => PosInf
  | PosInf, NegInf | NegInf, PosInf => NegInf
  end.

(** [truncate(x)]: the integer part of [x], rounding toward zero. *)
Definition truncate (q : Q) : Z := Z.quot (Qnum q) (Z.pos (Qden q)).

(** [ToIntegerOrInfinity] restricted to what the integer conversions
    below need: non-finite values and [NaN] become [0]. *)
Definition integer_part (x : number) : Z :=
  match x with
  | Finite q => truncate q
  | NaN | PosInf | NegInf => 0
  end.

Definition ToUint8 (x : number) : Z := integer_part x mod 2 ^ 8.
Definition ToUint16 (x : number) : Z := integer_part x mod 2 ^ 16.
Definition ToUint32 (x : number) : Z := integer_part x mod 2 ^ 32.

Definition ToInt16 (x : number) : Z :=
  let int16bit := integer_part x mod 2 ^ 16 in
  if 2 ^ 15 <=? int16bit then int16bit - 2 ^ 16 else int16bit.

(* ================================================================== *)
(** * [DataView] over a fresh [ArrayBuffer] *)
(* ================================================================== *)

(** The buffer is a list of bytes, each a [Z] in [[0, 256)].  A write
    past the end raises [RangeError]: [None]. *)
Definition DataView := list Z.

(** The largest length [new ArrayBuffer(n)] accepts ([ToIndex]): above
    it the constructor raises [RangeError]. *)
Definition maxByteLength : Z := 2 ^ 53 - 1.

Definition new_ArrayBuffer (n : nat) : option DataView :=
  if Z.of_nat n <=? maxByteLength then Some (replicate n 0) else None.

(** The [n] low bytes of [v], least significant first. *)
Fixpoint le_bytes (n : nat) (v : Z) : list Z :=
  match n with
  | O => []
  | S n' => v mod 256 :: le_bytes n' (v / 256)
  end.

(** The unsigned value of a little-endian byte sequence. *)
Fixpoint le_value (bs : list Z) : Z :=
  match bs with
  | [] => 0
  | b :: bs' => b + 256 * le_value bs'
  end.

(** [SetViewValue]: store [bs] at byte offset [off]. *)
Definition storeBytes (dv : DataView) (off : nat) (bs : list Z) : option DataView :=
  if decide (off + length bs ≤ length dv)%nat
  then Some (take off dv ++ bs ++ drop (off + length bs) dv)
  else None.

Definition setUint8 (dv : DataView) (off : nat) (v : number) : option DataView :=
  storeBytes dv off (le_bytes 1 (ToUint8 v)).

(** The setters below are the [littleEndian = true] forms, the only
    ones the encoder calls. *)
Definition setUint16 (dv : DataView) (off : nat) (v : number) : option DataView :=
  storeBytes dv off (le_bytes 2 (ToUint16 v)).

Definition setUint32 (dv : DataView) (off : nat) (v : number) : option DataView :=
  storeBytes dv off (le_bytes 4 (ToUint32 v)).

Definition setInt16 (dv : DataView) (off : nat) (v : number) : option DataView :=
  storeBytes dv off (le_bytes 2 (ToInt16 v mod 2 ^ 16)).

(** [GetViewValue], little-endian. *)
Definition loadBytes (dv : DataView) (off n : nat) : option (list Z) :=
  if decide (off + n ≤ length dv)%nat then Some (take n (drop off dv)) else None.

Definition getUint16 (dv : DataView) (off : nat) : option Z :=
  le_value <$> loadBytes dv off 2.

Definition getUint32 (dv : DataView) (off : nat) : option Z :=
  le_value <$> loadBytes dv off 4.

Definition getInt16 (dv : DataView) (off : nat) : option Z :=
  (λ u, if 2 ^ 15 <=? u then u - 2 ^ 16 else u) <$> getUint16 dv off.

(* ================================================================== *)
(** * [AudioBuffer] *)
(* ================================================================== *)

(** The attributes of an [AudioBuffer] and its channels.  The rate is a
    whole number of Hz, as the rates of audio hardware and the 16000 Hz
    of the offline context are. *)
Module AudioBuffer.
Record t : Type := mk {
  numberOfChannels : nat;
  length : nat;
  sampleRate : Z;
  channelData : list (list number)
}.

(** [getChannelData(i)]: [IndexSizeError] when [i] is not a channel. *)
Definition getChannelData (b : t) (i : nat) : option (list number) :=
  channelData b !! i.

(** [duration]: the length divided by the sample rate, in binary64. *)
Definition duration (b : t) : float :=
  PrimFloat.div (float_of_Z (Z.of_nat (length b))) (float_of_Z (sampleRate b)).
End AudioBuffer.

Abbreviation AudioBuffer := AudioBuffer.t.

(* ================================================================== *)
(** * The WAV encoder *)
(* ================================================================== *)

(** [for (let i = 0; i < n; i++) body]: the body runs on [0 .. n-1] in
    order, threading the mutable state; an exception ends the loop. *)
Fixpoint for_each {S : Type} (idx : list nat) (body : nat → S → option S) (s : S)
  : option S :=
  match idx with
  | [] => Some s
  | i :: rest => s' ← body i s; for_each rest body s'
  end.

Definition for_upto {S : Type} (n : nat) (body : nat → S → option S) (s : S)
  : option S :=
  for_each (seq 0 n) body s.

(** [string.charCodeAt(i)] on the ASCII literals the encoder writes. *)
Definition charCodes (s : string) : list Z :=
  (λ c, Z.of_nat (nat_of_ascii c)) <$> list_ascii_of_string s.

Definition writeString (dataView : DataView) (offset : nat) (s : string)
  : option DataView :=
  for_upto (String.length s)
    (λ i dv,
       match charCodes s !! i with
       | Some code => setUint8 dv (offset + i) (of_Z code)
       | None => setUint8 dv (offset + i) NaN
       end)
    dataView.

(** [channels[j][i]]: reading past the end of a typed array yields
    [undefined], which [Math.min] turns into [NaN]; indexing a missing
    channel raises [TypeError]. *)
Definition channel_sample (channels : list (list number)) (j i : nat) : option number :=
  ch ← channels !! j; Some (default NaN (ch !! i)).

(** [Math.max(-1, Math.min(1, x))]. *)
Definition clamp (x : number) : number :=
  Math_max (of_Z (-1)) (Math_min (of_Z 1) x).

(** The scaled value handed to [setInt16] for one sample. *)
Definition scale_sample (x : number) : number :=
  let sample := clamp x in
  if number_lt sample (of_Z 0)
  then number_mul sample (of_Z 32768)
  else number_mul sample (of_Z 32767).

(** The 16-bit value stored for a sample: the scaled sample as
    [setInt16] converts it. *)
Definition sample16 (x : number) : Z := ToInt16 (scale_sample x).

Definition write_sample (channels : list (list number)) (i j : nat)
    (st : nat * DataView) : option (nat * DataView) :=
  let '(offset, dv) := st in
  x ← channel_sample channels j i;
  dv' ← setInt16 dv offset (scale_sample x);
  Some ((offset + 2)%nat, dv').

Definition bufferToWav (buffer : AudioBuffer) : option DataView :=
  let numOfChannels := AudioBuffer.numberOfChannels buffer in
  let length := (AudioBuffer.length buffer * numOfChannels * 2)%nat in
  let sampleRate := AudioBuffer.sampleRate buffer in
  dv ← new_ArrayBuffer (44 + length);
  (* WAV header *)
  dv ← writeString dv 0 "RIFF";
  dv ← setUint32 dv 4 (of_Z (36 + Z.of_nat length));
  dv ← writeString dv 8 "WAVE";
  dv ← writeString dv 12 "fmt ";
  dv ← setUint32 dv 16 (of_Z 16);
  dv ← setUint16 dv 20 (of_Z 1);
  dv ← setUint16 dv 22 (of_Z (Z.of_nat numOfChannels));
  dv ← setUint32 dv 24 (of_Z sampleRate);
  dv ← setUint32 dv 28 (of_Z (sampleRate * Z.of_nat numOfChannels * 2));
  dv ← setUint16 dv 32 (of_Z (Z.of_nat numOfChannels * 2));
  dv ← setUint16 dv 34 (of_Z 16);
  dv ← writeString dv 36 "data";
  dv ← setUint32 dv 40 (of_Z (Z.of_nat length));
  (* Write audio data *)
  channels ← mapM (AudioBuffer.getChannelData buffer) (seq 0 numOfChannels);
  '(_, dv) ← for_upto (AudioBuffer.length buffer)
                (λ i, for_upto numOfChannels (write_sample channels i))
                (44%nat, dv);
  Some dv.

(* ================================================================== *)
(** * Exceptions, blobs and the platform *)
(* ================================================================== *)

(** A thrown value: the constructor name and the message. *)
Inductive exn : Type := Exn (name message : string).

Inductive result (A : Type) : Type :=
  | Ok (a : A)
  | Throw (e : exn).
Arguments Ok {A} a.
Arguments Throw {A} e.

#[global] Instance result_ret : MRet result := λ A a, Ok a.
#[global] Instance result_bind : MBind result := λ A B f m,
  match m with Ok a => f a | Throw e => Throw e end.

(** An [option] whose [None] stands for a raised exception [e]. *)
Definition or_throw {A : Type} (e : exn) (o : option A) : result A :=
  match o with Some a => Ok a | None => Throw e end.

Definition is_ok {A : Type} (r : result A) : bool :=
  match r with Ok _ => true | Throw _ => false end.

(** A [Blob] is its bytes; [size] is their number and [new Blob(parts)]
    concatenates. *)
Definition Blob := list Z.
Definition Blob_size (b : Blob) : nat := length b.
Definition new_Blob (parts : list Blob) : Blob := concat parts.

(** The offline context keeps the arguments of its constructor. *)
Record OfflineAudioContext : Type := {
  oac_numberOfChannels : nat;
  oac_length : nat;
  oac_sampleRate : Z
}.

(** [new OfflineAudioContext(numberOfChannels, length, sampleRate)]:
    [length] is declared [unsigned long], so Web IDL converts the Number
    it receives with the integer part modulo 2^32, and the constructor
    raises [NotSupportedError] when an argument is zero.  The upper
    bounds a browser puts on the channel count and the rate are left
    out: 16000 Hz and the channels of a decoded recording are inside
    them. *)
Definition new_OfflineAudioContext (numberOfChannels : nat) (length : number)
    (sampleRate : Z) : result OfflineAudioContext :=
  let len := ToUint32 length in
  if (numberOfChannels =? 0)%nat || (len =? 0) || (sampleRate <=? 0)
  then Throw (Exn "NotSupportedError" "OfflineAudioContext")
  else Ok {| oac_numberOfChannels := numberOfChannels;
             oac_length := Z.to_nat len;
             oac_sampleRate := sampleRate |}.

(** What the browser decides: decoding, the resampling algorithm, file
    reading.  The samples a rendering produces are given per channel and
    frame, so a rendered buffer always has the context's shape. *)
Record Platform : Type := {
  readAsArrayBuffer : Blob → result (list Z);
  decodeAudioData : Z → list Z → result AudioBuffer;
  renderedSample : OfflineAudioContext → AudioBuffer → nat → nat → number;
  renderingFails : OfflineAudioContext → AudioBuffer → option exn
}.

(** Form data, requests and responses of [fetch]. *)
Record FormDataEntry : Type := {
  fd_name : string;
  fd_value : Blob;
  fd_filename : option string
}.

Record Request : Type := {
  req_url : string;
  req_method : string;
  req_mode : string;
  req_headers : list (string * string);
  req_body : list FormDataEntry
}.

(** Values a response body can parse to, and [undefined]. *)
#[local] Unset Elimination Schemes.
Inductive JSValue : Type :=
  | JUndefined
  | JNull
  | JBool (b : bool)
  | JNumber (x : number)
  | JString (s : string)
  | JArray (items : list JSValue)
  | JObject (fields : list (string * JSValue)).
#[local] Set Elimination Schemes.

(** [status] and the parsed body; [None] when the body is not JSON. *)
Record Response : Type := {
  status : Z;
  body_json : option JSValue
}.

Definition Response_ok (r : Response) : bool := (200 <=? status r) && (status r <=? 299).

(** [fetch] rejects on a network failure and resolves with the response
    otherwise, whatever its status. *)
Inductive FetchOutcome : Type :=
  | NetworkFailure
  | Responded (r : Response).

(** The outside world of the voice path: the requests it has sent so
    far and the lines logged with [console.error].  How the network answers a
    request after a given history is a parameter of [fetch]. *)
Record World : Type := {
  sent : list Request;
  console : list string
}.

Definition log_error (line : string) (w : World) : World :=
  {| sent := sent w; console := console w ++ [line] |}.

Definition fetch (network : list Request → Request → FetchOutcome)
    (req : Request) (w : World) : result Response * World :=
  let w' := {| sent := sent w ++ [req]; console := console w |} in
  match network (sent w) req with
  | NetworkFailure => (Throw (Exn "TypeError" "Failed to fetch"), w')
  | Responded r => (Ok r, w')
  end.

(** [response.json()]. *)
Definition Response_json (r : Response) : result JSValue :=
  or_throw (Exn "SyntaxError" "Unexpected token") (body_json r).

(** [data.key]: [TypeError] on [null], the field of an object, and
    [undefined] for a missing field or a primitive. *)
Fixpoint assoc (key : string) (fields : list (string * JSValue)) : JSValue :=
  match fields with
  | [] => JUndefined
  | (k, v) :: rest => if String.eqb k key then v else assoc key rest
  end.

Definition get_property (data : JSValue) (key : string) : result JSValue :=
  match data with
  | JUndefined | JNull => Throw (Exn "TypeError" "Cannot read properties")
  | JObject fields => Ok (assoc key fields)
  | _ => Ok JUndefined
  end.

(* ================================================================== *)
(** * Resampling and transcription *)
(* ================================================================== *)

Section Pipeline.
Context (platform : Platform).
Context (network : list Request → Request → FetchOutcome).
Context (API_BASE_URL : string).

(** The offline context [resampleAudio] builds for a decoded buffer; the
    product [audioBuffer.duration * targetSampleRate] is a binary64
    product. *)
Definition offlineContextFor (audioBuffer : AudioBuffer) (targetSampleRate : Z)
  : result OfflineAudioContext :=
  new_OfflineAudioContext
    (AudioBuffer.numberOfChannels audioBuffer)
    (number_of_float
       (PrimFloat.mul (AudioBuffer.duration audioBuffer) (float_of_Z targetSampleRate)))
    targetSampleRate.

(** [offlineContext.startRendering()]: a buffer of the context's
    channel count, length and rate, filled by the platform. *)
Definition startRendering (ctx : OfflineAudioContext) (source : AudioBuffer)
  : result AudioBuffer :=
  match renderingFails platform ctx source with
  | Some e => Throw e
  | None =>
      Ok (AudioBuffer.mk
            (oac_numberOfChannels ctx)
            (oac_length ctx)
            (oac_sampleRate ctx)
            ((λ j, renderedSample platform ctx source j <$> seq 0 (oac_length ctx))
               <$> seq 0 (oac_numberOfChannels ctx)))
  end.

(** The first half of [resampleAudio]: read, decode, render. *)
Definition renderAudio (audioBlob : Blob) (targetSampleRate : Z)
  : result AudioBuffer :=
  arrayBuffer ← readAsArrayBuffer platform audioBlob;
  audioBuffer ← decodeAudioData platform targetSampleRate arrayBuffer;
  offlineContext ← offlineContextFor audioBuffer targetSampleRate;
  startRendering offlineContext audioBuffer.

Definition resampleAudio (audioBlob : Blob) (targetSampleRate : Z) : result Blob :=
  renderedBuffer ← renderAudio audioBlob targetSampleRate;
  or_throw (Exn "RangeError" "Invalid array buffer length")
    (bufferToWav renderedBuffer).

(** [transcribeAudio] of [services/api.ts]: one [fetch]; the [catch]
    logs and rethrows. *)
Definition transcribeAudio (audioBlob : Blob) (w : World) : result JSValue * World :=
  let formData :=
    [ {| fd_name := "audio"; fd_value := audioBlob;
         fd_filename := Some "recording.wav"%string |} ] in
  let '(response, w) :=
    fetch network
      {| req_url := API_BASE_URL +:+ "/transcribe";
         req_method := "POST";
         req_mode := "cors";
         req_headers := [];
         req_body := formData |} w in
  let outcome :=
    response ← response;
    if negb (Response_ok response)
    then Throw (Exn "Error" "Failed to transcribe audio")
    else data ← Response_json response; get_property data "transcript" in
  match outcome with
  | Ok transcript => (Ok transcript, w)
  | Throw error => (Throw error, log_error "Error transcribing audio:" w)
  end.
End Pipeline.

(* ================================================================== *)
(** * The voice state of the chat component *)
(* ================================================================== *)

Record VoiceRecordingState : Type := {
  isRecording : bool;
  error : option string
}.

Inductive RecordingState : Type := inactive | recording | paused.

#[global] Instance RecordingState_eq_dec : EqDecision RecordingState.
Proof. solve_decision. Defined.

(** A track is live ([true]) until it is stopped ([false]). *)
Record MediaStream : Type := { tracks : list bool }.

(** A recorder object: the stream it records (the one its [onstop]
    handler closes over) and its [state]. *)
Record MediaRecorder : Type := {
  stream : nat;
  state : RecordingState
}.

(** The state of [ChatInterface] that the voice path reads and writes.
    Recorders and streams are objects shared between the component and
    the browser, so they live in stores indexed by identity.
    [pendingStarts] counts the calls of [startRecording] waiting for
    [getUserMedia]; [stopping] lists the recorders whose [stop] event is
    queued; [transcribing] lists the [onstop] handlers waiting for their
    pipeline, each with its stream and the blob it captured. *)
Record Component : Type := {
  voiceState : VoiceRecordingState;
  isTranscribing : bool;
  inputText : JSValue;
  mediaRecorderRef : option nat;
  audioChunksRef : list Blob;
  recorders : list MediaRecorder;
  streams : list MediaStream;
  pendingStarts : nat;
  stopping : list nat;
  transcribing : list (nat * Blob);
  world : World
}.

Definition initial : Component := {|
  voiceState := {| isRecording := false; error := None |};
  isTranscribing := false;
  inputText := JString EmptyString;
  mediaRecorderRef := None;
  audioChunksRef := [];
  recorders := [];
  streams := [];
  pendingStarts := 0;
  stopping := [];
  transcribing := [];
  world := {| sent := []; console := [] |}
|}.

(** Field updates. *)
Definition setVoiceState (v : VoiceRecordingState) (c : Component) : Component :=
  {| voiceState := v; isTranscribing := isTranscribing c; inputText := inputText c;
     mediaRecorderRef := mediaRecorderRef c; audioChunksRef := audioChunksRef c;
     recorders := recorders c; streams := streams c;
     pendingStarts := pendingStarts c; stopping := stopping c;
     transcribing := transcribing c; world := world c |}.

Definition setIsTranscribing (b : bool) (c : Component) : Component :=
  {| voiceState := voiceState c; isTranscribing := b; inputText := inputText c;
     mediaRecorderRef := mediaRecorderRef c; audioChunksRef := audioChunksRef c;
     recorders := recorders c; streams := streams c;
     pendingStarts := pendingStarts c; stopping := stopping c;
     transcribing := transcribing c; world := world c |}.

Definition setInputText (v : JSValue) (c : Component) : Component :=
  {| voiceState := voiceState c; isTranscribing := isTranscribing c; inputText := v;
     mediaRecorderRef := mediaRecorderRef c; audioChunksRef := audioChunksRef c;
     recorders := recorders c; streams := streams c;
     pendingStarts := pendingStarts c; stopping := stopping c;
     transcribing := transcribing c; world := world c |}.

Definition set_mediaRecorderRef (r : option nat) (c : Component) : Component :=
  {| voiceState := voiceState c; isTranscribing := isTranscribing c;
     inputText := inputText c;
     mediaRecorderRef := r; audioChunksRef := audioChunksRef c;
     recorders := recorders c; streams := streams c;
     pendingStarts := pendingStarts c; stopping := stopping c;
     transcribing := transcribing c; world := world c |}.

Definition set_audioChunksRef (chunks : list Blob) (c : Component) : Component :=
  {| voiceState := voiceState c; isTranscribing := isTranscribing c;
     inputText := inputText c;
     mediaRecorderRef := mediaRecorderRef c; audioChunksRef := chunks;
     recorders := recorders c; streams := streams c;
     pendingStarts := pendingStarts c; stopping := stopping c;
     transcribing := transcribing c; world := world c |}.

Definition set_recorders (rs : list MediaRecorder) (c : Component) : Component :=
  {| voiceState := voiceState c; isTranscribing := isTranscribing c;
     inputText := inputText c;
     mediaRecorderRef := mediaRecorderRef c; audioChunksRef := audioChunksRef c;
     recorders := rs; streams := streams c;
     pendingStarts := pendingStarts c; stopping := stopping c;
     transcribing := transcribing c; world := world c |}.

Definition set_streams (ss : list MediaStream) (c : Component) : Component :=
  {| voiceState := voiceState c; isTranscribing := isTranscribing c;
     inputText := inputText c;
     mediaRecorderRef := mediaRecorderRef c; audioChunksRef := audioChunksRef c;
     recorders := recorders c; streams := ss;
     pendingStarts := pendingStarts c; stopping := stopping c;
     transcribing := transcribing c; world := world c |}.

Definition set_pendingStarts (n : nat) (c : Component) : Component :=
  {| voiceState := voiceState c; isTranscribing := isTranscribing c;
     inputText := inputText c;
     mediaRecorderRef := mediaRecorderRef c; audioChunksRef := audioChunksRef c;
     recorders := recorders c; streams := streams c;
     pendingStarts := n; stopping := stopping c;
     transcribing := transcribing c; world := world c |}.

Definition set_stopping (l : list nat) (c : Component) : Component :=
  {| voiceState := voiceState c; isTranscribing := isTranscribing c;
     inputText := inputText c;
     mediaRecorderRef := mediaRecorderRef c; audioChunksRef := audioChunksRef c;
     recorders := recorders c; streams := streams c;
     pendingStarts := pendingStarts c; stopping := l;
     transcribing := transcribing c; world := world c |}.

Definition set_transcribing (l : list (nat * Blob)) (c : Component) : Component :=
  {| voiceState := voiceState c; isTranscribing := isTranscribing c;
     inputText := inputText c;
     mediaRecorderRef := mediaRecorderRef c; audioChunksRef := audioChunksRef c;
     recorders := recorders c; streams := streams c;
     pendingStarts := pendingStarts c; stopping := stopping c;
     transcribing := l; world := world c |}.

Definition set_world (w : World) (c : Component) : Component :=
  {| voiceState := voiceState c; isTranscribing := isTranscribing c;
     inputText := inputText c;
     mediaRecorderRef := mediaRecorderRef c; audioChunksRef := audioChunksRef c;
     recorders := recorders c; streams := streams c;
     pendingStarts := pendingStarts c; stopping := stopping c;
     transcribing := transcribing c; world := w |}.

(** [recorder.state]; a recorder that does not exist counts as
    [inactive]. *)
Definition recorder_state (c : Component) (rid : nat) : RecordingState :=
  default inactive (state <$> recorders c !! rid).

Definition set_recorder_state (rid : nat) (s : RecordingState) (c : Component)
  : Component :=
  set_recorders (alter (λ r, {| stream := stream r; state := s |}) rid (recorders c)) c.

(** [MediaRecorder.start()] and [MediaRecorder.stop()]: both raise
    [InvalidStateError] in the wrong state.  [stop] inactivates the
    recorder and queues its [stop] event.  The other errors of [start()]
    and those of the constructor do not depend on the recorder's state:
    they are the faults of [RecorderFault] below. *)
Definition MediaRecorder_start (rid : nat) (c : Component) : result Component :=
  if decide (recorders c !! rid = None ∨ recorder_state c rid ≠ inactive)
  then Throw (Exn "InvalidStateError" "start")
  else Ok (set_recorder_state rid recording c).

Definition MediaRecorder_stop (rid : nat) (c : Component) : result Component :=
  if decide (recorder_state c rid = inactive)
  then Throw (Exn "InvalidStateError" "stop")
  else Ok (set_stopping (stopping c ++ [rid]) (set_recorder_state rid inactive c)).

(** [stream.getTracks().forEach(track => track.stop())]. *)
Definition stop_all_tracks (sid : nat) (c : Component) : Component :=
  set_streams
    (alter (λ s, {| tracks := (λ _, false) <$> tracks s |}) sid (streams c)) c.

Definition released (s : MediaStream) : Prop := Forall (λ live, live = false) (tracks s).

(** What can go wrong with the recorder once its stream is there:
    [new MediaRecorder(stream)] raises (no supported format, for
    instance), or [start()] does. *)
Inductive RecorderFault : Type := ConstructorThrows | StartThrows.

(** How [navigator.mediaDevices.getUserMedia] settles and, for a
    granted stream, whether the platform lets the recorder be created
    and started. *)
Inductive UserMedia : Type :=
  | Granted (s : MediaStream)
  | GrantedFaulty (s : MediaStream) (fault : RecorderFault)
  | Denied.

Section Handlers.
Context (platform : Platform).
Context (network : list Request → Request → FetchOutcome).
Context (API_BASE_URL : string).

(** [startRecording] up to its [await]. *)
Definition startRecording_begin (c : Component) : Component :=
  set_pendingStarts (S (pendingStarts c))
    (setVoiceState {| isRecording := true; error := None |} c).

(** The [catch] of [startRecording]. *)
Definition startRecording_catch (c : Component) : Component :=
  setVoiceState {| isRecording := false; error := Some "Error starting recording"%string |}
    (set_world (log_error "Error starting recording:" (world c)) c).

(** [startRecording] after [getUserMedia] has settled: the new stream
    and the new recorder get the next free identities.  When the
    constructor raises, the stream exists and no recorder does; when
    [start()] raises, the recorder exists, the two refs have been
    assigned, and the recorder stays [inactive].  Either way control
    goes to the [catch], which stops no track. *)
Definition startRecording_resume (r : UserMedia) (c : Component) : Component :=
  let c := set_pendingStarts (pred (pendingStarts c)) c in
  match r with
  | Denied => startRecording_catch c
  | Granted s =>
      let sid := length (streams c) in
      let c := set_streams (streams c ++ [s]) c in
      let rid := length (recorders c) in
      let c := set_recorders (recorders c ++ [{| stream := sid; state := inactive |}]) c in
      let c := set_mediaRecorderRef (Some rid) c in
      let c := set_audioChunksRef [] c in
      match MediaRecorder_start rid c with
      | Ok c' => c'
      | Throw _ => startRecording_catch c
      end
  | GrantedFaulty s ConstructorThrows =>
      let c := set_streams (streams c ++ [s]) c in
      startRecording_catch c
  | GrantedFaulty s StartThrows =>
      let sid := length (streams c) in
      let c := set_streams (streams c ++ [s]) c in
      let rid := length (recorders c) in
      let c := set_recorders (recorders c ++ [{| stream := sid; state := inactive |}]) c in
      let c := set_mediaRecorderRef (Some rid) c in
      let c := set_audioChunksRef [] c in
      startRecording_catch c
  end.

(** [startRecording] run through, given how [getUserMedia] settles. *)
Definition startRecording (r : UserMedia) (c : Component) : Component :=
  startRecording_resume r (startRecording_begin c).

(** [mediaRecorder.ondataavailable]. *)
Definition ondataavailable (data : Blob) (c : Component) : Component :=
  if (0 <? Blob_size data)%nat
  then set_audioChunksRef (audioChunksRef c ++ [data]) c
  else c.

Definition stopRecording (c : Component) : result Component :=
  match mediaRecorderRef c with
  | Some rid =>
      if decide (recorder_state c rid ≠ inactive)
      then MediaRecorder_stop rid c
      else Ok c
  | None => Ok c
  end.

(** [toggleRecording] as the closure of a render: [rendered] is the
    [voiceState] that render saw, while [stopRecording] and
    [startRecording] work on the component as it is when the button is
    pressed.  [startRecording] is not awaited. *)
Definition toggleRecording_of (rendered : VoiceRecordingState) (c : Component)
  : result Component :=
  if isRecording rendered
  then stopRecording c
  else Ok (startRecording_begin c).

(** [toggleRecording] of the render of the current state. *)
Definition toggleRecording (c : Component) : result Component :=
  toggleRecording_of (voiceState c) c.

(** [mediaRecorder.onstop] up to its first [await]; [sid] is the
    stream the handler closes over. *)
Definition onstop_begin (sid : nat) (c : Component) : Component :=
  let c := setVoiceState {| isRecording := false; error := None |} c in
  let c := setIsTranscribing true c in
  let audioBlob := new_Blob (audioChunksRef c) in
  set_transcribing (transcribing c ++ [(sid, audioBlob)]) c.

(** The two awaited calls inside the [try]. *)
Definition process (audioBlob : Blob) (w : World) : result JSValue * World :=
  match resampleAudio platform audioBlob 16000 with
  | Ok resampledBlob => transcribeAudio network API_BASE_URL resampledBlob w
  | Throw e => (Throw e, w)
  end.

(** The rest of [onstop]: [try] / [catch] / [finally], then the
    tracks. *)
Definition onstop_settle (sid : nat) (audioBlob : Blob) (c : Component) : Component :=
  let '(r, w) := process audioBlob (world c) in
  let c := set_world w c in
  let c :=
    match r with
    | Ok transcript => setInputText transcript c
    | Throw _ =>
        setVoiceState {| isRecording := false; error := Some "Error processing audio"%string |}
          (set_world (log_error "Error processing audio:" (world c)) c)
    end in
  let c := setIsTranscribing false c in
  stop_all_tracks sid c.

(** The whole handler, run to completion. *)
Definition onstop (sid : nat) (c : Component) : Component :=
  let c := setVoiceState {| isRecording := false; error := None |} c in
  let c := setIsTranscribing true c in
  onstop_settle sid (new_Blob (audioChunksRef c)) c.

(** ** Events *)

Inductive event : Type :=
  | ClickMic
  | Typing (text : string)
  | UserMediaSettles (r : UserMedia)
  | DataAvailable (rid : nat) (data : Blob)
  | RecorderEnds (rid : nat)
  | StopEvent (k : nat)
  | PipelineSettles (k : nat).

(** One event on one mounted instance of the component; [None] when
    the event cannot occur in this state.  The microphone button and the
    text field are disabled while [isTranscribing].  A press of the
    button is handled by the closure of the render that the previous
    event committed (React renders synchronously at the end of a click,
    so two presses never share a closure).  [Typing] also stands for
    [handleSend] clearing the field; the request [handleSend] makes is
    not a request of the voice path and is not logged in [sent] (see
    [ChatInterface.handleSend] below).  Unmounting, which loses this
    state while the recorders live on, is an event of [Page] below. *)
Definition handle (e : event) (c : Component) : option Component :=
  match e with
  | ClickMic =>
      if isTranscribing c then None
      else match toggleRecording c with
           | Ok c' => Some c'
           | Throw _ => Some c
           end
  | Typing text =>
      if isTranscribing c then None else Some (setInputText (JString text) c)
  | UserMediaSettles r =>
      if (0 <? pendingStarts c)%nat then Some (startRecording_resume r c) else None
  | DataAvailable rid data =>
      if decide (recorder_state c rid ≠ inactive ∨ rid ∈ stopping c)
      then Some (ondataavailable data c) else None
  | RecorderEnds rid =>
      match MediaRecorder_stop rid c with
      | Ok c' => Some c'
      | Throw _ => None
      end
  | StopEvent k =>
      rid ← stopping c !! k;
      r ← recorders c !! rid;
      Some (onstop_begin (stream r) (set_stopping (delete k (stopping c)) c))
  | PipelineSettles k =>
      '(sid, audioBlob) ← transcribing c !! k;
      Some (onstop_settle sid audioBlob
              (set_transcribing (delete k (transcribing c)) c))
  end.

Fixpoint run (es : list event) (c : Component) : option Component :=
  match es with
  | [] => Some c
  | e :: es' => c' ← handle e c; run es' c'
  end.

Definition reachable (c : Component) : Prop :=
  ∃ es, run es initial = Some c.

(** ** Mounting *)

(** [App] renders the component under [<Slide mountOnEnter
    unmountOnExit>], and the component has no cleanup: opening the
    settings or the upload panel unmounts it, coming back mounts a
    fresh instance with fresh state and fresh refs, while the streams,
    the recorders and the pending handlers of the old instance live on.
    The old handlers then work on the refs they closed over; their
    calls of the state setters reach nothing that is rendered, so the
    state fields of a detached instance stand for nothing.  A page is
    the mounted instance and the detached ones; each instance has the
    streams and recorders it created, and all share the world. *)
Record Page : Type := {
  mounted : Component;
  detached : list Component
}.

Definition page_initial : Page := {| mounted := initial; detached := [] |}.

Inductive page_event : Type :=
  | OfMounted (e : event)
  | OfDetached (i : nat) (e : event)
  | Remount.

(** A detached instance has no button and no text field. *)
Definition background (e : event) : bool :=
  match e with
  | ClickMic | Typing _ => false
  | _ => true
  end.

Definition page_handle (pe : page_event) (p : Page) : option Page :=
  match pe with
  | OfMounted e =>
      c' ← handle e (mounted p);
      Some {| mounted := c'; detached := set_world (world c') <$> detached p |}
  | OfDetached i e =>
      if background e
      then
        c ← detached p !! i;
        c' ← handle e c;
        Some {| mounted := set_world (world c') (mounted p);
                detached := set_world (world c') <$> <[i := c']> (detached p) |}
      else None
  | Remount =>
      Some {| mounted := set_world (world (mounted p)) initial;
              detached := detached p ++ [mounted p] |}
  end.

Fixpoint page_run (es : list page_event) (p : Page) : option Page :=
  match es with
  | [] => Some p
  | e :: es' => p' ← page_handle e p; page_run es' p'
  end.

Definition page_reachable (p : Page) : Prop :=
  ∃ es, page_run es page_initial = Some p.
End Handlers.

(* ================================================================== *)
(** * The container the encoder is expected to produce *)
(* ================================================================== *)

(** Little-endian encodings of an integer as [u32], [u16] and two's
    complement [i16]. *)
Definition uint32_le (v : Z) : list Z := le_bytes 4 (v mod 2 ^ 32).
Definition uint16_le (v : Z) : list Z := le_bytes 2 (v mod 2 ^ 16).
Definition int16_le (v : Z) : list Z := le_bytes 2 (v mod 2 ^ 16).

(** The thirteen header fields for [C] channels at rate [R] and
    [dataLength] bytes of samples. *)
Definition wav_fields (C : nat) (R : Z) (dataLength : nat) : list (list Z) :=
  [ charCodes "RIFF";
    uint32_le (36 + Z.of_nat dataLength);
    charCodes "WAVE";
    charCodes "fmt ";
    uint32_le 16;
    uint16_le 1;
    uint16_le (Z.of_nat C);
    uint32_le R;
    uint32_le (R * Z.of_nat C * 2);
    uint16_le (Z.of_nat C * 2);
    uint16_le 16;
    charCodes "data";
    uint32_le (Z.of_nat dataLength) ].

Definition wav_header (C : nat) (R : Z) (dataLength : nat) : list Z :=
  concat (wav_fields C R dataLength).

(** Frame [i]: one sample per channel, in channel order. *)
Definition frame_bytes (channels : list (list number)) (i : nat) : list Z :=
  concat ((λ ch, int16_le (sample16 (default NaN (ch !! i)))) <$> channels).

Definition wav_data (channels : list (list number)) (N : nat) : list Z :=
  concat (frame_bytes channels <$> seq 0 N).

(** A rendered buffer as the platform hands it over: as many channels
    as [numberOfChannels] says, each of [length] samples, a positive
    integral rate, and sizes inside the range where Numbers are exact
    integers and an [ArrayBuffer] can be requested. *)
Record RenderedAudio (b : AudioBuffer) : Prop := {
  ra_channels : length (AudioBuffer.channelData b) = AudioBuffer.numberOfChannels b;
  ra_samples :
    Forall (λ ch, length ch = AudioBuffer.length b) (AudioBuffer.channelData b);
  ra_rate : 0 < AudioBuffer.sampleRate b;
  ra_byteRate :
    AudioBuffer.sampleRate b * Z.of_nat (AudioBuffer.numberOfChannels b) * 2 < 2 ^ 53;
  ra_size :
    Z.of_nat (44 + AudioBuffer.length b * AudioBuffer.numberOfChannels b * 2)
      <= maxByteLength
}.

(** Two frames of stereo and a short mono take, used as test
    vectors. *)
Definition ratio (n d : Z) : number := Finite (Qmake n (Z.to_pos d)).

Definition stereo_demo : AudioBuffer :=
  AudioBuffer.mk 2 2 16000
    [ [ratio 1 1; ratio 0 1]; [ratio (-1) 2; ratio 1 2] ].

Definition mono (samples : list number) : AudioBuffer :=
  AudioBuffer.mk 1 (length samples) 16000 [samples].

(** The sample arithmetic of the encoder carried out in binary64, to
    compare with the exact arithmetic of [scale_sample]. *)
Definition Math_min_binary64 (a b : float) : float :=
  if PrimFloat.is_nan a || PrimFloat.is_nan b then nan
  else if PrimFloat.ltb b a then b else a.

Definition Math_max_binary64 (a b : float) : float :=
  if PrimFloat.is_nan a || PrimFloat.is_nan b then nan
  else if PrimFloat.ltb a b then b else a.

Definition scale_sample_binary64 (x : float) : float :=
  let sample :=
    Math_max_binary64 (-1)%float (Math_min_binary64 1%float x) in
  if PrimFloat.ltb sample (float_of_Z 0)
  then PrimFloat.mul sample (float_of_Z 32768)
  else PrimFloat.mul sample (float_of_Z 32767).

(** Single-precision samples: fractions, the bounds, values outside the
    range, the nearest single to 0.1, the smallest subnormal, infinities
    and [NaN]. *)
Definition test_samples : list float :=
  [ 0.25; 0.5; -0.75; 1; -1; 1.5; -2; 0; 0x1.99999ap-4; -0x1.99999ap-4;
    0x1p-149; -0x1p-149; 0x1.fffffep-1; -0x1.fffffep-1;
    infinity; neg_infinity; nan ]%float.

(** Following the specification's words: "clamp to [[-1, 1]], then
    quantize: if [sample < 0], [round(sample × 32768)], else
    [round(sample × 32767)]", with [round] the nearest integer (halves
    upward, as [Math.round]). *)
Definition round_nearest (q : Q) : Z := Qfloor (q + (1 # 2)).

Definition spec_quantize (x : number) : Z :=
  match clamp x with
  | Finite s =>
      if Qlt_bool s 0 then round_nearest (s * inject_Z 32768)
      else round_nearest (s * inject_Z 32767)
  | _ => 0
  end.

(** A platform that decodes every blob to the same buffer and renders
    silence: enough to run the pipeline on a given decoded buffer. *)
Definition decoding_to (decoded : AudioBuffer) : Platform := {|
  readAsArrayBuffer := λ blob, Ok blob;
  decodeAudioData := λ _ _, Ok decoded;
  renderedSample := λ _ _ _ _, of_Z 0;
  renderingFails := λ _ _, None
|}.

(** One second and one frame of mono audio at 48 kHz, and 1001 frames
    of mono audio at 16 kHz. *)
Definition second_and_a_frame : AudioBuffer :=
  AudioBuffer.mk 1 (Z.to_nat 48001) 48000 [replicate (Z.to_nat 48001) (of_Z 0)].

Definition thousand_and_one_frames : AudioBuffer :=
  AudioBuffer.mk 1 (Z.to_nat 1001) 16000 [replicate (Z.to_nat 1001) (of_Z 0)].

(** Following the specification's words: the buffer length
    "ceil(sourceDurationSeconds × targetSampleRate)", in exact
    arithmetic. *)
Definition ceil_duration_times_rate (source : AudioBuffer) (targetSampleRate : Z) : Z :=
  Qceiling (inject_Z (Z.of_nat (AudioBuffer.length source))
            / inject_Z (AudioBuffer.sampleRate source)
            * inject_Z targetSampleRate).

(** A network that gives every request the same answer. *)
Definition answering (r : Response) : list Request → Request → FetchOutcome :=
  λ _ _, Responded r.

Definition unreachable_network : list Request → Request → FetchOutcome :=
  λ _ _, NetworkFailure.

(** A platform whose decoder rejects every blob. *)
Definition undecodable : Platform := {|
  readAsArrayBuffer := λ blob, Ok blob;
  decodeAudioData := λ _ _, Throw (Exn "EncodingError" "Unable to decode audio data");
  renderedSample := λ _ _ _ _, of_Z 0;
  renderingFails := λ _ _, None
|}.

(** The recorders that are not [inactive]. *)
Fixpoint active_count (rs : list MediaRecorder) : nat :=
  match rs with
  | [] => 0
  | r :: rs' => (if decide (state r = inactive) then 0 else 1) + active_count rs'
  end.

(** The recorders that capture on the page, whichever instance made
    them. *)
Definition page_active_count (p : Page) : nat :=
  active_count (recorders (mounted p))
  + sum_list (active_count ∘ recorders <$> detached p).

(** What is in flight in the component: starts waiting for the
    microphone, recorders capturing, recorders whose [stop] event is
    queued, and handlers waiting for their pipeline. *)
Definition capturing (c : Component) : nat :=
  pendingStarts c + active_count (recorders c) + length (stopping c).

Record session_invariant (c : Component) : Prop := {
  inv_one : (capturing c + length (transcribing c) ≤ 1)%nat;
  inv_recording : (0 < capturing c)%nat → isRecording (voiceState c) = true;
  inv_transcribing : (0 < length (transcribing c))%nat → isTranscribing c = true;
  inv_ref : ∀ rid, recorder_state c rid ≠ inactive → mediaRecorderRef c = Some rid
}.

Definition nonempty (chunk : Blob) : Prop := (0 < Blob_size chunk)%nat.

(** A blob captured by [onstop]: the concatenation of non-empty chunks. *)
Definition captured (entry : nat * Blob) : Prop :=
  ∃ chunks, entry.2 = new_Blob chunks ∧ Forall nonempty chunks.

(** A component that has been granted a one-track stream and records. *)
Definition recording_demo : Component :=
  startRecording (Granted {| tracks := [true] |}) initial.

(** The same component after one chunk of three bytes has arrived. *)
Definition recording_with_chunk : Component :=
  ondataavailable [1; 2; 3] recording_demo.

(** A click, a granted stream, an empty chunk and a chunk of three
    bytes. *)
Definition demo_events : list event :=
  [ ClickMic;
    UserMediaSettles (Granted {| tracks := [true] |});
    DataAvailable 0 [];
    DataAvailable 0 [1; 2; 3] ].

(** The [unsigned long] that [resampleAudio] hands to the offline
    context as its length. *)
Definition requestedFrames (audioBuffer : AudioBuffer) (targetSampleRate : Z) : Z :=
  ToUint32
    (number_of_float
       (PrimFloat.mul (AudioBuffer.duration audioBuffer) (float_of_Z targetSampleRate))).

(** Sixteen frames of mono silence at 16 kHz, and a decoded buffer
    without frames. *)
Definition sixteen_frames : AudioBuffer :=
  AudioBuffer.mk 1 16 16000 [replicate 16 (of_Z 0)].


(** The flags claim no more than what is in flight, and an error is
    set only while nothing is being recorded. *)
Record flags_invariant (c : Component) : Prop := {
  fl_recording : isRecording (voiceState c) = true → (0 < capturing c)%nat;
  fl_transcribing : isTranscribing c = true → (0 < length (transcribing c))%nat;
  fl_error :
    ∀ message, error (voiceState c) = Some message →
      isRecording (voiceState c) = false ∧
      (message = "Error starting recording"%string ∨
       message = "Error processing audio"%string)
}.

(** The references the component holds are to objects that exist: the
    stream of a recorder, the stream an [onstop] handler closes over,
    the recorder of a queued [stop] event. *)
Record references_exist (c : Component) : Prop := {
  ref_recorders :
    Forall (λ r, (stream r < length (streams c))%nat) (recorders c);
  ref_transcribing :
    Forall (λ entry, (entry.1 < length (streams c))%nat) (transcribing c);
  ref_stopping :
    Forall (λ rid, (rid < length (recorders c))%nat) (stopping c)
}.

(** Stream [sid] is [s] and nothing will stop it: no recorder that
    records it is capturing or waits for its [stop] event, and no
    [onstop] handler closes over it. *)
Record abandoned (sid : nat) (s : MediaStream) (c : Component) : Prop := {
  ab_stream : streams c !! sid = Some s;
  ab_recorders :
    ∀ rid r, recorders c !! rid = Some r → stream r = sid →
             state r = inactive ∧ rid ∉ stopping c;
  ab_transcribing : sid ∉ (transcribing c).*1
}.

(** The request [transcribeAudio] sends for an encoded recording. *)
Definition transcribe_request (API_BASE_URL : string) (wav : Blob) : Request :=
  {| req_url := API_BASE_URL +:+ "/transcribe";
     req_method := "POST";
     req_mode := "cors";
     req_headers := [];
     req_body := [ {| fd_name := "audio"; fd_value := wav;
                      fd_filename := Some "recording.wav"%string |} ] |}.

(** A parsed body without a usable [transcript]: a primitive, an array,
    or an object that lacks the key. *)
Definition lacks_transcript (data : JSValue) : Prop :=
  match data with
  | JUndefined | JNull => False
  | JObject fields => Forall (λ field, field.1 ≠ "transcript"%string) fields
  | _ => True
  end.







(** Further test states: a start that was denied the microphone, a
    recording just stopped, and a whole cycle (record, stop, transcribe)
    against a server that answers with an empty object. *)
Definition denied_demo : Component := startRecording Denied initial.

Definition stopped_demo : Component :=
  match stopRecording recording_with_chunk with
  | Ok c => c
  | Throw _ => recording_with_chunk
  end.

Definition empty_answer : Response :=
  {| status := 200; body_json := Some (JObject []) |}.



(** Press, grant, leave for the settings panel and come back, press,
    grant. *)
Definition remount_events : list page_event :=
  [ OfMounted ClickMic;
    OfMounted (UserMediaSettles (Granted {| tracks := [true] |}));
    Remount;
    OfMounted ClickMic;
    OfMounted (UserMediaSettles (Granted {| tracks := [true] |})) ].

Definition remount_demo : Page :=
  default page_initial
    (page_run undecodable unreachable_network "https://host" remount_events
       page_initial).

(** A press whose recorder cannot be started. *)
Definition faulty_demo : Component :=
  startRecording (GrantedFaulty {| tracks := [true] |} StartThrows) initial.

Definition faulty_page : Page := {| mounted := faulty_demo; detached := [] |}.

(** What happens after it: the user records again and stops, leaves
    for the settings panel, and the pipeline settles in the instance
    that is gone. *)
Definition after_fault_events : list page_event :=
  [ OfMounted ClickMic;
    OfMounted (UserMediaSettles (Granted {| tracks := [true] |}));
    OfMounted (DataAvailable 1 [1; 2; 3]);
    OfMounted ClickMic;
    OfMounted (StopEvent 0);
    Remount;
    OfDetached 0 (PipelineSettles 0) ].

Definition after_fault_demo : Page :=
  default faulty_page
    (page_run (decoding_to sixteen_frames) (answering empty_answer) "https://host"
       after_fault_events faulty_page).

(** An instance of the page: the mounted one, or a detached one by
    its place. *)
Definition instance_at (p : Page) (place : option nat) : option Component :=
  match place with
  | None => Some (mounted p)
  | Some i => detached p !! i
  end.

Definition is_remount (pe : page_event) : bool :=
  match pe with Remount => true | _ => false end.

(** Where the instance mounted in [p] is after the events [es]: still
    mounted, or detached at the place the first unmounting gave it. *)
Definition place_after (es : list page_event) (p : Page) : option nat :=
  if existsb is_remount es then Some (length (detached p)) else None.

(** A denied start on a page. *)
Definition denied_page : Page := {| mounted := denied_demo; detached := [] |}.


(* ================================================================== *)
(** * Strings and truthiness *)
(* ================================================================== *)

(** Strings are sequences of code units; the units modelled are those
    below 256, of which these are white space or line terminators. *)
Definition is_whitespace (a : ascii) : bool :=
  let n := nat_of_ascii a in
  ((n =? 9) || (n =? 10) || (n =? 11) || (n =? 12) || (n =? 13) || (n =? 32)
   || (n =? 160))%nat.

Fixpoint trimStart (s : string) : string :=
  match s with
  | EmptyString => EmptyString
  | String a s' => if is_whitespace a then trimStart s' else s
  end.

Fixpoint trimEnd (s : string) : string :=
  match s with
  | EmptyString => EmptyString
  | String a s' =>
      match trimEnd s' with
      | EmptyString => if is_whitespace a then EmptyString else String a EmptyString
      | t => String a t
      end
  end.

(** [s.trim()]. *)
Definition trim (s : string) : string := trimEnd (trimStart s).

Fixpoint blank (s : string) : bool :=
  match s with
  | EmptyString => true
  | String a s' => is_whitespace a && blank s'
  end.

(** [v.trim()] on a value that may not be a string: [TypeError] when
    there is no such method to call. *)
Definition String_trim (v : JSValue) : result string :=
  match v with
  | JString s => Ok (trim s)
  | _ => Throw (Exn "TypeError" "trim")
  end.

Definition nonempty_string (s : string) : bool :=
  match s with EmptyString => false | String _ _ => true end.

Definition number_is_zero (x : number) : bool :=
  match x with
  | Finite q => (Qnum q =? 0)
  | _ => false
  end.

(** [ToBoolean]. *)
Definition truthy (v : JSValue) : bool :=
  match v with
  | JUndefined | JNull => false
  | JBool b => b
  | JNumber NaN => false
  | JNumber x => negb (number_is_zero x)
  | JString s => nonempty_string s
  | JArray _ | JObject _ => true
  end.

(** [a === b] on Numbers. *)
Definition number_eqb (a b : number) : bool :=
  match a, b with
  | Finite x, Finite y => Qeq_bool x y
  | PosInf, PosInf | NegInf, NegInf => true
  | _, _ => false
  end.

(* ================================================================== *)
(** * The other calls of [services/api.ts] *)
(* ================================================================== *)

Record ChatSettings : Type := {
  llmModel : string;
  asrModel : string;
  temperature : number
}.

(** A [File]: its name, its media type and its content. *)
Record File : Type := {
  file_name : string;
  file_type : string;
  file_content : list Z
}.

(** The body of a call: none, the JSON text of a value (what
    [JSON.stringify] returns for it), or form data with one file. *)
Inductive Body : Type :=
  | NoBody
  | JsonText (v : JSValue)
  | FormData (entries : list (string * File)).

Record Call : Type := {
  call_url : string;
  call_method : string;
  call_mode : string;
  call_headers : list (string * string);
  call_body : Body
}.

(** The calls made so far and the lines logged with [console.error]. *)
Record Net : Type := {
  calls : list Call;
  logged : list string
}.

Definition console_error (line : string) (w : Net) : Net :=
  {| calls := calls w; logged := logged w ++ [line] |}.

(** The headers of [defaultFetchOptions]. *)
Definition defaultFetchOptions_headers : list (string * string) :=
  [ ("Content-Type", "application/json") ]%string.

(** [JSON.stringify(settings)] as the value whose text it is. *)
Definition settings_json (settings : ChatSettings) : JSValue :=
  JObject [ ("llmModel", JString (llmModel settings));
            ("asrModel", JString (asrModel settings));
            ("temperature", JNumber (temperature settings)) ]%string.

Section Api.
Context (server : list Call → Call → FetchOutcome).
Context (API_BASE_URL : string).

Definition call_fetch (call : Call) (w : Net) : result Response * Net :=
  let w' := {| calls := calls w ++ [call]; logged := logged w |} in
  match server (calls w) call with
  | NetworkFailure => (Throw (Exn "TypeError" "Failed to fetch"), w')
  | Responded r => (Ok r, w')
  end.

(** [catch (error) { console.error(label, error); throw error; }]. *)
Definition rethrow_logged {A : Type} (label : string) (outcome : result A) (w : Net)
  : result A * Net :=
  match outcome with
  | Ok a => (Ok a, w)
  | Throw error => (Throw error, console_error label w)
  end.

Definition sendMessage (message : string) (w : Net) : result JSValue * Net :=
  let '(response, w) :=
    call_fetch
      {| call_url := API_BASE_URL +:+ "/chat";
         call_method := "POST";
         call_mode := "cors";
         call_headers := defaultFetchOptions_headers;
         call_body := JsonText (JObject [("message"%string, JString message)]) |} w in
  rethrow_logged "Error sending message:"
    (response ← response;
     if negb (Response_ok response)
     then Throw (Exn "Error" "Failed to send message")
     else data ← Response_json response; get_property data "response")
    w.

Definition updateSettings (settings : ChatSettings) (w : Net) : result unit * Net :=
  let '(response, w) :=
    call_fetch
      {| call_url := API_BASE_URL +:+ "/settings";
         call_method := "POST";
         call_mode := "cors";
         call_headers := defaultFetchOptions_headers;
         call_body := JsonText (settings_json settings) |} w in
  rethrow_logged "Error updating settings:"
    (response ← response;
     if negb (Response_ok response)
     then Throw (Exn "Error" "Failed to update settings")
     else Ok ())
    w.

Definition clearHistory (w : Net) : result unit * Net :=
  let '(response, w) :=
    call_fetch
      {| call_url := API_BASE_URL +:+ "/clear-history";
         call_method := "POST";
         call_mode := "cors";
         call_headers := defaultFetchOptions_headers;
         call_body := NoBody |} w in
  rethrow_logged "Error clearing history:"
    (response ← response;
     if negb (Response_ok response)
     then Throw (Exn "Error" "Failed to clear history")
     else Ok ())
    w.

Definition uploadPDF (file : File) (w : Net) : result JSValue * Net :=
  let '(response, w) :=
    call_fetch
      {| call_url := API_BASE_URL +:+ "/upload";
         call_method := "POST";
         call_mode := "cors";
         call_headers := [];
         call_body := FormData [("file"%string, file)] |} w in
  rethrow_logged "Error uploading PDF:"
    (response ← response;
     if negb (Response_ok response)
     then Throw (Exn "Error" "Failed to upload PDF")
     else data ← Response_json response; get_property data "message")
    w.
End Api.

(* ================================================================== *)
(** * [PDFUpload] *)
(* ================================================================== *)

Inductive StatusType : Type := status_success | status_error.

Module PDFUpload.
(** The state of the component; [uploadStatus] is a type and the
    message to show. *)
Record t : Type := mk {
  selectedFile : option File;
  isUploading : bool;
  uploadStatus : option (StatusType * JSValue);
  net : Net
}.

Definition initial : t :=
  {| selectedFile := None; isUploading := false; uploadStatus := None;
     net := {| calls := []; logged := [] |} |}.

(** [handleFileSelect]: [file] is [event.target.files?.[0]]. *)
Definition handleFileSelect (file : option File) (s : t) : t :=
  match file with
  | Some f =>
      if String.eqb (file_type f) "application/pdf"
      then {| selectedFile := Some f; isUploading := isUploading s;
              uploadStatus := None; net := net s |}
      else {| selectedFile := selectedFile s; isUploading := isUploading s;
              uploadStatus :=
                Some (status_error, JString "Please select a valid PDF file.");
              net := net s |}
  | None =>
      {| selectedFile := selectedFile s; isUploading := isUploading s;
         uploadStatus := Some (status_error, JString "Please select a valid PDF file.");
         net := net s |}
  end.

Section Upload.
Context (server : list Call → Call → FetchOutcome).
Context (API_BASE_URL : string).

(** [handleUpload], run through. *)
Definition handleUpload (s : t) : t :=
  match selectedFile s with
  | None => s
  | Some file =>
      let '(r, w) := uploadPDF server API_BASE_URL file (net s) in
      match r with
      | Ok message =>
          {| selectedFile := None; isUploading := false;
             uploadStatus := Some (status_success, message); net := w |}
      | Throw _ =>
          {| selectedFile := selectedFile s; isUploading := false;
             uploadStatus :=
               Some (status_error, JString "Failed to upload PDF. Please try again.");
             net := w |}
      end
  end.

Inductive event : Type :=
  | FileSelect (file : option File)
  | Upload.

Definition handle (e : event) (s : t) : option t :=
  match e with
  | FileSelect file => Some (handleFileSelect file s)
  | Upload => Some (handleUpload s)
  end.

Fixpoint run (es : list event) (s : t) : option t :=
  match es with
  | [] => Some s
  | e :: es' => s' ← handle e s; run es' s'
  end.

Definition reachable (s : t) : Prop := ∃ es, run es initial = Some s.
End Upload.
End PDFUpload.

(* ================================================================== *)
(** * [App]: chats, panels and notifications *)
(* ================================================================== *)

Inductive Sender : Type := user | bot.

(** Messages and chats; their timestamps, which nothing reads back, are
    left out.  The text of a message is what the caller passed: a
    string for the user's, the value the server returned for the
    bot's. *)
Module ChatMessage.
Record t : Type := mk {
  id : string;
  text : JSValue;
  sender : Sender
}.
End ChatMessage.

Module ChatHistoryItem.
Record t : Type := mk {
  id : string;
  title : string;
  messages : list ChatMessage.t
}.
End ChatHistoryItem.

Inductive Severity : Type := severity_success | severity_info | severity_error.

Record SnackbarState : Type := {
  snack_open : bool;
  snack_message : string;
  snack_severity : Severity
}.

(** [Partial<ChatSettings>]: a key is present or not. *)
Record PartialSettings : Type := {
  new_llmModel : option string;
  new_asrModel : option string;
  new_temperature : option number
}.

Definition defaultSettings : ChatSettings :=
  {| llmModel := "llama-3.1-8b-instant"; asrModel := "conformer";
     temperature := number_of_float 0x1.3333333333333p-2%float |}.

(** [{ ...settings, ...newSettings }]. *)
Definition merge_settings (settings : ChatSettings) (newSettings : PartialSettings)
  : ChatSettings :=
  {| llmModel := default (llmModel settings) (new_llmModel newSettings);
     asrModel := default (asrModel settings) (new_asrModel newSettings);
     temperature := default (temperature settings) (new_temperature newSettings) |}.

(** [Date.now().toString()]. *)
Definition timestamp_id (now : Z) : string := pretty now.

Module App.
Record t : Type := mk {
  showSettings : bool;
  showUpload : bool;
  settings : ChatSettings;
  snackbar : SnackbarState;
  chatHistory : list ChatHistoryItem.t;
  activeChatId : option string;
  mobileOpen : bool;
  initializedRef : bool;
  net : Net;
  pendingClears : list (option string * result unit);
  pendingSettings : list (ChatSettings * PartialSettings * result unit)
}.

Definition initial : t :=
  {| showSettings := false; showUpload := false; settings := defaultSettings;
     snackbar := {| snack_open := false; snack_message := EmptyString;
                    snack_severity := severity_success |};
     chatHistory := []; activeChatId := None; mobileOpen := false;
     initializedRef := false;
     net := {| calls := []; logged := [] |};
     pendingClears := []; pendingSettings := [] |}.

Definition setShowSettings (b : bool) (s : t) : t :=
  mk b (showUpload s) (settings s) (snackbar s) (chatHistory s) (activeChatId s)
     (mobileOpen s) (initializedRef s) (net s)
     (pendingClears s) (pendingSettings s).

Definition setShowUpload (b : bool) (s : t) : t :=
  mk (showSettings s) b (settings s) (snackbar s) (chatHistory s) (activeChatId s)
     (mobileOpen s) (initializedRef s) (net s)
     (pendingClears s) (pendingSettings s).

Definition setSettings (v : ChatSettings) (s : t) : t :=
  mk (showSettings s) (showUpload s) v (snackbar s) (chatHistory s) (activeChatId s)
     (mobileOpen s) (initializedRef s) (net s)
     (pendingClears s) (pendingSettings s).

Definition setSnackbar (v : SnackbarState) (s : t) : t :=
  mk (showSettings s) (showUpload s) (settings s) v (chatHistory s) (activeChatId s)
     (mobileOpen s) (initializedRef s) (net s)
     (pendingClears s) (pendingSettings s).

Definition setChatHistory (v : list ChatHistoryItem.t) (s : t) : t :=
  mk (showSettings s) (showUpload s) (settings s) (snackbar s) v (activeChatId s)
     (mobileOpen s) (initializedRef s) (net s)
     (pendingClears s) (pendingSettings s).

Definition setActiveChatId (v : option string) (s : t) : t :=
  mk (showSettings s) (showUpload s) (settings s) (snackbar s) (chatHistory s) v
     (mobileOpen s) (initializedRef s) (net s)
     (pendingClears s) (pendingSettings s).

Definition setMobileOpen (b : bool) (s : t) : t :=
  mk (showSettings s) (showUpload s) (settings s) (snackbar s) (chatHistory s)
     (activeChatId s) b (initializedRef s) (net s)
     (pendingClears s) (pendingSettings s).

Definition set_initializedRef (b : bool) (s : t) : t :=
  mk (showSettings s) (showUpload s) (settings s) (snackbar s) (chatHistory s)
     (activeChatId s) (mobileOpen s) b (net s) (pendingClears s) (pendingSettings s).

Definition set_net (w : Net) (s : t) : t :=
  mk (showSettings s) (showUpload s) (settings s) (snackbar s) (chatHistory s)
     (activeChatId s) (mobileOpen s) (initializedRef s) w (pendingClears s)
     (pendingSettings s).

Definition set_pendingClears (l : list (option string * result unit)) (s : t) : t :=
  mk (showSettings s) (showUpload s) (settings s) (snackbar s) (chatHistory s)
     (activeChatId s) (mobileOpen s) (initializedRef s) (net s) l (pendingSettings s).

Definition set_pendingSettings
    (l : list (ChatSettings * PartialSettings * result unit)) (s : t) : t :=
  mk (showSettings s) (showUpload s) (settings s) (snackbar s) (chatHistory s)
     (activeChatId s) (mobileOpen s) (initializedRef s) (net s) (pendingClears s) l.

Definition newChat (newChatId : string) : ChatHistoryItem.t :=
  ChatHistoryItem.mk newChatId "New Chat" [].

(** The effect that creates the first chat. *)
Definition useEffect_initialize (now : Z) (s : t) : t :=
  if (length (chatHistory s) =? 0)%nat && negb (initializedRef s)
  then
    let s := set_initializedRef true s in
    let initialChatId := timestamp_id now in
    let s := setChatHistory [newChat initialChatId] s in
    setActiveChatId (Some initialChatId) s
  else s.

Definition toggleSettings (s : t) : t :=
  setShowUpload false (setShowSettings (negb (showSettings s)) s).

Definition toggleUpload (s : t) : t :=
  setShowSettings false (setShowUpload (negb (showUpload s)) s).

Definition toggleMobileSidebar (s : t) : t :=
  setMobileOpen (negb (mobileOpen s)) s.

(** [handleCloseSnackbar]: [clickaway] says whether [reason] is
    ['clickaway']. *)
Definition handleCloseSnackbar (clickaway : bool) (s : t) : t :=
  if clickaway then s
  else setSnackbar {| snack_open := false;
                      snack_message := snack_message (snackbar s);
                      snack_severity := snack_severity (snackbar s) |} s.

Definition handleNewChat (isSmallScreen : bool) (now : Z) (s : t) : t :=
  let newChatId := timestamp_id now in
  let s := setChatHistory (newChat newChatId :: chatHistory s) s in
  let s := setActiveChatId (Some newChatId) s in
  if isSmallScreen then setMobileOpen false s else s.

Definition handleSelectChat (isSmallScreen : bool) (id : string) (s : t) : t :=
  let s := setActiveChatId (Some id) s in
  if isSmallScreen then setMobileOpen false s else s.

(** [handleDeleteChat]: [chatHistory] and [activeChatId] are the ones of
    the render the handler belongs to, the state it is called on. *)
Definition handleDeleteChat (isSmallScreen : bool) (now : Z) (id : string) (s : t) : t :=
  let s' :=
    setChatHistory (filter (λ chat, ChatHistoryItem.id chat ≠ id) (chatHistory s)) s in
  if decide (Some id = activeChatId s)
  then
    let remainingChats :=
      filter (λ chat, ChatHistoryItem.id chat ≠ id) (chatHistory s) in
    match remainingChats with
    | first :: _ => setActiveChatId (Some (ChatHistoryItem.id first)) s'
    | [] => handleNewChat isSmallScreen now s'
    end
  else s'.

(** The title a chat takes from its first message. *)
Definition updatedTitle (chat : ChatHistoryItem.t) (message : string) : string :=
  if (length (ChatHistoryItem.messages chat) =? 0)%nat
  then if (30 <? String.length message)%nat
       then substring 0 30 message +:+ "..."
       else message
  else ChatHistoryItem.title chat.

Definition append_user (activeChatId : string) (userMessageId message : string)
    (chat : ChatHistoryItem.t) : ChatHistoryItem.t :=
  if decide (ChatHistoryItem.id chat = activeChatId)
  then ChatHistoryItem.mk (ChatHistoryItem.id chat) (updatedTitle chat message)
         (ChatHistoryItem.messages chat
          ++ [ChatMessage.mk userMessageId (JString message) user])
  else chat.

Definition append_bot (activeChatId : string) (botMessageId : string)
    (response : JSValue) (chat : ChatHistoryItem.t) : ChatHistoryItem.t :=
  if decide (ChatHistoryItem.id chat = activeChatId)
  then ChatHistoryItem.mk (ChatHistoryItem.id chat) (ChatHistoryItem.title chat)
         (ChatHistoryItem.messages chat ++ [ChatMessage.mk botMessageId response bot])
  else chat.

(** [handleSendMessage]: [activeChatId] is the one of the render the
    function belongs to, which a caller that awaits may hold on to;
    [userNow] and [botNow] are the two readings of the clock. *)
Definition handleSendMessage (activeChatId : option string) (userNow botNow : Z)
    (message : string) (response : JSValue) (s : t) : t :=
  match activeChatId with
  | None => s
  | Some active =>
      if negb (nonempty_string active) then s
      else
        let s :=
          if nonempty_string message
          then setChatHistory
                 (append_user active (timestamp_id userNow) message <$> chatHistory s) s
          else s in
        if truthy response
        then setChatHistory
               (append_bot active (timestamp_id botNow) response <$> chatHistory s) s
        else s
  end.

Definition clear_chat (activeChatId : string) (chat : ChatHistoryItem.t)
  : ChatHistoryItem.t :=
  if decide (ChatHistoryItem.id chat = activeChatId)
  then ChatHistoryItem.mk (ChatHistoryItem.id chat) "New Chat" []
  else chat.

Section Handlers.
Context (server : list Call → Call → FetchOutcome).
Context (API_BASE_URL : string).
Context (Number_toString : number → string).

(** [handleClearHistory] after [clearHistory] has settled with
    [outcome]; [activeChatId] is the one of the render the handler
    belongs to. *)
Definition handleClearHistory_settle (activeChatId : option string)
    (outcome : result unit) (s : t) : t :=
  match outcome with
  | Ok _ =>
      let s :=
        match activeChatId with
        | Some active =>
            if nonempty_string active
            then setChatHistory (clear_chat active <$> chatHistory s) s
            else s
        | None => s
        end in
      setSnackbar {| snack_open := true;
                     snack_message := "Chat history cleared successfully";
                     snack_severity := severity_success |} s
  | Throw _ =>
      let s := set_net (console_error "Failed to clear history:" (net s)) s in
      setSnackbar {| snack_open := true;
                     snack_message := "Failed to clear history";
                     snack_severity := severity_error |} s
  end.

(** [handleClearHistory], run through. *)
Definition handleClearHistory (s : t) : t :=
  let '(outcome, w) := clearHistory server API_BASE_URL (net s) in
  handleClearHistory_settle (activeChatId s) outcome (set_net w s).

Definition info (message : string) : SnackbarState :=
  {| snack_open := true; snack_message := message; snack_severity := severity_info |}.

(** [handleSettingsChange] after [updateSettings] has settled;
    [settings] is the one of the render the handler belongs to. *)
Definition handleSettingsChange_settle (settings : ChatSettings)
    (newSettings : PartialSettings) (outcome : result unit) (s : t) : t :=
  match outcome with
  | Ok _ =>
      let s :=
        match new_llmModel newSettings with
        | Some model =>
            if nonempty_string model && negb (String.eqb model (llmModel settings))
            then setSnackbar (info ("Language model changed to " +:+ model)) s
            else s
        | None => s
        end in
      let s :=
        match new_asrModel newSettings with
        | Some model =>
            if nonempty_string model && negb (String.eqb model (asrModel settings))
            then setSnackbar
                   (info ("Speech recognition model changed to " +:+ model)) s
            else s
        | None => s
        end in
      match new_temperature newSettings with
      | Some value =>
          if negb (number_eqb value (temperature settings))
          then setSnackbar (info ("Temperature set to " +:+ Number_toString value)) s
          else s
      | None => s
      end
  | Throw _ =>
      let s := set_net (console_error "Failed to update settings:" (net s)) s in
      setSnackbar {| snack_open := true;
                     snack_message := "Failed to update settings";
                     snack_severity := severity_error |} s
  end.

(** [handleSettingsChange], run through. *)
Definition handleSettingsChange (newSettings : PartialSettings) (s : t) : t :=
  let updatedSettings := merge_settings (settings s) newSettings in
  let '(outcome, w) := updateSettings server API_BASE_URL updatedSettings (net s) in
  handleSettingsChange_settle (settings s) newSettings outcome
    (set_net w (setSettings updatedSettings s)).

(** ** Events *)

(** What can happen to [App].  The list items of the sidebar are the
    chats of the history, so [SelectChat] and [DeleteChat] name one of
    them.  [SendMessage] is a call of the [onSendMessage] property by
    the chat component, which may hold on to the function of an earlier
    render and so to any earlier [activeChatId].  The two asynchronous
    handlers make their call when they start and settle later, with the
    values they closed over; [pendingClears] and [pendingSettings] list
    the ones that wait. *)
Inductive event : Type :=
  | Initialize (now : Z)
  | ToggleSettings
  | ToggleUpload
  | ToggleMobileSidebar
  | CloseSnackbar (clickaway : bool)
  | NewChat (isSmallScreen : bool) (now : Z)
  | SelectChat (isSmallScreen : bool) (id : string)
  | DeleteChat (isSmallScreen : bool) (now : Z) (id : string)
  | SendMessage (activeChatId : option string) (userNow botNow : Z)
      (message : string) (response : JSValue)
  | ClearHistory
  | ClearHistorySettles (k : nat)
  | SettingsChange (newSettings : PartialSettings)
  | SettingsChangeSettles (k : nat).

Definition chat_ids (s : t) : list string := ChatHistoryItem.id <$> chatHistory s.

Definition handle (e : event) (s : t) : option t :=
  match e with
  | Initialize now => Some (useEffect_initialize now s)
  | ToggleSettings => Some (toggleSettings s)
  | ToggleUpload => Some (toggleUpload s)
  | ToggleMobileSidebar => Some (toggleMobileSidebar s)
  | CloseSnackbar clickaway => Some (handleCloseSnackbar clickaway s)
  | NewChat isSmallScreen now => Some (handleNewChat isSmallScreen now s)
  | SelectChat isSmallScreen id =>
      if decide (id ∈ chat_ids s) then Some (handleSelectChat isSmallScreen id s)
      else None
  | DeleteChat isSmallScreen now id =>
      if decide (id ∈ chat_ids s) then Some (handleDeleteChat isSmallScreen now id s)
      else None
  | SendMessage activeChatId userNow botNow message response =>
      Some (handleSendMessage activeChatId userNow botNow message response s)
  | ClearHistory =>
      let '(outcome, w) := clearHistory server API_BASE_URL (net s) in
      Some (set_pendingClears (pendingClears s ++ [(activeChatId s, outcome)])
              (set_net w s))
  | ClearHistorySettles k =>
      '(activeChatId, outcome) ← pendingClears s !! k;
      Some (handleClearHistory_settle activeChatId outcome
              (set_pendingClears (delete k (pendingClears s)) s))
  | SettingsChange newSettings =>
      let updatedSettings := merge_settings (settings s) newSettings in
      let '(outcome, w) :=
        updateSettings server API_BASE_URL updatedSettings (net s) in
      Some (set_pendingSettings
              (pendingSettings s ++ [(settings s, newSettings, outcome)])
              (set_net w (setSettings updatedSettings s)))
  | SettingsChangeSettles k =>
      '(settings, newSettings, outcome) ← pendingSettings s !! k;
      Some (handleSettingsChange_settle settings newSettings outcome
              (set_pendingSettings (delete k (pendingSettings s)) s))
  end.

Fixpoint run (es : list event) (s : t) : option t :=
  match es with
  | [] => Some s
  | e :: es' => s' ← handle e s; run es' s'
  end.

Definition reachable (s : t) : Prop := ∃ es, run es initial = Some s.
End Handlers.
End App.

(* ================================================================== *)
(** * [ChatInterface]: sending a message *)
(* ================================================================== *)

Module ChatInterface.
(** The state of the component that the send path reads and writes. *)
Record t : Type := mk {
  localMessages : list ChatMessage.t;
  inputText : JSValue;
  isLoading : bool
}.

Definition setLocalMessages (v : list ChatMessage.t) (c : t) : t :=
  mk v (inputText c) (isLoading c).

Definition setInputText (v : JSValue) (c : t) : t :=
  mk (localMessages c) v (isLoading c).

Definition setIsLoading (b : bool) (c : t) : t :=
  mk (localMessages c) (inputText c) b.

Section Send.
Context {Parent : Type}.
Context (server : list Call → Call → FetchOutcome).
Context (API_BASE_URL : string).

(** [handleSend], run through.  [onSendMessage] is the property the
    parent passes, given the clock reading of each call; [now] is the
    reading for the local message and [botNow] the one after the
    answer. *)
Definition handleSend (onSendMessage : option (Z → string → JSValue → Parent → Parent))
    (now userNow botNow : Z) (c : t) (parent : Parent) (w : Net)
  : result (t * Parent * Net) :=
  trimmed ← String_trim (inputText c);
  if negb (nonempty_string trimmed) then Ok (c, parent, w)
  else
    match inputText c with
    | JString text =>
        let userMessage := ChatMessage.mk (timestamp_id now) (JString text) user in
        match onSendMessage with
        | Some onSendMessage =>
            let c := setInputText (JString EmptyString) c in
            let parent := onSendMessage userNow text (JString EmptyString) parent in
            let c := setIsLoading true c in
            let '(r, w) := sendMessage server API_BASE_URL text w in
            let '(parent, w) :=
              match r with
              | Ok response => (onSendMessage botNow EmptyString response parent, w)
              | Throw _ => (parent, console_error "Error getting bot response:" w)
              end in
            Ok (setIsLoading false c, parent, w)
        | None =>
            let c := setLocalMessages (localMessages c ++ [userMessage]) c in
            let c := setInputText (JString EmptyString) c in
            let c := setIsLoading true c in
            let '(r, w) := sendMessage server API_BASE_URL text w in
            let '(c, w) :=
              match r with
              | Ok response =>
                  let botMessage :=
                    ChatMessage.mk (timestamp_id (botNow + 1)) response bot in
                  (setLocalMessages (localMessages c ++ [botMessage]) c, w)
              | Throw _ => (c, console_error "Error getting bot response:" w)
              end in
            Ok (setIsLoading false c, parent, w)
        end
    | _ => Throw (Exn "TypeError" "trim")
    end.
End Send.

(** The two expressions of the send button that read the field:
    [disabled] and the choice of its colour. *)
Definition render_sendButton (isLoading isTranscribing : bool) (inputText : JSValue)
  : result (bool * bool) :=
  disabled ←
    (if isLoading || isTranscribing then Ok true
     else trimmed ← String_trim inputText; Ok (negb (nonempty_string trimmed)));
  highlighted ← (trimmed ← String_trim inputText; Ok (nonempty_string trimmed));
  Ok (disabled, highlighted).
End ChatInterface.

(* ================================================================== *)
(** * Vocabulary of the statements about the service layer and [App] *)
(* ================================================================== *)

(** The requests of the four JSON and upload calls. *)
Definition service_call (API_BASE_URL path : string)
    (headers : list (string * string)) (body : Body) : Call :=
  {| call_url := API_BASE_URL +:+ path;
     call_method := "POST";
     call_mode := "cors";
     call_headers := headers;
     call_body := body |}.

(** One request went out, and one line went to the console exactly when
    the call failed. *)
Definition called_once {A : Type} (call : Call) (label : string) (w : Net)
    (r : result A * Net) : Prop :=
  calls r.2 = calls w ++ [call] ∧
  logged r.2 = logged w ++ (if is_ok r.1 then [] else [label]).

(** The request that uploads [file]. *)
Definition upload_call (API_BASE_URL : string) (file : File) : Call :=
  service_call API_BASE_URL "/upload" [] (FormData [("file"%string, file)]).

(** Every chat has a short title, and a chat without messages is
    called "New Chat". *)
Definition well_titled (chat : ChatHistoryItem.t) : Prop :=
  (String.length (ChatHistoryItem.title chat) ≤ 33)%nat ∧
  (ChatHistoryItem.messages chat = [] → ChatHistoryItem.title chat = "New Chat"%string).

(** The clock reading an event makes a chat identifier from, and runs
    along which these readings grow. *)
Definition event_clock (e : App.event) : option Z :=
  match e with
  | App.Initialize now | App.NewChat _ now | App.DeleteChat _ now _ => Some now
  | _ => None
  end.

Fixpoint clock_advances (last : option Z) (es : list App.event) : Prop :=
  match es with
  | [] => True
  | e :: es' =>
      match event_clock e with
      | Some now =>
          match last with Some t => t < now | None => True end ∧
          clock_advances (Some now) es'
      | None => clock_advances last es'
      end
  end.

(** Test data for the service layer and the components above it: two
    files, a server that accepts everything, and short runs of the
    upload component and of [App]. *)
Definition leaflet : File :=
  {| file_name := "leaflet.pdf"; file_type := "application/pdf";
     file_content := [37; 80; 68; 70] |}.

Definition picture : File :=
  {| file_name := "scan.png"; file_type := "image/png";
     file_content := [137; 80; 78; 71] |}.

Definition accepting : list Call → Call → FetchOutcome :=
  λ _ _, Responded
           {| status := 200;
              body_json := Some (JObject [ ("message", JString "stored");
                                           ("response", JString "namaste") ]%string) |}.

Definition upload_events : list PDFUpload.event :=
  [ PDFUpload.FileSelect (Some leaflet);
    PDFUpload.FileSelect (Some picture);
    PDFUpload.Upload ].

Definition upload_demo : PDFUpload.t :=
  default PDFUpload.initial
    (PDFUpload.run accepting "https://host" upload_events PDFUpload.initial).

Definition unformatted (x : number) : string := "?".

Definition app_events : list App.event :=
  [ App.Initialize 1000;
    App.SendMessage (Some "1000"%string) 1001 1001 "namaste" (JString EmptyString);
    App.NewChat false 1002;
    App.ToggleSettings;
    App.ToggleUpload;
    App.DeleteChat false 1003 "1002" ].

Definition app_demo : App.t :=
  default App.initial
    (App.run accepting "https://host" unformatted app_events App.initial).

Definition composing (text : string) : ChatInterface.t :=
  ChatInterface.mk [] (JString text) false.

(* ================================================================== *)
(** * Numbers: conversions and clamping *)
(* ================================================================== *)

Lemma truncate_inject_Z (z : Z) : truncate (inject_Z z) = z.
Proof. unfold truncate; simpl. apply Z.quot_1_r. Qed.

Lemma integer_part_of_Z (z : Z) : integer_part (of_Z z) = z.
Proof. apply truncate_inject_Z. Qed.

Lemma ToUint32_of_Z (z : Z) : ToUint32 (of_Z z) = z mod 2 ^ 32.
Proof. unfold ToUint32. by rewrite integer_part_of_Z. Qed.

Lemma ToUint16_of_Z (z : Z) : ToUint16 (of_Z z) = z mod 2 ^ 16.
Proof. unfold ToUint16. by rewrite integer_part_of_Z. Qed.

Lemma ToUint8_of_Z (z : Z) : ToUint8 (of_Z z) = z mod 2 ^ 8.
Proof. unfold ToUint8. by rewrite integer_part_of_Z. Qed.

Lemma Qlt_bool_spec (x y : Q) : Qlt_bool x y = true ↔ (x < y)%Q.
Proof. unfold Qlt_bool, Qlt. apply Z.ltb_lt. Qed.

Lemma Qlt_bool_false (x y : Q) : Qlt_bool x y = false ↔ (y <= x)%Q.
Proof. unfold Qlt_bool, Qle. apply Z.ltb_ge. Qed.

(** The integer part lies between any two integers of opposite signs
    that bound the rational. *)
Lemma truncate_between (x : Q) (a b : Z) :
  a <= 0 <= b → (inject_Z a <= x)%Q → (x <= inject_Z b)%Q →
  a <= truncate x <= b.
Proof.
  destruct x as [n d]. unfold truncate, Qle; simpl.
  intros [Ha Hb] Hlo Hhi.
  rewrite Z.mul_1_r in Hlo, Hhi.
  pose proof (Pos2Z.is_pos d) as Hd.
  destruct (Z.le_gt_cases 0 n) as [Hn | Hn].
  - rewrite Z.quot_div_nonneg by lia. split.
    + pose proof (Z.div_pos n (Z.pos d)); lia.
    + apply Z.div_le_upper_bound; lia.
  - replace n with (- (- n)) by lia.
    rewrite Z.quot_opp_l by lia. rewrite Z.quot_div_nonneg by lia. split.
    + assert (- n / Z.pos d <= - a); [apply Z.div_le_upper_bound; lia | lia].
    + pose proof (Z.div_pos (- n) (Z.pos d)); lia.
Qed.

(** The integer part is within one of the rational, on the side of
    zero. *)
Lemma truncate_nonneg (x : Q) :
  (0 <= x)%Q → (inject_Z (truncate x) <= x)%Q ∧ (x < inject_Z (truncate x + 1))%Q.
Proof.
  destruct x as [n d]. unfold truncate, Qle, Qlt; simpl.
  rewrite !Z.mul_1_r. intros Hn.
  rewrite Z.quot_div_nonneg by lia.
  pose proof (Z.div_mod n (Z.pos d)) as Hdm.
  pose proof (Z.mod_pos_bound n (Z.pos d)) as Hm.
  split; nia.
Qed.

Lemma truncate_nonpos (x : Q) :
  (x <= 0)%Q → (x <= inject_Z (truncate x))%Q ∧ (inject_Z (truncate x - 1) < x)%Q.
Proof.
  destruct x as [n d]. unfold truncate, Qle, Qlt; simpl.
  rewrite !Z.mul_1_r. intros Hn.
  pose proof (Z.quot_rem' n (Z.pos d)) as Hqr.
  pose proof (Z.rem_bound_abs n (Z.pos d) ltac:(lia)) as Hr.
  pose proof (Z.rem_nonpos n (Z.pos d) ltac:(lia) Hn) as Hr'.
  split; lia.
Qed.

(** Clamping, case by case. *)
Lemma clamp_Finite (q : Q) :
  clamp (Finite q) =
    if Qlt_bool q (inject_Z 1)
    then if Qlt_bool (inject_Z (-1)) q then Finite q else of_Z (-1)
    else of_Z 1.
Proof.
  unfold clamp; simpl.
  destruct (Qlt_bool q (inject_Z 1)); simpl; [| reflexivity].
  by destruct (Qlt_bool (inject_Z (-1)) q).
Qed.

(** Every sample but [NaN] is clamped into [[-1, 1]]. *)
Lemma clamp_range (x : number) :
  (x = NaN ∧ clamp x = NaN) ∨
  (∃ r, clamp x = Finite r ∧ (inject_Z (-1) <= r)%Q ∧ (r <= inject_Z 1)%Q).
Proof.
  destruct x as [ | q | | ].
  - by left.
  - right. rewrite clamp_Finite.
    destruct (Qlt_bool q (inject_Z 1)) eqn:Hhi.
    + destruct (Qlt_bool (inject_Z (-1)) q) eqn:Hlo.
      * exists q. apply Qlt_bool_spec in Hhi, Hlo.
        split; [done | split; by apply Qlt_le_weak].
      * exists (inject_Z (-1)). by repeat split.
    + exists (inject_Z 1). by repeat split.
  - right. exists (inject_Z 1). by repeat split.
  - right. exists (inject_Z (-1)). by repeat split.
Qed.

(** A sample already inside the range is left as it is. *)
Lemma clamp_inside (q : Q) :
  (inject_Z (-1) <= q)%Q → (q <= inject_Z 1)%Q →
  ∃ r, clamp (Finite q) = Finite r ∧ (r == q)%Q.
Proof.
  intros Hlo Hhi. rewrite clamp_Finite.
  destruct (Qlt_bool q (inject_Z 1)) eqn:H1.
  - destruct (Qlt_bool (inject_Z (-1)) q) eqn:H2.
    + by exists q.
    + exists (inject_Z (-1)). split; [done |].
      apply Qlt_bool_false in H2. by apply Qle_antisym.
  - exists (inject_Z 1). split; [done |].
    apply Qlt_bool_false in H1. by apply Qle_antisym.
Qed.

Lemma clamp_idempotent (x : number) : clamp (clamp x) = clamp x.
Proof.
  destruct x as [ | q | | ]; try reflexivity.
  rewrite (clamp_Finite q).
  destruct (Qlt_bool q (inject_Z 1)) eqn:Hhi; [| reflexivity].
  destruct (Qlt_bool (inject_Z (-1)) q) eqn:Hlo; [| reflexivity].
  by rewrite clamp_Finite, Hhi, Hlo.
Qed.

Lemma ToInt16_small (x : number) :
  - 2 ^ 15 <= integer_part x < 2 ^ 15 → ToInt16 x = integer_part x.
Proof.
  intros H. unfold ToInt16.
  destruct (Z.le_gt_cases 0 (integer_part x)) as [Hs | Hs].
  - rewrite Z.mod_small by lia.
    destruct (Z.leb_spec (2 ^ 15) (integer_part x)); lia.
  - replace (integer_part x mod 2 ^ 16) with (integer_part x + 2 ^ 16).
    + destruct (Z.leb_spec (2 ^ 15) (integer_part x + 2 ^ 16)); lia.
    + apply Z.mod_unique with (q := -1); lia.
Qed.

(** No sample overflows the 16-bit range: the integer handed to
    [setInt16] is already an int16. *)
Lemma scale_sample_int16 (x : number) :
  - 2 ^ 15 <= integer_part (scale_sample x) < 2 ^ 15.
Proof.
  unfold scale_sample.
  destruct (clamp_range x) as [[_ ->] | (r & -> & Hlo & Hhi)]; [simpl; lia |].
  simpl. destruct (Qlt_bool r (inject_Z 0)) eqn:Hneg; simpl.
  - apply Qlt_bool_spec in Hneg.
    assert (- 2 ^ 15 <= truncate (r * inject_Z 32768) <= 0); [| lia].
    apply truncate_between; [lia | |].
    + change (inject_Z (- 2 ^ 15)) with (inject_Z (-1) * inject_Z 32768)%Q.
      apply Qmult_le_compat_r; [done | by compute].
    + change (inject_Z 0) with (0 * inject_Z 32768)%Q.
      apply Qmult_le_compat_r; [by apply Qlt_le_weak | by compute].
  - apply Qlt_bool_false in Hneg.
    assert (0 <= truncate (r * inject_Z 32767) <= 32767); [| lia].
    apply truncate_between; [lia | |].
    + change (inject_Z 0) with (0 * inject_Z 32767)%Q.
      apply Qmult_le_compat_r; [done | by compute].
    + change (inject_Z 32767) with (inject_Z 1 * inject_Z 32767)%Q.
      apply Qmult_le_compat_r; [done | by compute].
Qed.

Lemma sample16_integer_part (x : number) :
  sample16 x = integer_part (scale_sample x).
Proof. apply ToInt16_small, scale_sample_int16. Qed.

Lemma sample16_clamp (x : number) : sample16 (clamp x) = sample16 x.
Proof. unfold sample16, scale_sample. by rewrite clamp_idempotent. Qed.

(* ================================================================== *)
(** * Byte stores *)
(* ================================================================== *)

Lemma length_le_bytes (n : nat) (v : Z) : length (le_bytes n v) = n.
Proof. revert v. induction n as [| n IH]; intros v; simpl; [done | by rewrite IH]. Qed.

Lemma le_bytes_range (n : nat) (v : Z) : Forall (λ b, 0 <= b < 256) (le_bytes n v).
Proof.
  revert v. induction n as [| n IH]; intros v; simpl; constructor.
  - apply Z.mod_pos_bound. lia.
  - apply IH.
Qed.

Lemma le_value_le_bytes (n : nat) (v : Z) :
  le_value (le_bytes n v) = v mod 256 ^ Z.of_nat n.
Proof.
  revert v. induction n as [| n IH]; intros v.
  - simpl. by rewrite Z.mod_1_r.
  - cbn [le_bytes le_value]. rewrite IH.
    rewrite Nat2Z.inj_succ, Z.pow_succ_r by lia.
    rewrite Z.rem_mul_r by lia. lia.
Qed.

(** A store right after [pre], into a region that is still zero, appends
    the bytes to [pre]. *)
Lemma storeBytes_fill (pre bs : list Z) (m off : nat) :
  length pre = off → (length bs ≤ m)%nat →
  storeBytes (pre ++ replicate m 0) off bs
  = Some ((pre ++ bs) ++ replicate (m - length bs) 0).
Proof.
  intros <- Hm. unfold storeBytes.
  rewrite length_app, length_replicate.
  rewrite decide_True by lia.
  rewrite take_app_length.
  rewrite drop_app_ge by lia.
  rewrite drop_replicate. f_equal.
  rewrite <- app_assoc. do 3 f_equal. lia.
Qed.

Lemma writeString_loop (s : string) (offset : nat) :
  ∀ (n a m : nat) (pre : list Z),
    length pre = (offset + a)%nat → (n ≤ m)%nat →
    (a + n ≤ String.length s)%nat →
    for_each (seq a n)
      (λ i dv,
         match charCodes s !! i with
         | Some code => setUint8 dv (offset + i) (of_Z code)
         | None => setUint8 dv (offset + i) NaN
         end)
      (pre ++ replicate m 0)
    = Some ((pre ++ take n (drop a (charCodes s))) ++ replicate (m - n) 0).
Proof.
  assert (Hlen : length (charCodes s) = String.length s).
  { unfold charCodes. rewrite length_fmap.
    induction s; simpl; [done | by f_equal]. }
  assert (Hbyte : ∀ i code, charCodes s !! i = Some code → 0 <= code < 256).
  { intros i code Hi. unfold charCodes in Hi.
    apply list_lookup_fmap_Some in Hi as (c & -> & _).
    pose proof (nat_ascii_bounded c). lia. }
  induction n as [| n IH]; intros a m pre Hpre Hm Hs.
  - simpl. by rewrite take_0, app_nil_r, Nat.sub_0_r.
  - cbn [seq for_each].
    destruct (charCodes s !! a) as [code |] eqn:Ha;
      [| apply lookup_ge_None in Ha; lia].
    pose proof (Hbyte _ _ Ha) as Hcode.
    unfold setUint8. rewrite ToUint8_of_Z. cbn [le_bytes].
    rewrite (Z.mod_small code (2 ^ 8)), (Z.mod_small code 256) by lia.
    rewrite storeBytes_fill by (simpl; lia).
    cbn [mbind option_bind length].
    rewrite IH by (rewrite ?length_app; simpl; lia).
    do 2 f_equal; [| f_equal; lia].
    rewrite <- app_assoc. f_equal.
    rewrite (drop_S _ _ _ Ha). simpl. by rewrite Nat.add_1_r || reflexivity.
Qed.

Lemma writeString_fill (pre : list Z) (m off : nat) (s : string) :
  length pre = off → (String.length s ≤ m)%nat →
  writeString (pre ++ replicate m 0) off s
  = Some ((pre ++ charCodes s) ++ replicate (m - String.length s) 0).
Proof.
  intros Hpre Hm. unfold writeString, for_upto.
  rewrite (writeString_loop s off (String.length s) 0 m pre) by lia.
  rewrite drop_0, take_ge; [done |].
  unfold charCodes. rewrite length_fmap.
  clear. induction s; simpl; lia.
Qed.

Lemma setUint32_fill (pre : list Z) (m off : nat) (v : Z) :
  length pre = off → (4 ≤ m)%nat →
  setUint32 (pre ++ replicate m 0) off (of_Z v)
  = Some ((pre ++ uint32_le v) ++ replicate (m - 4) 0).
Proof.
  intros. unfold setUint32, uint32_le. rewrite ToUint32_of_Z.
  by rewrite storeBytes_fill by (rewrite ?length_le_bytes; lia).
Qed.

Lemma setUint16_fill (pre : list Z) (m off : nat) (v : Z) :
  length pre = off → (2 ≤ m)%nat →
  setUint16 (pre ++ replicate m 0) off (of_Z v)
  = Some ((pre ++ uint16_le v) ++ replicate (m - 2) 0).
Proof.
  intros. unfold setUint16, uint16_le. rewrite ToUint16_of_Z.
  by rewrite storeBytes_fill by (rewrite ?length_le_bytes; lia).
Qed.

Lemma setInt16_fill (pre : list Z) (m off : nat) (x : number) :
  length pre = off → (2 ≤ m)%nat →
  setInt16 (pre ++ replicate m 0) off (scale_sample x)
  = Some ((pre ++ int16_le (sample16 x)) ++ replicate (m - 2) 0).
Proof.
  intros. unfold setInt16, int16_le, sample16.
  by rewrite storeBytes_fill by (rewrite ?length_le_bytes; lia).
Qed.

Lemma write_sample_fill (channels : list (list number)) (i j : nat)
    (ch : list number) (pre : list Z) (m off : nat) :
  channels !! j = Some ch → length pre = off → (2 ≤ m)%nat →
  write_sample channels i j (off, pre ++ replicate m 0)
  = Some ((off + 2)%nat,
          (pre ++ int16_le (sample16 (default NaN (ch !! i)))) ++ replicate (m - 2) 0).
Proof.
  intros Hj Hpre Hm. unfold write_sample, channel_sample.
  rewrite Hj. cbn [mbind option_bind].
  by rewrite setInt16_fill.
Qed.

(** The inner loop appends one sample per channel. *)
Lemma write_frame (channels : list (list number)) (i : nat) :
  ∀ (rest : list (list number)) (a off m : nat) (pre : list Z),
    drop a channels = rest → length pre = off → (2 * length rest ≤ m)%nat →
    for_each (seq a (length rest)) (write_sample channels i)
      (off, pre ++ replicate m 0)
    = Some ((off + 2 * length rest)%nat,
            (pre ++ concat ((λ ch, int16_le (sample16 (default NaN (ch !! i)))) <$> rest))
              ++ replicate (m - 2 * length rest) 0).
Proof.
  induction rest as [| ch rest IH]; intros a off m pre Hdrop Hpre Hm.
  - simpl. rewrite app_nil_r, Nat.sub_0_r. do 2 f_equal. lia.
  - assert (Ha : channels !! a = Some ch).
    { rewrite <- (Nat.add_0_r a), <- lookup_drop, Hdrop. done. }
    assert (Hrest : drop (S a) channels = rest).
    { rewrite (drop_S _ _ _ Ha) in Hdrop. by injection Hdrop. }
    cbn [length seq for_each].
    rewrite (write_sample_fill _ _ _ _ _ _ _ Ha Hpre) by (simpl in Hm; lia).
    cbn [mbind option_bind].
    rewrite (IH (S a) (off + 2)%nat (m - 2)%nat)
      by (rewrite ?length_app, ?length_le_bytes; simpl in *; lia || done).
    assert (E1 : (off + 2 + 2 * length rest = off + 2 * S (length rest))%nat) by lia.
    assert (E2 : (m - 2 - 2 * length rest = m - 2 * S (length rest))%nat) by lia.
    by rewrite E1, E2, fmap_cons, concat_cons, <- !app_assoc.
Qed.

(** The outer loop appends one frame per sample index. *)
Lemma write_frames (channels : list (list number)) :
  ∀ (n a off m : nat) (pre : list Z),
    length pre = off → (2 * length channels * n ≤ m)%nat →
    for_each (seq a n)
      (λ i, for_each (seq 0 (length channels)) (write_sample channels i))
      (off, pre ++ replicate m 0)
    = Some ((off + 2 * length channels * n)%nat,
            (pre ++ concat (frame_bytes channels <$> seq a n))
              ++ replicate (m - 2 * length channels * n) 0).
Proof.
  induction n as [| n IH]; intros a off m pre Hpre Hm.
  - simpl. rewrite app_nil_r, Nat.mul_0_r, Nat.sub_0_r, Nat.add_0_r. done.
  - cbn [seq for_each].
    rewrite (write_frame channels a channels 0 off m pre) by (done || lia).
    cbn [mbind option_bind].
    assert (Hframe : length (frame_bytes channels a) = (2 * length channels)%nat).
    { unfold frame_bytes. clear. induction channels as [| ch chs IHc]; [done |].
      rewrite fmap_cons, concat_cons, length_app, IHc.
      unfold int16_le. rewrite length_le_bytes. simpl. lia. }
    fold (frame_bytes channels a).
    rewrite IH by (rewrite ?length_app, ?Hframe; nia).
    set (C := length channels) in *.
    assert (E1 : (off + 2 * C + 2 * C * n = off + 2 * C * S n)%nat) by nia.
    assert (E2 : (m - 2 * C - 2 * C * n = m - 2 * C * S n)%nat) by nia.
    by rewrite E1, E2, fmap_cons, concat_cons, <- !app_assoc.
Qed.

Lemma mapM_getChannelData (b : AudioBuffer) :
  length (AudioBuffer.channelData b) = AudioBuffer.numberOfChannels b →
  mapM (AudioBuffer.getChannelData b) (seq 0 (AudioBuffer.numberOfChannels b))
  = Some (AudioBuffer.channelData b).
Proof.
  intros Hlen. apply mapM_Some.
  apply Forall2_same_length_lookup. split.
  - by rewrite length_seq.
  - intros i j ch Hj Hch. apply lookup_seq in Hj as [-> _]. exact Hch.
Qed.

(* ================================================================== *)
(** * The encoder writes the container *)
(* ================================================================== *)

Ltac fill_side := first [ reflexivity | cbn; lia ].

(** On a rendered buffer the encoder returns the header followed by the
    interleaved samples. *)
Lemma bufferToWav_encodes (b : AudioBuffer) :
  RenderedAudio b →
  bufferToWav b
  = Some (wav_header (AudioBuffer.numberOfChannels b) (AudioBuffer.sampleRate b)
            (AudioBuffer.length b * AudioBuffer.numberOfChannels b * 2)
          ++ wav_data (AudioBuffer.channelData b) (AudioBuffer.length b)).
Proof.
  intros [Hch _ _ _ Hsize]. unfold bufferToWav.
  set (C := AudioBuffer.numberOfChannels b) in *.
  set (N := AudioBuffer.length b) in *.
  set (R := AudioBuffer.sampleRate b).
  set (len := (N * C * 2)%nat) in *.
  unfold new_ArrayBuffer.
  destruct (Z.leb_spec (Z.of_nat (44 + len)) maxByteLength) as [_ | ?]; [| lia].
  cbn [mbind option_bind].
  change (replicate (44 + len) 0) with ([] ++ replicate (44 + len) 0).
  rewrite writeString_fill by fill_side. cbn [mbind option_bind].
  rewrite setUint32_fill by fill_side. cbn [mbind option_bind].
  rewrite writeString_fill by fill_side. cbn [mbind option_bind].
  rewrite writeString_fill by fill_side. cbn [mbind option_bind].
  rewrite setUint32_fill by fill_side. cbn [mbind option_bind].
  rewrite setUint16_fill by fill_side. cbn [mbind option_bind].
  rewrite setUint16_fill by fill_side. cbn [mbind option_bind].
  rewrite setUint32_fill by fill_side. cbn [mbind option_bind].
  rewrite setUint32_fill by fill_side. cbn [mbind option_bind].
  rewrite setUint16_fill by fill_side. cbn [mbind option_bind].
  rewrite setUint16_fill by fill_side. cbn [mbind option_bind].
  rewrite writeString_fill by fill_side. cbn [mbind option_bind].
  rewrite setUint32_fill by fill_side. cbn [mbind option_bind].
  rewrite mapM_getChannelData by done. cbn [mbind option_bind].
  unfold for_upto. fold C. rewrite <- Hch.
  rewrite write_frames by (first [reflexivity | rewrite Hch; cbn; lia]).
  cbn [mbind option_bind]. f_equal.
  replace (44 + len - _ - _ - _ - _ - _ - _ - _ - _ - _ - _ - _ - _ - _ - _)%nat
    with 0%nat by (rewrite Hch; cbn; lia).
  cbn [replicate]. rewrite app_nil_r.
  unfold wav_header, wav_fields, wav_data. cbn [concat].
  rewrite <- !app_assoc. reflexivity.
Qed.

Lemma length_charCodes (s : string) : length (charCodes s) = String.length s.
Proof.
  unfold charCodes. rewrite length_fmap.
  induction s; simpl; [done | by f_equal].
Qed.

Lemma length_frame_bytes (channels : list (list number)) (i : nat) :
  length (frame_bytes channels i) = (2 * length channels)%nat.
Proof.
  unfold frame_bytes. induction channels as [| ch chs IH]; [done |].
  rewrite fmap_cons, concat_cons, length_app, IH.
  unfold int16_le. rewrite length_le_bytes. simpl. lia.
Qed.

Lemma length_wav_data (channels : list (list number)) (N : nat) :
  length (wav_data channels N) = (N * length channels * 2)%nat.
Proof.
  unfold wav_data.
  assert (H : ∀ a, length (concat (frame_bytes channels <$> seq a N))
                   = (N * length channels * 2)%nat); [| apply H].
  induction N as [| N IH]; intros a; [done |].
  cbn [seq]. rewrite fmap_cons, concat_cons, length_app, IH, length_frame_bytes.
  lia.
Qed.

Lemma length_wav_header (C : nat) (R : Z) (len : nat) :
  length (wav_header C R len) = 44%nat.
Proof. reflexivity. Qed.

(** Reading a field back out of a concatenation of fields. *)
Lemma loadBytes_field (fields : list (list Z)) (rest : list Z) (k : nat)
    (field : list Z) :
  fields !! k = Some field →
  loadBytes (concat fields ++ rest) (length (concat (take k fields))) (length field)
  = Some field.
Proof.
  intros Hk. unfold loadBytes.
  assert (Hc : concat fields
               = concat (take k fields) ++ field ++ concat (drop (S k) fields)).
  { rewrite <- concat_cons, <- (drop_S _ _ _ Hk), <- concat_app.
    by rewrite take_drop. }
  rewrite Hc, <- !app_assoc.
  rewrite decide_True by (rewrite !length_app; lia).
  by rewrite drop_app_length, take_app_length.
Qed.

(** A chunk of a concatenation of equally long chunks. *)
Lemma drop_concat_uniform {A : Type} (k : nat) :
  ∀ (chunks : list (list A)) (i : nat) (c : list A) (r : nat),
    Forall (λ c, length c = k) chunks → chunks !! i = Some c →
    drop (i * k + r) (concat chunks) = drop r (c ++ concat (drop (S i) chunks)).
Proof.
  induction chunks as [| c0 chunks IH]; intros i c r Hall Hi; [done |].
  apply Forall_cons in Hall as [Hc0 Hall].
  destruct i as [| i]; simpl in Hi.
  - injection Hi as ->. reflexivity.
  - rewrite concat_cons, drop_app_ge by lia.
    replace (S i * k + r - length c0)%nat with (i * k + r)%nat by lia.
    by apply IH.
Qed.

Lemma ToInt16_range (x : number) : - 2 ^ 15 <= ToInt16 x < 2 ^ 15.
Proof.
  unfold ToInt16.
  pose proof (Z.mod_pos_bound (integer_part x) (2 ^ 16) ltac:(lia)).
  destruct (Z.leb_spec (2 ^ 15) (integer_part x mod 2 ^ 16)); lia.
Qed.

(** Decoding an [i16] gives the value back. *)
Lemma le_value_int16_le (v : Z) :
  - 2 ^ 15 <= v < 2 ^ 15 →
  (let u := le_value (int16_le v) in if 2 ^ 15 <=? u then u - 2 ^ 16 else u) = v.
Proof.
  intros Hv. unfold int16_le. rewrite le_value_le_bytes.
  change (256 ^ Z.of_nat 2) with (2 ^ 16). rewrite Z.mod_mod by lia.
  cbv zeta.
  destruct (Z.le_gt_cases 0 v).
  - rewrite Z.mod_small by lia. destruct (Z.leb_spec (2 ^ 15) v); lia.
  - replace (v mod 2 ^ 16) with (v + 2 ^ 16)
      by (apply Z.mod_unique with (q := -1); lia).
    destruct (Z.leb_spec (2 ^ 15) (v + 2 ^ 16)); lia.
Qed.

Lemma le_value_uint32_le (v : Z) : le_value (uint32_le v) = v mod 2 ^ 32.
Proof.
  unfold uint32_le. rewrite le_value_le_bytes.
  change (256 ^ Z.of_nat 4) with (2 ^ 32). apply Z.mod_mod. lia.
Qed.

Lemma le_value_uint16_le (v : Z) : le_value (uint16_le v) = v mod 2 ^ 16.
Proof.
  unfold uint16_le. rewrite le_value_le_bytes.
  change (256 ^ Z.of_nat 2) with (2 ^ 16). apply Z.mod_mod. lia.
Qed.

(** Where sample [i] of channel [j] sits in the output. *)
Lemma wav_sample_bytes (channels : list (list number)) (N i j : nat)
    (ch : list number) (pre : list Z) :
  (i < N)%nat → channels !! j = Some ch →
  loadBytes (pre ++ wav_data channels N)
    (length pre + 2 * (i * length channels + j)) 2
  = Some (int16_le (sample16 (default NaN (ch !! i)))).
Proof.
  intros Hi Hj. pose proof (lookup_lt_Some _ _ _ Hj) as Hjlt.
  set (C := length channels) in *.
  assert (Hframes : Forall (λ c, length c = (2 * C)%nat)
                      (frame_bytes channels <$> seq 0 N)).
  { apply Forall_fmap, Forall_forall. intros k _. apply length_frame_bytes. }
  assert (Hsamples : Forall (λ c, length c = 2%nat)
            ((λ ch, int16_le (sample16 (default NaN (ch !! i)))) <$> channels)).
  { apply Forall_fmap, Forall_forall. intros k _. apply length_le_bytes. }
  unfold loadBytes.
  rewrite decide_True.
  2:{ rewrite length_app, length_wav_data. fold C. nia. }
  f_equal. rewrite drop_app_ge by lia.
  replace (length pre + 2 * (i * C + j) - length pre)%nat
    with (i * (2 * C) + j * 2)%nat by lia.
  unfold wav_data.
  rewrite (drop_concat_uniform (2 * C) _ i (frame_bytes channels i) (j * 2) Hframes).
  2:{ rewrite list_lookup_fmap, lookup_seq_lt by done. done. }
  rewrite drop_app_le by (rewrite length_frame_bytes; fold C; lia).
  unfold frame_bytes at 1.
  replace (j * 2)%nat with (j * 2 + 0)%nat by lia.
  rewrite (drop_concat_uniform 2 _ j
             (int16_le (sample16 (default NaN (ch !! i)))) 0 Hsamples).
  2:{ by rewrite list_lookup_fmap, Hj. }
  rewrite drop_0, <- app_assoc.
  by rewrite (take_app_length' _ _ 2) by (symmetry; apply length_le_bytes).
Qed.

(* ================================================================== *)
(** * Properties of the container *)
(* ================================================================== *)

(** C1.  For a rendered buffer with [C] channels, rate [R] and [N]
    samples per channel, the encoder returns [44 + N*C*2] bytes whose
    first 44 are, in order and little-endian: "RIFF", the u32
    [36 + dataLength], "WAVE", "fmt ", the u32 [16], the u16 [1], the
    u16 [C], the u32 [R], the u32 [R*C*2], the u16 [C*2], the u16 [16],
    "data" and the u32 [dataLength], with [dataLength = N*C*2]. *)
Theorem bufferToWav_header_layout (b : AudioBuffer) :
  RenderedAudio b →
  let C := AudioBuffer.numberOfChannels b in
  let N := AudioBuffer.length b in
  let R := AudioBuffer.sampleRate b in
  let dataLength := (N * C * 2)%nat in
  ∃ out,
    bufferToWav b = Some out ∧
    length out = (44 + N * C * 2)%nat ∧
    loadBytes out 0 4 = Some (charCodes "RIFF") ∧
    loadBytes out 4 4 = Some (uint32_le (36 + Z.of_nat dataLength)) ∧
    loadBytes out 8 4 = Some (charCodes "WAVE") ∧
    loadBytes out 12 4 = Some (charCodes "fmt ") ∧
    loadBytes out 16 4 = Some (uint32_le 16) ∧
    loadBytes out 20 2 = Some (uint16_le 1) ∧
    loadBytes out 22 2 = Some (uint16_le (Z.of_nat C)) ∧
    loadBytes out 24 4 = Some (uint32_le R) ∧
    loadBytes out 28 4 = Some (uint32_le (R * Z.of_nat C * 2)) ∧
    loadBytes out 32 2 = Some (uint16_le (Z.of_nat C * 2)) ∧
    loadBytes out 34 2 = Some (uint16_le 16) ∧
    loadBytes out 36 4 = Some (charCodes "data") ∧
    loadBytes out 40 4 = Some (uint32_le (Z.of_nat dataLength)).
Proof.
  intros Hb C N R dataLength.
  exists (wav_header C R dataLength ++ wav_data (AudioBuffer.channelData b) N).
  split; [by apply bufferToWav_encodes |].
  split.
  { rewrite length_app, length_wav_header, length_wav_data.
    by rewrite (ra_channels b Hb). }
  unfold wav_header.
  set (data := wav_data _ _).
  pose proof (loadBytes_field (wav_fields C R dataLength) data) as Hfield.
  repeat apply conj.
  - exact (Hfield 0%nat _ eq_refl).
  - exact (Hfield 1%nat _ eq_refl).
  - exact (Hfield 2%nat _ eq_refl).
  - exact (Hfield 3%nat _ eq_refl).
  - exact (Hfield 4%nat _ eq_refl).
  - exact (Hfield 5%nat _ eq_refl).
  - exact (Hfield 6%nat _ eq_refl).
  - exact (Hfield 7%nat _ eq_refl).
  - exact (Hfield 8%nat _ eq_refl).
  - exact (Hfield 9%nat _ eq_refl).
  - exact (Hfield 10%nat _ eq_refl).
  - exact (Hfield 11%nat _ eq_refl).
  - exact (Hfield 12%nat _ eq_refl).
Qed.

Lemma stereo_demo_rendered : RenderedAudio stereo_demo.
Proof.
  split; simpl.
  - reflexivity.
  - repeat constructor.
  - lia.
  - lia.
  - unfold maxByteLength. lia.
Defined.

Lemma bufferToWav_header_layout_witness :
  RenderedAudio stereo_demo ∧
  ∃ out, bufferToWav stereo_demo = Some out ∧ length out = 52%nat ∧
         loadBytes out 40 4 = Some [8; 0; 0; 0].
Proof.
  split; [exact stereo_demo_rendered |].
  destruct (bufferToWav_header_layout stereo_demo stereo_demo_rendered)
    as (out & Hout & Hlen & H).
  exists out. split; [exact Hout |]. split; [exact Hlen |].
  do 12 (destruct H as [_ H]). exact H.
Defined.

(** X1.  When the values fit their fields, reading the header back
    gives them exactly: the sizes, the channel count, the rate, the byte
    rate and the block alignment. *)
Lemma bufferToWav_header_values (b : AudioBuffer) :
  RenderedAudio b →
  let C := Z.of_nat (AudioBuffer.numberOfChannels b) in
  let N := Z.of_nat (AudioBuffer.length b) in
  let R := AudioBuffer.sampleRate b in
  36 + N * C * 2 < 2 ^ 32 → R < 2 ^ 32 → R * C * 2 < 2 ^ 32 → C * 2 < 2 ^ 16 →
  ∃ out,
    bufferToWav b = Some out ∧
    getUint32 out 4 = Some (36 + N * C * 2) ∧
    getUint16 out 22 = Some C ∧
    getUint32 out 24 = Some R ∧
    getUint32 out 28 = Some (R * C * 2) ∧
    getUint16 out 32 = Some (C * 2) ∧
    getUint32 out 40 = Some (N * C * 2).
Proof.
  intros Hb C N R H1 H2 H3 H4.
  pose proof (ra_rate b Hb) as HR. fold R in HR.
  assert (0 <= C) by (subst C; lia). assert (0 <= N) by (subst N; lia).
  eexists. split; [by apply bufferToWav_encodes |].
  unfold wav_header.
  set (fields := wav_fields _ _ _). set (data := wav_data _ _).
  pose proof (loadBytes_field fields data) as Hfield.
  pose proof (Hfield 1%nat _ eq_refl
              : loadBytes (concat fields ++ data) 4 4 = Some _) as F4.
  pose proof (Hfield 6%nat _ eq_refl
              : loadBytes (concat fields ++ data) 22 2 = Some _) as F22.
  pose proof (Hfield 7%nat _ eq_refl
              : loadBytes (concat fields ++ data) 24 4 = Some _) as F24.
  pose proof (Hfield 8%nat _ eq_refl
              : loadBytes (concat fields ++ data) 28 4 = Some _) as F28.
  pose proof (Hfield 9%nat _ eq_refl
              : loadBytes (concat fields ++ data) 32 2 = Some _) as F32.
  pose proof (Hfield 12%nat _ eq_refl
              : loadBytes (concat fields ++ data) 40 4 = Some _) as F40.
  unfold getUint32, getUint16.
  rewrite F4, F22, F24, F28, F32, F40.
  cbn [fmap option_fmap option_map].
  rewrite !le_value_uint32_le, !le_value_uint16_le.
  rewrite !Nat2Z.inj_mul. change (Z.of_nat 2) with 2. fold C N R.
  repeat apply conj; f_equal; apply Z.mod_small; nia.
Qed.

(** C2 (as the code has it).  Sample [i] of channel [j] is clamped to
    [[-1, 1]], scaled by 32768 when negative and by 32767 otherwise, cut
    to its integer part (toward zero, not to the nearest integer), and
    stored as a little-endian signed 16-bit value at byte
    [44 + 2*(i*C + j)]: frames in order, channels in order inside each
    frame. *)
Theorem bufferToWav_samples (b : AudioBuffer) (i j : nat) :
  RenderedAudio b →
  (i < AudioBuffer.length b)%nat →
  (j < AudioBuffer.numberOfChannels b)%nat →
  ∃ out ch x,
    bufferToWav b = Some out ∧
    AudioBuffer.channelData b !! j = Some ch ∧ ch !! i = Some x ∧
    let sample := clamp x in
    let value :=
      integer_part
        (if number_lt sample (of_Z 0)
         then number_mul sample (of_Z 32768)
         else number_mul sample (of_Z 32767)) in
    let offset := (44 + 2 * (i * AudioBuffer.numberOfChannels b + j))%nat in
    - 2 ^ 15 <= value < 2 ^ 15 ∧
    loadBytes out offset 2 = Some (int16_le value) ∧
    getInt16 out offset = Some value.
Proof.
  intros Hb Hi Hj.
  pose proof (ra_channels b Hb) as Hch.
  destruct (lookup_lt_is_Some_2 (AudioBuffer.channelData b) j) as [ch Hchj]; [lia |].
  assert (Hlen : length ch = AudioBuffer.length b).
  { pose proof (ra_samples b Hb) as Hall.
    rewrite Forall_lookup in Hall. by apply (Hall j). }
  destruct (lookup_lt_is_Some_2 ch i) as [x Hx]; [lia |].
  eexists _, ch, x. split; [by apply bufferToWav_encodes |].
  split; [done |]. split; [done |].
  intros sample value offset.
  assert (Hvalue : value = sample16 x) by (symmetry; apply sample16_integer_part).
  assert (Hload : loadBytes
            (wav_header (AudioBuffer.numberOfChannels b) (AudioBuffer.sampleRate b)
               (AudioBuffer.length b * AudioBuffer.numberOfChannels b * 2)
             ++ wav_data (AudioBuffer.channelData b) (AudioBuffer.length b))
            offset 2 = Some (int16_le value)).
  { subst offset. rewrite <- Hch.
    rewrite (wav_sample_bytes _ _ i j ch (wav_header _ _ _) Hi Hchj).
    by rewrite Hx, Hvalue. }
  split; [rewrite Hvalue; apply ToInt16_range |].
  split; [exact Hload |].
  unfold getInt16, getUint16. rewrite Hload.
  cbn [fmap option_fmap option_map]. f_equal.
  apply le_value_int16_le. rewrite Hvalue. apply ToInt16_range.
Qed.

Lemma bufferToWav_samples_witness :
  RenderedAudio stereo_demo ∧
  ∃ out, bufferToWav stereo_demo = Some out ∧ getInt16 out 46 = Some (-16384).
Proof.
  split; [exact stereo_demo_rendered |].
  destruct (bufferToWav_samples stereo_demo 0 1 stereo_demo_rendered)
    as (out & ch & x & Hout & Hch & Hx & _ & _ & Hget); [simpl; lia | simpl; lia |].
  exists out. split; [exact Hout |].
  injection Hch as <-. injection Hx as <-. exact Hget.
Defined.

(** The claim with [round] fails on a quarter-scale sample:
    [0.25 × 32767 = 8191.75] is stored as [8191], while the nearest
    integer is [8192]. *)
Lemma bufferToWav_does_not_round :
  ∃ out, bufferToWav (mono [ratio 1 4]) = Some out ∧
         getInt16 out 44 = Some 8191 ∧
         spec_quantize (ratio 1 4) = 8192.
Proof.
  exists (wav_header 1 16000 2 ++ [255; 31]).
  repeat apply conj; vm_compute; reflexivity.
Qed.

(** C4.  Every sample is clamped before it is quantized and the
    quantized value never leaves the 16-bit range; 1.5 is stored like
    1.0, as 32767, -2.0 like -1.0, as -32768, and 0.0 as 0. *)
Theorem samples_clamped_before_quantization :
  (∀ x, sample16 x = sample16 (clamp x)) ∧
  (∀ x, x = NaN ∨
        ∃ r, clamp x = Finite r ∧ (inject_Z (-1) <= r)%Q ∧ (r <= inject_Z 1)%Q) ∧
  (∀ x, - 2 ^ 15 <= integer_part (scale_sample x) < 2 ^ 15 ∧
        sample16 x = integer_part (scale_sample x)) ∧
  sample16 (ratio 3 2) = 32767 ∧ sample16 (ratio 1 1) = 32767 ∧
  sample16 (ratio (-2) 1) = -32768 ∧ sample16 (ratio (-1) 1) = -32768 ∧
  sample16 (ratio 0 1) = 0 ∧
  bufferToWav (mono [ratio 3 2; ratio 1 1; ratio (-2) 1; ratio (-1) 1; ratio 0 1])
  = Some (wav_header 1 16000 10 ++ [255; 127; 255; 127; 0; 128; 0; 128; 0; 0]).
Proof.
  split; [intros x; symmetry; apply sample16_clamp |].
  split.
  { intros x. destruct (clamp_range x) as [[-> _] | Hr]; [by left | by right]. }
  split.
  { intros x. split; [apply scale_sample_int16 | apply sample16_integer_part]. }
  repeat apply conj; vm_compute; reflexivity.
Qed.

(** Every byte of the container is a byte. *)
Lemma bufferToWav_bytes (b : AudioBuffer) (out : DataView) :
  RenderedAudio b → bufferToWav b = Some out → Forall (λ byte, 0 <= byte < 256) out.
Proof.
  intros Hb Hout. pose proof (bufferToWav_encodes b Hb) as Hencodes.
  assert (out = wav_header (AudioBuffer.numberOfChannels b) (AudioBuffer.sampleRate b)
                  (AudioBuffer.length b * AudioBuffer.numberOfChannels b * 2)
                ++ wav_data (AudioBuffer.channelData b) (AudioBuffer.length b))
    as -> by congruence.
  clear Hout Hencodes. apply Forall_app. split.
  - assert (Hcodes : ∀ s, Forall (λ byte, 0 <= byte < 256) (charCodes s)).
    { intros s. unfold charCodes. apply Forall_fmap, Forall_forall.
      intros c _. simpl. pose proof (nat_ascii_bounded c). lia. }
    unfold wav_header, wav_fields, uint32_le, uint16_le.
    apply Forall_concat.
    repeat (apply Forall_cons_2; [first [apply Hcodes | apply le_bytes_range] |]).
    apply Forall_nil_2.
  - unfold wav_data. apply Forall_concat, Forall_fmap, Forall_forall.
    intros i _. unfold frame_bytes. simpl.
    apply Forall_concat, Forall_fmap, Forall_forall.
    intros ch _. apply le_bytes_range.
Qed.

(** On the test samples binary64 arithmetic stores the same value as the
    exact arithmetic of the model. *)
Lemma binary64_agrees_on_test_samples :
  Forall (λ x, ToInt16 (number_of_float (scale_sample_binary64 x))
               = sample16 (number_of_float x))
    test_samples.
Proof. repeat constructor; vm_compute; reflexivity. Qed.

(* ================================================================== *)
(** * Resampling *)
(* ================================================================== *)

Lemma ToUint32_small (x : number) :
  0 <= integer_part x < 2 ^ 32 → ToUint32 x = integer_part x.
Proof. intros H. unfold ToUint32. by apply Z.mod_small. Qed.

Lemma startRendering_shape (platform : Platform) (ctx : OfflineAudioContext)
    (source rendered : AudioBuffer) :
  startRendering platform ctx source = Ok rendered →
  AudioBuffer.numberOfChannels rendered = oac_numberOfChannels ctx ∧
  AudioBuffer.length rendered = oac_length ctx ∧
  AudioBuffer.sampleRate rendered = oac_sampleRate ctx ∧
  length (AudioBuffer.channelData rendered) = oac_numberOfChannels ctx ∧
  Forall (λ ch, length ch = oac_length ctx) (AudioBuffer.channelData rendered).
Proof.
  unfold startRendering. destruct (renderingFails platform ctx source); [done |].
  intros [= <-]. simpl. repeat apply conj; try done.
  - by rewrite length_fmap, length_seq.
  - apply Forall_fmap, Forall_forall. intros j _. simpl.
    by rewrite length_fmap, length_seq.
Qed.

(** A rendering of a size that can be encoded is a rendered buffer in
    the sense of the encoder. *)
Lemma startRendering_RenderedAudio (platform : Platform) (ctx : OfflineAudioContext)
    (source rendered : AudioBuffer) :
  startRendering platform ctx source = Ok rendered →
  0 < oac_sampleRate ctx →
  oac_sampleRate ctx * Z.of_nat (oac_numberOfChannels ctx) * 2 < 2 ^ 53 →
  Z.of_nat (44 + oac_length ctx * oac_numberOfChannels ctx * 2) <= maxByteLength →
  RenderedAudio rendered.
Proof.
  intros Hstart Hrate Hbyte Hsize.
  destruct (startRendering_shape _ _ _ _ Hstart) as (HC & HN & HR & Hch & Hall).
  split; rewrite ?HC, ?HN, ?HR; done.
Qed.

(** C3 (as the code has it).  The decoded audio is rendered into an
    offline buffer with the source's channel count, at the target rate,
    which the recording handler fixes at 16000 Hz; its length is the
    integer part of the binary64 product [duration * targetSampleRate]
    (the product is handed to an [unsigned long] parameter), not the
    product rounded up. *)
Theorem resample_renders_integer_part (platform : Platform)
    (audioBlob : Blob) (arrayBuffer : list Z) (audioBuffer : AudioBuffer) :
  readAsArrayBuffer platform audioBlob = Ok arrayBuffer →
  decodeAudioData platform 16000 arrayBuffer = Ok audioBuffer →
  let product :=
    number_of_float
      (PrimFloat.mul (AudioBuffer.duration audioBuffer) (float_of_Z 16000)) in
  let frames := integer_part product in
  (1 ≤ AudioBuffer.numberOfChannels audioBuffer)%nat →
  1 <= frames < 2 ^ 32 →
  renderingFails platform
    {| oac_numberOfChannels := AudioBuffer.numberOfChannels audioBuffer;
       oac_length := Z.to_nat frames;
       oac_sampleRate := 16000 |} audioBuffer = None →
  ∃ rendered,
    renderAudio platform audioBlob 16000 = Ok rendered ∧
    AudioBuffer.length rendered = Z.to_nat frames ∧
    AudioBuffer.numberOfChannels rendered = AudioBuffer.numberOfChannels audioBuffer ∧
    AudioBuffer.sampleRate rendered = 16000 ∧
    (∃ p, product = Finite p ∧
          (inject_Z frames <= p)%Q ∧ (p < inject_Z (frames + 1))%Q) ∧
    ∀ network API_BASE_URL w,
      process platform network API_BASE_URL audioBlob w
      = match bufferToWav rendered with
        | Some wav => transcribeAudio network API_BASE_URL wav w
        | None => (Throw (Exn "RangeError" "Invalid array buffer length"), w)
        end.
Proof.
  intros Hread Hdecode product frames Hchannels Hframes Hrender.
  assert (∃ rendered,
    renderAudio platform audioBlob 16000 = Ok rendered ∧
    AudioBuffer.length rendered = Z.to_nat frames ∧
    AudioBuffer.numberOfChannels rendered = AudioBuffer.numberOfChannels audioBuffer ∧
    AudioBuffer.sampleRate rendered = 16000 ∧
    (∃ p, product = Finite p ∧
          (inject_Z frames <= p)%Q ∧ (p < inject_Z (frames + 1))%Q))
    as (rendered & Hr & Hrest);
    [| exists rendered; split; [exact Hr |];
       destruct Hrest as (H1 & H2 & H3 & H4); repeat apply conj; try done;
       intros network url w; unfold process, resampleAudio; rewrite Hr;
       cbn [mbind result_bind]; by destruct (bufferToWav rendered)].
  unfold renderAudio. rewrite Hread. cbn [mbind result_bind].
  rewrite Hdecode. cbn [mbind result_bind].
  unfold offlineContextFor, new_OfflineAudioContext.
  fold product. rewrite (ToUint32_small product) by (fold frames; lia).
  fold frames.
  destruct (Nat.eqb_spec (AudioBuffer.numberOfChannels audioBuffer) 0); [lia |].
  destruct (Z.eqb_spec frames 0); [lia |].
  cbn [orb Z.leb Z.compare mbind result_bind].
  destruct (startRendering platform _ audioBuffer) as [rendered | e] eqn:Hstart.
  2:{ unfold startRendering in Hstart. by rewrite Hrender in Hstart. }
  destruct (startRendering_shape _ _ _ _ Hstart) as (HC & HN & HR & _).
  exists rendered. repeat apply conj; try done.
  clearbody product.
  destruct product as [ | p | | ]; try (simpl in frames; lia).
  exists p. split; [reflexivity |].
  simpl in frames. apply truncate_nonneg.
  destruct (Qlt_le_dec p 0) as [Hneg | Hpos]; [| exact Hpos].
  exfalso.
  destruct (truncate_nonpos p (Qlt_le_weak _ _ Hneg)) as [_ Hlt].
  assert (Hlt0 : (inject_Z (truncate p - 1) < inject_Z 0)%Q)
    by (eapply Qlt_trans; [exact Hlt | exact Hneg]).
  rewrite <- Zlt_Qlt in Hlt0. subst frames. lia.
Qed.

Lemma resample_renders_integer_part_witness :
  ∃ rendered,
    renderAudio (decoding_to second_and_a_frame) [] 16000 = Ok rendered ∧
    AudioBuffer.length rendered = Z.to_nat 16000.
Proof.
  destruct (resample_renders_integer_part (decoding_to second_and_a_frame)
              [] [] second_and_a_frame eq_refl eq_refl)
    as (rendered & Hr & Hlen & _).
  - exact (le_n 1).
  - vm_compute. split; [discriminate | reflexivity].
  - reflexivity.
  - exists rendered. split; [exact Hr | exact Hlen].
Defined.

(** The claim with [ceil] fails.  One second and one frame of 48 kHz
    audio: [duration * 16000] is 16000.33…, the rendered buffer has
    16000 frames and the product rounded up is 16001.  And 1001 frames
    already at 16 kHz: the binary64 product is 1000.9999999999999, the
    rendered buffer has 1000 frames, and the product rounded up is
    1001, in binary64 as in exact arithmetic. *)
Lemma resample_does_not_round_up :
  (∃ rendered,
     renderAudio (decoding_to second_and_a_frame) [] 16000 = Ok rendered ∧
     AudioBuffer.length rendered = Z.to_nat 16000 ∧
     ceil_duration_times_rate second_and_a_frame 16000 = 16001) ∧
  (∃ rendered,
     renderAudio (decoding_to thousand_and_one_frames) [] 16000 = Ok rendered ∧
     AudioBuffer.length rendered = Z.to_nat 1000 ∧
     ceil_duration_times_rate thousand_and_one_frames 16000 = 1001 ∧
     ∃ p, number_of_float
            (PrimFloat.mul (AudioBuffer.duration thousand_and_one_frames)
               (float_of_Z 16000)) = Finite p ∧
          Qceiling p = 1001).
Proof.
  split.
  - exists (AudioBuffer.mk 1 (Z.to_nat 16000) 16000
              [replicate (Z.to_nat 16000) (of_Z 0)]).
    repeat apply conj; vm_compute; reflexivity.
  - exists (AudioBuffer.mk 1 (Z.to_nat 1000) 16000
              [replicate (Z.to_nat 1000) (of_Z 0)]).
    repeat apply conj; try (vm_compute; reflexivity).
    eexists. split; vm_compute; reflexivity.
Qed.

(* ================================================================== *)
(** * The transcription client *)
(* ================================================================== *)

Lemma Response_ok_2xx (r : Response) :
  Response_ok r = true ↔ 200 <= status r <= 299.
Proof. unfold Response_ok. rewrite andb_true_iff, !Z.leb_le. done. Qed.

(** C8.  [transcribeAudio] sends one request and no other: a POST to
    [API_BASE_URL/transcribe] whose form has the single field "audio"
    holding the blob under the file name "recording.wav".  A 2xx answer
    with a JSON object yields its "transcript" field; any other status
    makes the call fail, and so does a network failure. *)
Theorem transcribeAudio_contract (network : list Request → Request → FetchOutcome)
    (API_BASE_URL : string) (audioBlob : Blob) (w : World) :
  let request :=
    {| req_url := API_BASE_URL +:+ "/transcribe";
       req_method := "POST";
       req_mode := "cors";
       req_headers := [];
       req_body := [ {| fd_name := "audio"; fd_value := audioBlob;
                        fd_filename := Some "recording.wav"%string |} ] |} in
  let outcome := transcribeAudio network API_BASE_URL audioBlob w in
  sent outcome.2 = sent w ++ [request] ∧
  (∀ response fields,
     network (sent w) request = Responded response →
     200 <= status response <= 299 →
     body_json response = Some (JObject fields) →
     outcome.1 = Ok (assoc "transcript" fields)) ∧
  (∀ response,
     network (sent w) request = Responded response →
     ¬ (200 <= status response <= 299) →
     outcome.1 = Throw (Exn "Error" "Failed to transcribe audio")) ∧
  (network (sent w) request = NetworkFailure → is_ok outcome.1 = false).
Proof.
  intros request outcome. subst outcome.
  unfold transcribeAudio, fetch. fold request.
  destruct (network (sent w) request) as [| response] eqn:Hnet.
  - simpl. repeat apply conj; [done | intros; done | intros; done | done].
  - cbn [mbind result_bind].
    destruct (Response_ok response) eqn:Hok; cbn [negb].
    + apply Response_ok_2xx in Hok.
      destruct (Response_json response ≫= _) as [t | e] eqn:Hbody; simpl.
      * repeat apply conj; [done | | intros ? [= <-] ?; done | done].
        intros r fields [= <-] _ Hjson.
        unfold Response_json in Hbody. rewrite Hjson in Hbody.
        simpl in Hbody. congruence.
      * repeat apply conj; [done | | intros ? [= <-] ?; done | done].
        intros r fields [= <-] _ Hjson.
        unfold Response_json in Hbody. rewrite Hjson in Hbody.
        simpl in Hbody. congruence.
    + assert (¬ (200 <= status response <= 299)) as Hnot.
      { intros H. apply Response_ok_2xx in H. congruence. }
      simpl. repeat apply conj; [done | | done | done].
      intros r fields [= <-] ? _. done.
Qed.

Lemma transcribeAudio_contract_witness :
  let answer :=
    {| status := 200;
       body_json := Some (JObject [("transcript"%string, JString "namaste")]) |} in
  (transcribeAudio (answering answer) "https://host" [82; 73]
     {| sent := []; console := [] |}).1 = Ok (JString "namaste").
Proof.
  intros answer.
  destruct (transcribeAudio_contract (answering answer) "https://host" [82; 73]
              {| sent := []; console := [] |}) as (_ & Hok & _).
  apply (Hok answer [("transcript"%string, JString "namaste")]).
  - reflexivity.
  - simpl. lia.
  - reflexivity.
Defined.

(* ================================================================== *)
(** * Recorder objects *)
(* ================================================================== *)

Lemma recorder_state_set (c : Component) (rid rid' : nat) (s : RecordingState) :
  recorder_state (set_recorder_state rid s c) rid'
  = if decide (rid = rid')
    then match recorders c !! rid with Some _ => s | None => inactive end
    else recorder_state c rid'.
Proof.
  unfold recorder_state, set_recorder_state. simpl.
  destruct (decide (rid = rid')) as [<- | Hne].
  - rewrite list_lookup_alter_eq. by destruct (recorders c !! rid).
  - by rewrite list_lookup_alter_ne.
Qed.

Lemma recorder_state_Some (c : Component) (rid : nat) :
  recorder_state c rid ≠ inactive →
  ∃ r, recorders c !! rid = Some r ∧ state r ≠ inactive.
Proof.
  unfold recorder_state. destruct (recorders c !! rid) as [r |]; simpl; [| done].
  intros H. by exists r.
Qed.

Lemma MediaRecorder_stop_active (c : Component) (rid : nat) :
  recorder_state c rid ≠ inactive →
  MediaRecorder_stop rid c
  = Ok (set_stopping (stopping c ++ [rid]) (set_recorder_state rid inactive c)).
Proof. intros H. unfold MediaRecorder_stop. by rewrite decide_False. Qed.

Lemma MediaRecorder_stop_Ok (c c' : Component) (rid : nat) :
  MediaRecorder_stop rid c = Ok c' →
  recorder_state c rid ≠ inactive ∧
  c' = set_stopping (stopping c ++ [rid]) (set_recorder_state rid inactive c).
Proof.
  unfold MediaRecorder_stop.
  destruct (decide (recorder_state c rid = inactive)); [done |].
  by intros [= <-].
Qed.

Lemma stopRecording_Ok (c : Component) : ∃ c', stopRecording c = Ok c'.
Proof.
  unfold stopRecording.
  destruct (mediaRecorderRef c) as [rid |]; [| eexists; reflexivity].
  destruct (decide (recorder_state c rid ≠ inactive)) as [Ha | Hi];
    [| eexists; reflexivity].
  rewrite MediaRecorder_stop_active by done. eexists; reflexivity.
Qed.

(** C10.  [stopRecording] never raises.  Without a recorder, or with an
    inactive one, it leaves the component as it is; with an active one
    it calls the recorder's [stop], which inactivates the recorder and
    queues its [stop] event.  Stopping again right afterwards changes
    nothing. *)
Theorem stopRecording_safe (c : Component) :
  is_ok (stopRecording c) = true ∧
  (mediaRecorderRef c = None → stopRecording c = Ok c) ∧
  (∀ rid, mediaRecorderRef c = Some rid → recorder_state c rid = inactive →
          stopRecording c = Ok c) ∧
  (∀ rid, mediaRecorderRef c = Some rid → recorder_state c rid ≠ inactive →
          ∃ c', stopRecording c = Ok c' ∧ MediaRecorder_stop rid c = Ok c' ∧
                recorder_state c' rid = inactive ∧
                stopping c' = stopping c ++ [rid]) ∧
  (∀ c', stopRecording c = Ok c' → stopRecording c' = Ok c').
Proof.
  split; [by destruct (stopRecording_Ok c) as [c' ->] |].
  split; [by intros H; unfold stopRecording; rewrite H |].
  split.
  { intros rid Href Hstate. unfold stopRecording. rewrite Href.
    by rewrite decide_False by (intros H; done). }
  split.
  { intros rid Href Hstate. unfold stopRecording. rewrite Href.
    rewrite decide_True by done. rewrite MediaRecorder_stop_active by done.
    eexists. repeat apply conj; [done | done | | done].
    destruct (recorder_state_Some c rid Hstate) as (r & Hr & _).
    unfold recorder_state. simpl. rewrite list_lookup_alter_eq, Hr. done. }
  intros c'. unfold stopRecording.
  destruct (mediaRecorderRef c) as [rid |] eqn:Href; [| by intros [= <-]; rewrite Href].
  destruct (decide (recorder_state c rid ≠ inactive)) as [Ha | Hi].
  - rewrite MediaRecorder_stop_active by done. intros [= <-]. simpl.
    rewrite Href. rewrite decide_False; [done |].
    destruct (recorder_state_Some c rid Ha) as (r & Hr & _).
    unfold recorder_state. simpl. rewrite list_lookup_alter_eq, Hr. simpl. tauto.
  - intros [= <-]. rewrite Href. by rewrite decide_False.
Qed.

(* ================================================================== *)
(** * The [onstop] handler *)
(* ================================================================== *)

Section Cycle.
Context (platform : Platform).
Context (network : list Request → Request → FetchOutcome).
Context (API_BASE_URL : string).

Lemma streams_stop_all_tracks (sid : nat) (c : Component) :
  streams (stop_all_tracks sid c)
  = alter (λ s, {| tracks := (λ _, false) <$> tracks s |}) sid (streams c).
Proof. reflexivity. Qed.

Lemma streams_onstop_settle (sid : nat) (audioBlob : Blob) (c : Component) :
  streams (onstop_settle platform network API_BASE_URL sid audioBlob c)
  = alter (λ s, {| tracks := (λ _, false) <$> tracks s |}) sid (streams c).
Proof.
  unfold onstop_settle.
  destruct (process platform network API_BASE_URL audioBlob (world c)) as [[transcript | e] w]; reflexivity.
Qed.

Lemma released_stopped (s : MediaStream) :
  released {| tracks := (λ _, false) <$> tracks s |}.
Proof. unfold released. simpl. apply Forall_fmap, Forall_forall. done. Qed.

(** C6.  Whatever the pipeline does (resampling fails, the upload
    fails, or a transcript comes back), once the [onstop] handler of a
    recording has run, every track of the stream it recorded is
    stopped. *)
Theorem microphone_released (sid : nat) (s : MediaStream) (c : Component) :
  streams c !! sid = Some s →
  ∃ s',
    streams (onstop platform network API_BASE_URL sid c) !! sid = Some s' ∧
    released s' ∧ length (tracks s') = length (tracks s) ∧
    ∀ audioBlob,
      streams (onstop_settle platform network API_BASE_URL sid audioBlob c) !! sid = Some s'.
Proof.
  intros Hs. exists {| tracks := (λ _, false) <$> tracks s |}.
  repeat apply conj.
  - unfold onstop. rewrite streams_onstop_settle. simpl.
    by rewrite list_lookup_alter_eq, Hs.
  - apply released_stopped.
  - simpl. by rewrite length_fmap.
  - intros audioBlob. rewrite streams_onstop_settle.
    by rewrite list_lookup_alter_eq, Hs.
Qed.

End Cycle.



Lemma microphone_released_witness :
  ∃ s',
    streams (onstop undecodable unreachable_network "https://host" 0 recording_demo)
      !! 0%nat = Some s' ∧
    released s'.
Proof.
  destruct (microphone_released undecodable unreachable_network "https://host"
              0 {| tracks := [true] |} recording_demo eq_refl)
    as (s' & Hs' & Hreleased & _).
  exists s'. split; [exact Hs' | exact Hreleased].
Defined.

(* ================================================================== *)
(** * Reachable states *)
(* ================================================================== *)

Section Reachable.
Context (platform : Platform).
Context (network : list Request → Request → FetchOutcome).
Context (API_BASE_URL : string).

(** A property of the initial component that every event preserves
    holds in every reachable state. *)
Lemma reachable_ind (P : Component → Prop) :
  P initial →
  (∀ e c c', P c → handle platform network API_BASE_URL e c = Some c' → P c') →
  ∀ c, reachable platform network API_BASE_URL c → P c.
Proof.
  intros Hinit Hstep c [es Hrun]. revert Hrun.
  generalize initial, Hinit. clear Hinit.
  induction es as [| e es IH]; intros c0 Hc0; simpl.
  - by intros [= <-].
  - destruct (handle platform network API_BASE_URL e c0) as [c1 |] eqn:He;
      simpl; [| done].
    apply IH. by eapply Hstep.
Qed.

(** What the handlers leave alone. *)
Lemma stopRecording_frame (c c' : Component) :
  stopRecording c = Ok c' →
  audioChunksRef c' = audioChunksRef c ∧ transcribing c' = transcribing c ∧
  voiceState c' = voiceState c ∧ isTranscribing c' = isTranscribing c ∧
  pendingStarts c' = pendingStarts c ∧ mediaRecorderRef c' = mediaRecorderRef c ∧
  inputText c' = inputText c ∧ streams c' = streams c.
Proof.
  unfold stopRecording, MediaRecorder_stop.
  repeat case_match; intros; simplify_eq; done.
Qed.

Lemma onstop_settle_frame (sid : nat) (audioBlob : Blob) (c : Component) :
  let c' := onstop_settle platform network API_BASE_URL sid audioBlob c in
  audioChunksRef c' = audioChunksRef c ∧ transcribing c' = transcribing c ∧
  isTranscribing c' = false ∧
  pendingStarts c' = pendingStarts c ∧ mediaRecorderRef c' = mediaRecorderRef c ∧
  recorders c' = recorders c ∧ stopping c' = stopping c ∧
  (isRecording (voiceState c') = true → isRecording (voiceState c) = true).
Proof.
  unfold onstop_settle.
  destruct (process platform network API_BASE_URL audioBlob (world c))
    as [[transcript | e] w]; simpl; repeat apply conj; done.
Qed.

(** On a granted stream whose recorder the platform creates and
    starts, the fresh recorder is recording: [MediaRecorder_start] cannot
    fail on it.  The [catch] of [startRecording] is reached when access
    is denied or the recorder is faulty. *)
Lemma startRecording_resume_Granted (s : MediaStream) (c : Component) :
  startRecording_resume (Granted s) c
  = {| voiceState := voiceState c;
       isTranscribing := isTranscribing c;
       inputText := inputText c;
       mediaRecorderRef := Some (length (recorders c));
       audioChunksRef := [];
       recorders :=
         recorders c ++ [{| stream := length (streams c); state := recording |}];
       streams := streams c ++ [s];
       pendingStarts := pred (pendingStarts c);
       stopping := stopping c;
       transcribing := transcribing c;
       world := world c |}.
Proof.
  unfold startRecording_resume, MediaRecorder_start, recorder_state. simpl.
  rewrite lookup_app_r, Nat.sub_diag by done. simpl.
  unfold set_recorder_state. simpl.
  rewrite <- (Nat.add_0_r (length (recorders c))) at 1.
  by rewrite alter_app_r.
Qed.

(** With a faulty recorder the stream is kept as it came, no recorder
    captures, and the [catch] has run. *)
Lemma startRecording_resume_faulty (s : MediaStream) (fault : RecorderFault)
    (c : Component) :
  let c' := startRecording_resume (GrantedFaulty s fault) c in
  voiceState c'
  = {| isRecording := false; error := Some "Error starting recording"%string |} ∧
  isTranscribing c' = isTranscribing c ∧
  inputText c' = inputText c ∧
  pendingStarts c' = pred (pendingStarts c) ∧
  stopping c' = stopping c ∧
  transcribing c' = transcribing c ∧
  streams c' = streams c ++ [s] ∧
  recorders c'
  = recorders c
    ++ match fault with
       | ConstructorThrows => []
       | StartThrows => [{| stream := length (streams c); state := inactive |}]
       end ∧
  active_count (recorders c') = active_count (recorders c) ∧
  (∀ rid, recorder_state c' rid ≠ inactive → recorder_state c rid ≠ inactive) ∧
  (audioChunksRef c' = audioChunksRef c ∨ audioChunksRef c' = []) ∧
  sent (world c') = sent (world c).
Proof.
  destruct fault; simpl.
  - rewrite app_nil_r. repeat apply conj; auto.
  - repeat apply conj; auto.
    + induction (recorders c) as [| r rs IH]; simpl; [done | by rewrite IH].
    + intros rid. unfold recorder_state. simpl.
      destruct (decide (rid < length (recorders c))%nat) as [Hlt | Hge].
      * by rewrite lookup_app_l.
      * rewrite lookup_app_r by lia.
        by destruct (rid - length (recorders c))%nat as [| [| n]].
Qed.

Lemma chunks_invariant_step (e : event) (c c' : Component) :
  Forall nonempty (audioChunksRef c) ∧ Forall captured (transcribing c) →
  handle platform network API_BASE_URL e c = Some c' →
  Forall nonempty (audioChunksRef c') ∧ Forall captured (transcribing c').
Proof.
  intros [Hchunks Hcaptured] Hstep.
  destruct e as [| text | r | rid data | rid | k | k]; simpl in Hstep.
  - destruct (isTranscribing c); [done |].
    unfold toggleRecording, toggleRecording_of in Hstep.
    destruct (isRecording (voiceState c)).
    + destruct (stopRecording c) as [c1 | err] eqn:Hstop; simplify_eq; [| done].
      destruct (stopRecording_frame _ _ Hstop) as (-> & -> & _). done.
    + by simplify_eq.
  - destruct (isTranscribing c); by simplify_eq.
  - destruct (0 <? pendingStarts c)%nat; [| done]. simplify_eq.
    destruct r as [s | s fault |]; [| | done].
    + rewrite startRecording_resume_Granted. simpl. split; [constructor | done].
    + destruct (startRecording_resume_faulty s fault c)
        as (_ & _ & _ & _ & _ & -> & _ & _ & _ & _ & [-> | ->] & _);
        (split; [done || constructor | done]).
  - case_match; [| done]. simplify_eq. unfold ondataavailable.
    destruct (Nat.ltb_spec 0 (Blob_size data)); [| done].
    simpl. split; [| done]. apply Forall_app. split; [done |].
    by repeat constructor.
  - destruct (MediaRecorder_stop rid c) as [c1 | err] eqn:Hstop; [| done].
    simplify_eq. apply MediaRecorder_stop_Ok in Hstop as [_ ->]. done.
  - destruct (stopping c !! k) as [rid |]; [| done]. simpl in Hstep.
    destruct (recorders c !! rid) as [r |]; [| done]. simpl in Hstep.
    simplify_eq. simpl. split; [done |].
    apply Forall_app. split; [done |]. repeat constructor.
    by exists (audioChunksRef c).
  - destruct (transcribing c !! k) as [[sid audioBlob] |] eqn:Hk; [| done].
    simpl in Hstep. simplify_eq.
    destruct (onstop_settle_frame sid audioBlob
                (set_transcribing (delete k (transcribing c)) c))
      as (-> & -> & _).
    simpl. split; [done |]. by apply Forall_delete.
Qed.

(** C9.  In every reachable state each chunk of the chunk sequence has
    a positive size, and so has each chunk of a blob captured for
    transcription; a [dataavailable] event with an empty payload
    changes nothing. *)
Theorem chunks_are_nonempty (c : Component) :
  reachable platform network API_BASE_URL c →
  Forall (λ chunk, (0 < Blob_size chunk)%nat) (audioChunksRef c) ∧
  Forall (λ entry, ∃ chunks, entry.2 = new_Blob chunks ∧
                             Forall (λ chunk, (0 < Blob_size chunk)%nat) chunks)
    (transcribing c) ∧
  ∀ data, Blob_size data = 0%nat → ondataavailable data c = c.
Proof.
  intros Hreach.
  assert (Hinv : Forall nonempty (audioChunksRef c)
                 ∧ Forall captured (transcribing c)).
  { revert c Hreach. apply reachable_ind.
    - split; constructor.
    - intros e c c'. apply chunks_invariant_step. }
  destruct Hinv as [H1 H2]. repeat apply conj; [exact H1 | exact H2 |].
  intros data Hdata. unfold ondataavailable. by rewrite Hdata.
Qed.

(** ** One session at a time *)

Lemma active_count_app (l1 l2 : list MediaRecorder) :
  active_count (l1 ++ l2) = (active_count l1 + active_count l2)%nat.
Proof. induction l1 as [| r l1 IH]; simpl; [done | rewrite IH; lia]. Qed.

Lemma active_count_lookup (l : list MediaRecorder) (rid : nat) (r : MediaRecorder) :
  l !! rid = Some r → state r ≠ inactive → (0 < active_count l)%nat.
Proof.
  revert rid. induction l as [| r0 l IH]; intros [| rid] Hr Hs;
    simpl in Hr; simplify_eq; simpl.
  - rewrite decide_False by done. lia.
  - specialize (IH rid Hr Hs). lia.
Qed.

Lemma active_count_inactivate (l : list MediaRecorder) (rid : nat) (r : MediaRecorder) :
  l !! rid = Some r → state r ≠ inactive →
  S (active_count (alter (λ r, {| stream := stream r; state := inactive |}) rid l))
  = active_count l.
Proof.
  revert rid. induction l as [| r0 l IH]; intros [| rid] Hr Hs;
    simpl in Hr; simplify_eq; simpl.
  - rewrite decide_False by done. done.
  - specialize (IH rid Hr Hs). unfold alter in IH.
    destruct (decide (state r0 = inactive)); lia.
Qed.

Lemma recorder_state_active (c : Component) (rid : nat) :
  recorder_state c rid ≠ inactive → (0 < active_count (recorders c))%nat.
Proof.
  intros H. destruct (recorder_state_Some c rid H) as (r & Hr & Hs).
  by eapply active_count_lookup.
Qed.

Lemma session_invariant_same (c c' : Component) :
  session_invariant c →
  pendingStarts c' = pendingStarts c → recorders c' = recorders c →
  stopping c' = stopping c → transcribing c' = transcribing c →
  voiceState c' = voiceState c → isTranscribing c' = isTranscribing c →
  mediaRecorderRef c' = mediaRecorderRef c →
  session_invariant c'.
Proof.
  intros [Hone Hrec Htr Href] H1 H2 H3 H4 H5 H6 H7.
  split; unfold capturing, recorder_state in *;
    rewrite ?H1, ?H2, ?H3, ?H4, ?H5, ?H6, ?H7; done.
Qed.

Lemma session_invariant_stop (c : Component) (rid : nat) :
  session_invariant c → recorder_state c rid ≠ inactive →
  session_invariant
    (set_stopping (stopping c ++ [rid]) (set_recorder_state rid inactive c)).
Proof.
  intros [Hone Hrec Htr Href] Hactive.
  destruct (recorder_state_Some c rid Hactive) as (r & Hr & Hs).
  pose proof (active_count_inactivate _ _ _ Hr Hs) as Hcount.
  unfold capturing in *.
  split; unfold capturing; simpl; rewrite ?length_app; simpl.
  - lia.
  - intros _. apply Hrec. lia.
  - exact Htr.
  - intros rid'.
    change (recorder_state (set_recorder_state rid inactive c) rid' ≠ inactive
            → mediaRecorderRef c = Some rid').
    rewrite recorder_state_set. destruct (decide (rid = rid')) as [<- | _].
    + rewrite Hr. done.
    + apply Href.
Qed.

Lemma session_invariant_step (e : event) (c c' : Component) :
  session_invariant c →
  handle platform network API_BASE_URL e c = Some c' →
  session_invariant c'.
Proof.
  intros Hinv Hstep. pose proof Hinv as [Hone Hrec Htr Href].
  unfold capturing in *.
  destruct e as [| text | r | rid data | rid | k | k]; simpl in Hstep.
  - (* the microphone button *)
    destruct (isTranscribing c) eqn:Htrans; [done |].
    unfold toggleRecording, toggleRecording_of in Hstep.
    destruct (isRecording (voiceState c)) eqn:Hisrec.
    + unfold stopRecording in Hstep.
      destruct (mediaRecorderRef c) as [rid |]; [| by simplify_eq].
      destruct (decide (recorder_state c rid ≠ inactive)) as [Ha | _];
        [| by simplify_eq].
      rewrite MediaRecorder_stop_active in Hstep by done. simplify_eq.
      by apply session_invariant_stop.
    + simplify_eq.
      assert (Hidle : ¬ (0 < pendingStarts c + active_count (recorders c)
                             + length (stopping c))%nat)
        by (intros H; specialize (Hrec H); done).
      assert (Hnone : ¬ (0 < length (transcribing c))%nat)
        by (intros H; specialize (Htr H); done).
      split; unfold capturing; simpl.
      * lia.
      * done.
      * lia.
      * intros rid Ha. apply (recorder_state_active c rid) in Ha. lia.
  - (* typing *)
    destruct (isTranscribing c); [done |]. simplify_eq.
    by eapply session_invariant_same.
  - (* getUserMedia settles *)
    destruct (Nat.ltb_spec 0 (pendingStarts c)) as [Hpending |]; [| done].
    simplify_eq.
    assert (active_count (recorders c) = 0)%nat as Hnoactive by lia.
    destruct r as [s | s fault |].
    + rewrite startRecording_resume_Granted.
      split; unfold capturing; simpl; rewrite ?active_count_app; simpl.
      * lia.
      * intros _. apply Hrec. lia.
      * exact Htr.
      * intros rid. unfold recorder_state. simpl.
        destruct (decide (rid < length (recorders c))%nat) as [Hlt | Hge].
        -- rewrite lookup_app_l by done.
           intros Ha. apply (recorder_state_active c rid) in Ha. lia.
        -- rewrite lookup_app_r by lia.
           destruct (rid - length (recorders c))%nat as [| n] eqn:Hn; simpl.
           ++ intros _. f_equal. lia.
           ++ done.
    + destruct (startRecording_resume_faulty s fault c)
        as (Hv & Hit & _ & Hp & Hst & Htrs & _ & _ & Hac & Hrs & _).
      split; unfold capturing; rewrite ?Hv, ?Hit, ?Hp, ?Hst, ?Htrs, ?Hac.
      * lia.
      * lia.
      * exact Htr.
      * intros rid Ha%Hrs. apply (recorder_state_active c rid) in Ha. lia.
    + split; unfold capturing; simpl.
      * lia.
      * lia.
      * exact Htr.
      * intros rid Ha. apply (recorder_state_active c rid) in Ha. lia.
  - (* dataavailable *)
    case_match; [| done]. simplify_eq. unfold ondataavailable.
    destruct (0 <? Blob_size data)%nat; [| done].
    by eapply session_invariant_same.
  - (* the recorder ends by itself *)
    destruct (MediaRecorder_stop rid c) as [c1 | err] eqn:Hstop; [| done].
    simplify_eq. apply MediaRecorder_stop_Ok in Hstop as [Ha ->].
    by apply session_invariant_stop.
  - (* the stop event *)
    destruct (stopping c !! k) as [rid |] eqn:Hk; [| done]. simpl in Hstep.
    destruct (recorders c !! rid) as [r |]; [| done]. simpl in Hstep.
    simplify_eq.
    pose proof (lookup_lt_Some _ _ _ Hk) as Hlt.
    pose proof (length_delete (stopping c) k (ltac:(by eexists))) as Hdel.
    split; unfold capturing; simpl; rewrite ?length_app; simpl.
    * lia.
    * lia.
    * done.
    * intros rid' Ha. apply (recorder_state_active c rid') in Ha. lia.
  - (* the pipeline settles *)
    destruct (transcribing c !! k) as [[sid audioBlob] |] eqn:Hk; [| done].
    simpl in Hstep. simplify_eq.
    pose proof (lookup_lt_Some _ _ _ Hk) as Hlt.
    pose proof (length_delete (transcribing c) k (ltac:(by eexists))) as Hdel.
    destruct (onstop_settle_frame sid audioBlob
                (set_transcribing (delete k (transcribing c)) c))
      as (_ & Ht & _ & Hp & Hr & Hrs & Hs & _).
    simpl in *.
    split; unfold capturing, recorder_state; rewrite ?Ht, ?Hp, ?Hr, ?Hrs, ?Hs.
    * lia.
    * lia.
    * lia.
    * exact Href.
Qed.

Lemma reachable_session_invariant (c : Component) :
  reachable platform network API_BASE_URL c → session_invariant c.
Proof.
  revert c. apply reachable_ind.
  - split; unfold capturing; simpl; (lia || done).
  - intros e c c'. apply session_invariant_step.
Qed.

(** ** Across unmounting and remounting *)

(** A property of the fresh instance that every event of an instance
    preserves, and that does not depend on the world, holds of every
    instance of every page that can be reached. *)
Lemma page_reachable_ind (P : Component → Prop) :
  P initial →
  (∀ e c c', P c → handle platform network API_BASE_URL e c = Some c' → P c') →
  (∀ w c, P c → P (set_world w c)) →
  ∀ p, page_reachable platform network API_BASE_URL p →
       P (mounted p) ∧ Forall P (detached p).
Proof.
  intros Hinit Hstep Hworld p [es Hrun]. revert Hrun.
  assert (P (mounted page_initial) ∧ Forall P (detached page_initial)) as H0
    by (split; [exact Hinit | constructor]).
  revert H0. generalize page_initial.
  induction es as [| e es IH]; intros p0 [Hm Hd]; simpl.
  - by intros [= <-].
  - destruct (page_handle platform network API_BASE_URL e p0) as [p1 |] eqn:He;
      simpl; [| done].
    apply IH. clear IH.
    assert (∀ w l, Forall P l → Forall P (set_world w <$> l)) as Hshare.
    { intros w l Hl. apply Forall_fmap. eapply Forall_impl; [exact Hl |].
      intros c. apply Hworld. }
    destruct e as [e | i e |]; simpl in He.
    + destruct (handle platform network API_BASE_URL e (mounted p0)) as [c' |] eqn:Hc;
        simpl in He; simplify_eq. simpl.
      split; [by eapply Hstep | by apply Hshare].
    + destruct (background e); [| done].
      destruct (detached p0 !! i) as [c |] eqn:Hi; simpl in He; [| done].
      destruct (handle platform network API_BASE_URL e c) as [c' |] eqn:Hc;
        simpl in He; simplify_eq. simpl.
      split; [by apply Hworld |]. apply Hshare, Forall_insert; [done |].
      eapply Hstep; [| exact Hc]. by eapply (Forall_lookup_1 P).
    + simplify_eq. simpl. split; [by apply Hworld |].
      apply Forall_app. split; [done | by apply Forall_singleton].
Qed.

Lemma page_session_invariant (p : Page) :
  page_reachable platform network API_BASE_URL p →
  session_invariant (mounted p) ∧ Forall session_invariant (detached p).
Proof.
  apply page_reachable_ind.
  - split; unfold capturing; simpl; (lia || done).
  - intros e c c'. apply session_invariant_step.
  - intros w c Hc. by eapply session_invariant_same.
Qed.

(** C5 (as the code has it).  In every state the page can reach,
    unmounting and remounting included and every press handled by the
    render committed after the previous event, no instance of the
    component has two capturing recorders of its own.  For the mounted
    instance the capturing recorder is the one [mediaRecorderRef]
    holds, and [isRecording] is set while it runs or while a start
    waits for the microphone.  The guard is in [toggleRecording], the only caller of
    [startRecording]: with [isRecording] set it calls [stopRecording],
    which creates no recorder and leaves the chunk sequence alone; it
    starts a recording only when [isRecording] is clear, and then
    nothing of this instance is capturing. *)
Theorem one_session_at_a_time (p : Page) :
  page_reachable platform network API_BASE_URL p →
  let c := mounted p in
  (active_count (recorders c) ≤ 1)%nat ∧
  (∀ rid, recorder_state c rid ≠ inactive →
          mediaRecorderRef c = Some rid ∧
          isRecording (voiceState c) = true ∧ pendingStarts c = 0%nat) ∧
  ((0 < pendingStarts c)%nat →
     isRecording (voiceState c) = true ∧
     active_count (recorders c) = 0%nat ∧ stopping c = []) ∧
  (isRecording (voiceState c) = true →
     ∃ c', toggleRecording c = Ok c' ∧ stopRecording c = Ok c' ∧
           audioChunksRef c' = audioChunksRef c ∧
           pendingStarts c' = pendingStarts c ∧
           length (recorders c') = length (recorders c)) ∧
  (isRecording (voiceState c) = false →
     toggleRecording c = Ok (startRecording_begin c) ∧
     active_count (recorders c) = 0%nat ∧ pendingStarts c = 0%nat) ∧
  Forall (λ d, (active_count (recorders d) ≤ 1)%nat) (detached p).
Proof.
  intros Hreach c.
  destruct (page_session_invariant p Hreach) as [[Hone Hrec Htr Href] Hdetached].
  fold c in Hone, Hrec, Htr, Href.
  unfold capturing in *.
  repeat apply conj.
  - lia.
  - intros rid Ha. pose proof (recorder_state_active c rid Ha).
    repeat apply conj; [by apply Href | apply Hrec; lia | lia].
  - intros Hp. repeat apply conj; [apply Hrec; lia | lia |].
    destruct (stopping c); [done | simpl in Hone; lia].
  - intros Hisrec. unfold toggleRecording, toggleRecording_of. rewrite Hisrec.
    destruct (stopRecording_Ok c) as [c' Hc']. exists c'.
    destruct (stopRecording_frame c c' Hc') as (Hchunks & _ & _ & _ & Hp & _).
    repeat apply conj; try done.
    unfold stopRecording, MediaRecorder_stop in Hc'.
    repeat case_match; simplify_eq; simpl; by rewrite ?length_alter.
  - intros Hisrec. unfold toggleRecording, toggleRecording_of. rewrite Hisrec.
    destruct (Nat.eq_dec (pendingStarts c + active_count (recorders c)
                          + length (stopping c))%nat 0%nat) as [Hz | Hnz].
    + repeat apply conj; [done | lia | lia].
    + rewrite Hrec in Hisrec by lia. done.
  - eapply Forall_impl; [exact Hdetached |].
    intros d [Hd _ _ _]. unfold capturing in Hd. lia.
Qed.
End Reachable.

(** The claim as stated fails.  [startRecording] itself carries no
    guard: called while a recording runs and has captured a chunk, it
    installs a second capturing recorder and empties the chunk
    sequence; a press handled by a closure that was rendered before the
    recording began makes that call; and pressing the control in the
    state as rendered ends the running session.  Nor does the state
    survive unmounting: press, grant, open the settings panel, come
    back, press, grant, and two recorders capture at once, one for the
    mounted instance and one for the instance that is gone. *)
Lemma startRecording_is_not_guarded :
  let restarted :=
    startRecording (Granted {| tracks := [true] |}) recording_with_chunk in
  isRecording (voiceState recording_with_chunk) = true ∧
  audioChunksRef recording_with_chunk = [[1; 2; 3]] ∧
  active_count (recorders recording_with_chunk) = 1%nat ∧
  audioChunksRef restarted = [] ∧
  active_count (recorders restarted) = 2%nat ∧
  toggleRecording_of {| isRecording := false; error := None |} recording_with_chunk
  = Ok (startRecording_begin recording_with_chunk) ∧
  (∃ c', toggleRecording recording_with_chunk = Ok c' ∧
         active_count (recorders c') = 0%nat) ∧
  page_run undecodable unreachable_network "https://host" remount_events page_initial
  = Some remount_demo ∧
  active_count (recorders (mounted remount_demo)) = 1%nat ∧
  active_count ∘ recorders <$> detached remount_demo = [1%nat] ∧
  page_active_count remount_demo = 2%nat.
Proof.
  repeat apply conj; try (vm_compute; reflexivity).
  eexists. split; vm_compute; reflexivity.
Qed.

Lemma demo_events_reachable (platform : Platform)
    (network : list Request → Request → FetchOutcome) (url : string) :
  reachable platform network url recording_with_chunk.
Proof. exists demo_events. vm_compute. reflexivity. Qed.

Lemma remount_demo_reachable :
  page_reachable undecodable unreachable_network "https://host" remount_demo.
Proof. exists remount_events. vm_compute. reflexivity. Qed.

Lemma one_session_at_a_time_witness :
  (active_count (recorders (mounted remount_demo)) ≤ 1)%nat ∧
  (∃ c', toggleRecording (mounted remount_demo) = Ok c' ∧
         audioChunksRef c' = audioChunksRef (mounted remount_demo)) ∧
  Forall (λ d, (active_count (recorders d) ≤ 1)%nat) (detached remount_demo).
Proof.
  destruct (one_session_at_a_time undecodable unreachable_network "https://host"
              remount_demo remount_demo_reachable)
    as (Hone & _ & _ & Htoggle & _ & Hdetached).
  split; [exact Hone |]. split; [| exact Hdetached].
  destruct (Htoggle eq_refl) as (c' & Hc' & _ & Hchunks & _).
  exists c'. split; [exact Hc' | exact Hchunks].
Defined.

Lemma chunks_are_nonempty_witness :
  Forall (λ chunk, (0 < Blob_size chunk)%nat) (audioChunksRef recording_with_chunk) ∧
  ondataavailable [] recording_with_chunk = recording_with_chunk.
Proof.
  destruct (chunks_are_nonempty undecodable unreachable_network "https://host"
              recording_with_chunk (demo_events_reachable _ _ _))
    as (Hchunks & _ & Hempty).
  split; [exact Hchunks |].
  exact (Hempty [] eq_refl).
Defined.

(* ================================================================== *)
(** * More about the quantizer *)
(* ================================================================== *)

Lemma truncate_sign (x : Q) :
  ((0 <= x)%Q → 0 <= truncate x) ∧ ((x <= 0)%Q → truncate x <= 0).
Proof.
  destruct x as [n d]. unfold truncate, Qle; simpl. rewrite !Z.mul_1_r.
  split; intros Hn.
  - apply Z.quot_pos; lia.
  - rewrite <- (Z.opp_involutive n), Z.quot_opp_l by lia.
    pose proof (Z.quot_pos (- n) (Z.pos d)). lia.
Qed.

(** The integer part never decreases when the number grows. *)
Lemma truncate_mono (x y : Q) : (x <= y)%Q → truncate x <= truncate y.
Proof.
  intros Hxy.
  destruct (Qlt_le_dec x 0) as [Hx | Hx]; destruct (Qlt_le_dec y 0) as [Hy | Hy].
  - destruct (truncate_nonpos x (Qlt_le_weak _ _ Hx)) as [_ Hlo].
    destruct (truncate_nonpos y (Qlt_le_weak _ _ Hy)) as [Hhi _].
    assert (inject_Z (truncate x - 1) < inject_Z (truncate y))%Q as H by lra.
    rewrite <- Zlt_Qlt in H. lia.
  - pose proof (proj2 (truncate_sign x) (Qlt_le_weak _ _ Hx)).
    pose proof (proj1 (truncate_sign y) Hy). lia.
  - lra.
  - destruct (truncate_nonneg x Hx) as [Hlo _].
    destruct (truncate_nonneg y Hy) as [_ Hhi].
    assert (inject_Z (truncate x) < inject_Z (truncate y + 1))%Q as H by lra.
    rewrite <- Zlt_Qlt in H. lia.
Qed.

Lemma truncate_Qeq (x y : Q) : (x == y)%Q → truncate x = truncate y.
Proof.
  intros Hxy. apply Z.le_antisymm; apply truncate_mono; lra.
Qed.

(** The stored value of a finite sample, by the position of the sample
    in the range. *)
Lemma sample16_below (q : Q) : (q <= inject_Z (-1))%Q → sample16 (Finite q) = -32768.
Proof.
  intros Hq. rewrite sample16_integer_part. unfold scale_sample.
  rewrite clamp_Finite.
  destruct (Qlt_bool q (inject_Z 1)) eqn:H1;
    [| apply Qlt_bool_false in H1; unfold inject_Z in *; lra].
  destruct (Qlt_bool (inject_Z (-1)) q) eqn:H2;
    [apply Qlt_bool_spec in H2; lra |].
  by vm_compute.
Qed.

Lemma sample16_above (q : Q) : (inject_Z 1 <= q)%Q → sample16 (Finite q) = 32767.
Proof.
  intros Hq. rewrite sample16_integer_part. unfold scale_sample.
  rewrite clamp_Finite.
  destruct (Qlt_bool q (inject_Z 1)) eqn:H1;
    [apply Qlt_bool_spec in H1; lra |].
  by vm_compute.
Qed.

Lemma sample16_negative (q : Q) :
  (inject_Z (-1) < q)%Q → (q < 0)%Q →
  sample16 (Finite q) = truncate (q * inject_Z 32768).
Proof.
  intros Hlo Hhi. rewrite sample16_integer_part. unfold scale_sample.
  rewrite clamp_Finite.
  rewrite (proj2 (Qlt_bool_spec q (inject_Z 1))) by (unfold inject_Z in *; lra).
  rewrite (proj2 (Qlt_bool_spec (inject_Z (-1)) q)) by done.
  simpl. by rewrite (proj2 (Qlt_bool_spec q (inject_Z 0))) by done.
Qed.

Lemma sample16_nonnegative (q : Q) :
  (0 <= q)%Q → (q < inject_Z 1)%Q →
  sample16 (Finite q) = truncate (q * inject_Z 32767).
Proof.
  intros Hlo Hhi. rewrite sample16_integer_part. unfold scale_sample.
  rewrite clamp_Finite.
  rewrite (proj2 (Qlt_bool_spec q (inject_Z 1))) by done.
  rewrite (proj2 (Qlt_bool_spec (inject_Z (-1)) q)) by (unfold inject_Z in *; lra).
  simpl. by rewrite (proj2 (Qlt_bool_false q (inject_Z 0))) by done.
Qed.

Lemma truncate_opp (x : Q) : truncate (- x) = - truncate x.
Proof.
  destruct x as [n d]. unfold truncate; simpl. apply Z.quot_opp_l. lia.
Qed.

(** Two scalings of the same non-negative magnitude differ by less than
    the magnitude, so their integer parts differ by at most one. *)
Lemma truncate_scalings (m : Q) :
  (0 <= m)%Q → (m < inject_Z 1)%Q →
  0 <= truncate (m * inject_Z 32768) - truncate (m * inject_Z 32767) <= 1.
Proof.
  intros H0 H1.
  assert (0 <= m * inject_Z 32767)%Q as Ha by (unfold inject_Z in *; nra).
  assert (0 <= m * inject_Z 32768)%Q as Hb by (unfold inject_Z in *; nra).
  destruct (truncate_nonneg _ Ha) as [Ha1 Ha2].
  destruct (truncate_nonneg _ Hb) as [Hb1 Hb2].
  pose proof (truncate_mono (m * inject_Z 32767) (m * inject_Z 32768)
                ltac:(unfold inject_Z in *; lra)) as Hle.
  assert (inject_Z (truncate (m * inject_Z 32768))
          < inject_Z (truncate (m * inject_Z 32767) + 2))%Q as Hlt.
  { rewrite inject_Z_plus in Ha2 |- *.
    change (inject_Z 32768) with (32768 # 1) in *.
    change (inject_Z 32767) with (32767 # 1) in *.
    change (inject_Z 1) with (1 # 1) in *.
    change (inject_Z 2) with (2 # 1) in *. lra. }
  rewrite <- Zlt_Qlt in Hlt. lia.
Qed.

(** X2.  The quantizer is monotone: a larger sample is never stored as
    a smaller 16-bit value, across the clamp, the change of scale at
    zero and the truncation. *)
Theorem sample16_monotone (q r : Q) :
  (q <= r)%Q → sample16 (Finite q) <= sample16 (Finite r).
Proof.
  intros Hqr.
  pose proof (scale_sample_int16 (Finite q)) as Bq.
  pose proof (scale_sample_int16 (Finite r)) as Br.
  rewrite <- sample16_integer_part in Bq, Br.
  destruct (Qlt_le_dec (inject_Z (-1)) q) as [Hq1 |];
    [| rewrite (sample16_below q) by done; lia].
  destruct (Qlt_le_dec r (inject_Z 1)) as [Hr1 |];
    [| rewrite (sample16_above r) by done; lia].
  destruct (Qlt_le_dec q 0) as [Hq0 | Hq0]; destruct (Qlt_le_dec r 0) as [Hr0 | Hr0].
  - rewrite (sample16_negative q), (sample16_negative r) by (done || lra).
    apply truncate_mono. unfold inject_Z. lra.
  - rewrite (sample16_negative q), (sample16_nonnegative r) by done.
    assert (q * inject_Z 32768 <= 0)%Q as Hn by (unfold inject_Z; lra).
    assert (0 <= r * inject_Z 32767)%Q as Hp by (unfold inject_Z; lra).
    pose proof (proj2 (truncate_sign _) Hn).
    pose proof (proj1 (truncate_sign _) Hp). lia.
  - lra.
  - rewrite (sample16_nonnegative q), (sample16_nonnegative r) by (done || lra).
    apply truncate_mono. unfold inject_Z. lra.
Qed.

Lemma sample16_monotone_witness :
  (1 # 4 <= 1 # 3)%Q ∧ sample16 (Finite (1 # 4)) <= sample16 (Finite (1 # 3)).
Proof.
  assert (1 # 4 <= 1 # 3)%Q as H by (unfold Qle; simpl; lia).
  split; [exact H | exact (sample16_monotone (1 # 4) (1 # 3) H)].
Defined.

(** X3.  Negating a sample negates the stored value up to one unit, and
    the surplus is always on the negative side: the negative samples are
    scaled by 32768 and the others by 32767. *)
Theorem sample16_negation (q : Q) :
  (0 <= q)%Q →
  0 <= - sample16 (Finite (- q)) - sample16 (Finite q) <= 1.
Proof.
  intros Hq.
  destruct (Qlt_le_dec q (inject_Z 1)) as [H1 | H1].
  - destruct (Qlt_le_dec 0 q) as [H0 | H0].
    + rewrite (sample16_negative (- q)), (sample16_nonnegative q)
        by (done || unfold inject_Z in *; lra).
      rewrite (truncate_Qeq (- q * inject_Z 32768) (- (q * inject_Z 32768)))
        by (unfold inject_Z; ring).
      rewrite truncate_opp, Z.opp_involutive.
      by apply truncate_scalings.
    + rewrite (sample16_nonnegative (- q)), (sample16_nonnegative q)
        by (done || unfold inject_Z in *; lra).
      rewrite (truncate_Qeq (- q * inject_Z 32767) 0),
              (truncate_Qeq (q * inject_Z 32767) 0)
        by (unfold inject_Z; nra).
      by vm_compute.
  - rewrite (sample16_below (- q)), (sample16_above q)
      by (done || unfold inject_Z in *; lra).
    lia.
Qed.

Lemma sample16_negation_witness :
  (0 <= 1 # 3)%Q ∧
  0 <= - sample16 (Finite (- (1 # 3))) - sample16 (Finite (1 # 3)) <= 1.
Proof.
  assert (0 <= 1 # 3)%Q as H by (unfold Qle; simpl; lia).
  split; [exact H | exact (sample16_negation (1 # 3) H)].
Defined.

(* ================================================================== *)
(** * More about the pipeline *)
(* ================================================================== *)

(** The channel count and the rate read back from a header. *)
Lemma wav_header_rate_channels (C : nat) (R : Z) (len : nat) (data : list Z) :
  getUint16 (wav_header C R len ++ data) 22 = Some (Z.of_nat C mod 2 ^ 16) ∧
  getUint32 (wav_header C R len ++ data) 24 = Some (R mod 2 ^ 32) ∧
  getUint16 (wav_header C R len ++ data) 34 = Some 16.
Proof.
  unfold wav_header. set (fields := wav_fields _ _ _).
  pose proof (loadBytes_field fields data) as Hfield.
  pose proof (Hfield 6%nat _ eq_refl
              : loadBytes (concat fields ++ data) 22 2 = Some _) as F22.
  pose proof (Hfield 7%nat _ eq_refl
              : loadBytes (concat fields ++ data) 24 4 = Some _) as F24.
  pose proof (Hfield 10%nat _ eq_refl
              : loadBytes (concat fields ++ data) 34 2 = Some _) as F34.
  unfold getUint32, getUint16. rewrite F22, F24, F34.
  cbn [fmap option_fmap option_map].
  by rewrite le_value_uint32_le, !le_value_uint16_le.
Qed.

Section PipelineFacts.
Context (platform : Platform).
Context (network : list Request → Request → FetchOutcome).
Context (API_BASE_URL : string).

Lemma requestedFrames_range (audioBuffer : AudioBuffer) (R : Z) :
  0 <= requestedFrames audioBuffer R < 2 ^ 32.
Proof. unfold requestedFrames, ToUint32. apply Z.mod_pos_bound. lia. Qed.

(** What a successful [renderAudio] went through, and the shape of its
    result. *)
Lemma renderAudio_Ok (audioBlob : Blob) (R : Z) (rendered : AudioBuffer) :
  renderAudio platform audioBlob R = Ok rendered →
  ∃ arrayBuffer audioBuffer,
    readAsArrayBuffer platform audioBlob = Ok arrayBuffer ∧
    decodeAudioData platform R arrayBuffer = Ok audioBuffer ∧
    0 < requestedFrames audioBuffer R ∧ 0 < R ∧
    (0 < AudioBuffer.numberOfChannels audioBuffer)%nat ∧
    startRendering platform
      {| oac_numberOfChannels := AudioBuffer.numberOfChannels audioBuffer;
         oac_length := Z.to_nat (requestedFrames audioBuffer R);
         oac_sampleRate := R |} audioBuffer = Ok rendered.
Proof.
  unfold renderAudio. intros H.
  destruct (readAsArrayBuffer platform audioBlob) as [arrayBuffer | e] eqn:Hread;
    [| done].
  cbn [mbind result_bind] in H.
  destruct (decodeAudioData platform R arrayBuffer) as [audioBuffer | e] eqn:Hdecode;
    [| done].
  cbn [mbind result_bind] in H.
  exists arrayBuffer, audioBuffer.
  unfold offlineContextFor, new_OfflineAudioContext in H.
  fold (requestedFrames audioBuffer R) in H.
  pose proof (requestedFrames_range audioBuffer R).
  destruct (Nat.eqb_spec (AudioBuffer.numberOfChannels audioBuffer) 0); [done |].
  destruct (Z.eqb_spec (requestedFrames audioBuffer R) 0); [done |].
  destruct (Z.leb_spec R 0); [done |].
  cbn [orb mbind result_bind] in H.
  repeat apply conj.
  all: try done. all: try lia.
Qed.

Lemma renderAudio_intro (audioBlob : Blob) (arrayBuffer : list Z)
    (audioBuffer : AudioBuffer) (R : Z) :
  readAsArrayBuffer platform audioBlob = Ok arrayBuffer →
  decodeAudioData platform R arrayBuffer = Ok audioBuffer →
  0 < requestedFrames audioBuffer R → 0 < R →
  (0 < AudioBuffer.numberOfChannels audioBuffer)%nat →
  renderAudio platform audioBlob R
  = startRendering platform
      {| oac_numberOfChannels := AudioBuffer.numberOfChannels audioBuffer;
         oac_length := Z.to_nat (requestedFrames audioBuffer R);
         oac_sampleRate := R |} audioBuffer.
Proof.
  intros Hread Hdecode Hframes HR HC.
  unfold renderAudio. rewrite Hread. cbn [mbind result_bind].
  rewrite Hdecode. cbn [mbind result_bind].
  unfold offlineContextFor, new_OfflineAudioContext.
  fold (requestedFrames audioBuffer R).
  destruct (Nat.eqb_spec (AudioBuffer.numberOfChannels audioBuffer) 0); [lia |].
  destruct (Z.eqb_spec (requestedFrames audioBuffer R) 0); [lia |].
  destruct (Z.leb_spec R 0); [lia |].
  reflexivity.
Qed.

(** X4.  Whatever the rate and the length of the recording, a
    successful [resampleAudio] returns a container of 44 bytes plus two
    bytes per rendered frame and channel, whose header announces
    16000 Hz, the channel count of the decoded recording and 16 bits per
    sample. *)
Theorem resampleAudio_container (audioBlob : Blob) (arrayBuffer : list Z)
    (audioBuffer : AudioBuffer) :
  readAsArrayBuffer platform audioBlob = Ok arrayBuffer →
  decodeAudioData platform 16000 arrayBuffer = Ok audioBuffer →
  let C := AudioBuffer.numberOfChannels audioBuffer in
  let frames := requestedFrames audioBuffer 16000 in
  (1 ≤ C ≤ 32)%nat →
  1 <= frames →
  renderingFails platform
    {| oac_numberOfChannels := C;
       oac_length := Z.to_nat frames;
       oac_sampleRate := 16000 |} audioBuffer = None →
  ∃ wav,
    resampleAudio platform audioBlob 16000 = Ok wav ∧
    Blob_size wav = (44 + Z.to_nat frames * C * 2)%nat ∧
    getUint16 wav 22 = Some (Z.of_nat C) ∧
    getUint32 wav 24 = Some 16000 ∧
    getUint16 wav 34 = Some 16.
Proof.
  intros Hread Hdecode C frames HC Hframes Hrender.
  pose proof (requestedFrames_range audioBuffer 16000) as Hrange. fold frames in Hrange.
  unfold resampleAudio.
  rewrite (renderAudio_intro _ _ _ _ Hread Hdecode) by (fold frames C; lia).
  fold C frames.
  destruct (startRendering platform _ audioBuffer) as [rendered | e] eqn:Hstart.
  2:{ unfold startRendering in Hstart. by rewrite Hrender in Hstart. }
  cbn [mbind result_bind].
  assert (RenderedAudio rendered) as Hrendered.
  { eapply startRendering_RenderedAudio; [exact Hstart | simpl .. ].
    - lia.
    - lia.
    - unfold maxByteLength. nia. }
  destruct (startRendering_shape _ _ _ _ Hstart) as (HC' & HN & HR & Hch & _).
  simpl in HC', HN, HR, Hch.
  rewrite (bufferToWav_encodes rendered Hrendered). cbn [or_throw].
  rewrite HC', HN, HR.
  eexists. split; [reflexivity |].
  destruct (wav_header_rate_channels C 16000 (Z.to_nat frames * C * 2)
              (wav_data (AudioBuffer.channelData rendered) (Z.to_nat frames)))
    as (H22 & H24 & H34).
  repeat apply conj.
  - unfold Blob_size. rewrite length_app, length_wav_header, length_wav_data, Hch.
    reflexivity.
  - rewrite H22. f_equal. apply Z.mod_small. lia.
  - rewrite H24. reflexivity.
  - exact H34.
Qed.


(** X6.  When resampling fails, the handler sends nothing to the
    server: the request log is unchanged, the failure is logged once,
    the compose field keeps its text and the error state is set. *)
Theorem failed_resampling_sends_nothing (sid : nat) (audioBlob : Blob)
    (c : Component) (e : exn) :
  resampleAudio platform audioBlob 16000 = Throw e →
  let c' := onstop_settle platform network API_BASE_URL sid audioBlob c in
  sent (world c') = sent (world c) ∧
  console (world c') = console (world c) ++ ["Error processing audio:"%string] ∧
  inputText c' = inputText c ∧
  voiceState c'
  = {| isRecording := false; error := Some "Error processing audio"%string |} ∧
  isTranscribing c' = false.
Proof.
  intros Hfail c'. subst c'. unfold onstop_settle, process. rewrite Hfail.
  repeat apply conj; reflexivity.
Qed.

(** X7.  When resampling succeeds, the handler uploads the encoded
    audio in exactly one request.  On a transcript nothing is logged and
    the recording state is left as it is; on a failed upload the failure
    is logged twice, by [transcribeAudio] and then by the handler, and
    the compose field keeps its text. *)
Theorem upload_after_resampling (sid : nat) (audioBlob wav : Blob) (c : Component) :
  resampleAudio platform audioBlob 16000 = Ok wav →
  let c' := onstop_settle platform network API_BASE_URL sid audioBlob c in
  let request :=
    {| req_url := API_BASE_URL +:+ "/transcribe";
       req_method := "POST";
       req_mode := "cors";
       req_headers := [];
       req_body := [ {| fd_name := "audio"; fd_value := wav;
                        fd_filename := Some "recording.wav"%string |} ] |} in
  sent (world c') = sent (world c) ++ [request] ∧
  match (transcribeAudio network API_BASE_URL wav (world c)).1 with
  | Ok transcript =>
      console (world c') = console (world c) ∧
      inputText c' = transcript ∧ voiceState c' = voiceState c
  | Throw _ =>
      console (world c')
      = console (world c)
        ++ ["Error transcribing audio:"%string; "Error processing audio:"%string] ∧
      inputText c' = inputText c ∧
      voiceState c'
      = {| isRecording := false; error := Some "Error processing audio"%string |}
  end.
Proof.
  intros Hwav c' request. subst c'. unfold onstop_settle, process. rewrite Hwav.
  unfold transcribeAudio, fetch. fold request.
  destruct (network (sent (world c)) request) as [| response]; simpl.
  - split; [reflexivity |]. by rewrite <- app_assoc.
  - destruct (Response_ok response); simpl.
    + destruct (Response_json response) as [data | e]; simpl.
      * destruct (get_property data "transcript") as [t | e]; simpl.
        -- done.
        -- split; [reflexivity |]. by rewrite <- app_assoc.
      * split; [reflexivity |]. by rewrite <- app_assoc.
    + split; [reflexivity |]. by rewrite <- app_assoc.
Qed.
End PipelineFacts.

Lemma resampleAudio_container_witness :
  ∃ wav,
    resampleAudio (decoding_to sixteen_frames) [] 16000 = Ok wav ∧
    Blob_size wav = 76%nat ∧ getUint32 wav 24 = Some 16000.
Proof.
  destruct (resampleAudio_container (decoding_to sixteen_frames)
              [] [] sixteen_frames eq_refl eq_refl)
    as (wav & Hwav & Hsize & _ & Hrate & _).
  - split; [exact (le_n 1) | vm_compute; lia].
  - vm_compute. discriminate.
  - reflexivity.
  - exists wav. split; [exact Hwav |]. split; [| exact Hrate].
    rewrite Hsize. vm_compute. reflexivity.
Defined.


Lemma failed_resampling_sends_nothing_witness :
  sent (world (onstop_settle undecodable unreachable_network "https://host" 0
                 [1; 2; 3] recording_demo)) = [].
Proof.
  destruct (failed_resampling_sends_nothing undecodable unreachable_network
              "https://host" 0 [1; 2; 3] recording_demo
              (Exn "EncodingError" "Unable to decode audio data") eq_refl)
    as [Hsent _].
  exact Hsent.
Defined.

Lemma upload_after_resampling_witness :
  length (sent (world (onstop_settle (decoding_to sixteen_frames)
                         unreachable_network "https://host" 0 [] recording_demo)))
  = 1%nat.
Proof.
  destruct (resampleAudio (decoding_to sixteen_frames) [] 16000)
    as [wav | e] eqn:Hwav; [| vm_compute in Hwav; discriminate].
  destruct (upload_after_resampling (decoding_to sixteen_frames)
              unreachable_network "https://host" 0 [] wav recording_demo Hwav)
    as [Hsent _].
  rewrite Hsent. reflexivity.
Defined.

(* ================================================================== *)
(** * More invariants of the voice path *)
(* ================================================================== *)

Section Invariants.
Context (platform : Platform).
Context (network : list Request → Request → FetchOutcome).
Context (API_BASE_URL : string).

Lemma capturing_stop (c : Component) (rid : nat) :
  recorder_state c rid ≠ inactive →
  capturing (set_stopping (stopping c ++ [rid]) (set_recorder_state rid inactive c))
  = capturing c.
Proof.
  intros Hactive.
  destruct (recorder_state_Some c rid Hactive) as (r & Hr & Hs).
  pose proof (active_count_inactivate _ _ _ Hr Hs) as Hcount.
  unfold capturing; simpl. rewrite length_app. simpl. lia.
Qed.

Lemma voiceState_onstop_settle (sid : nat) (audioBlob : Blob) (c : Component) :
  let c' := onstop_settle platform network API_BASE_URL sid audioBlob c in
  voiceState c' = voiceState c ∨
  voiceState c'
  = {| isRecording := false; error := Some "Error processing audio"%string |}.
Proof.
  unfold onstop_settle.
  destruct (process platform network API_BASE_URL audioBlob (world c))
    as [[transcript | e] w]; simpl; auto.
Qed.

Lemma flags_invariant_same (c c' : Component) :
  flags_invariant c →
  pendingStarts c' = pendingStarts c → recorders c' = recorders c →
  stopping c' = stopping c → transcribing c' = transcribing c →
  voiceState c' = voiceState c → isTranscribing c' = isTranscribing c →
  flags_invariant c'.
Proof.
  intros [Hrec Htr Herr] H1 H2 H3 H4 H5 H6.
  split; unfold capturing in *; rewrite ?H1, ?H2, ?H3, ?H4, ?H5, ?H6; done.
Qed.

Lemma flags_invariant_stop (c : Component) (rid : nat) :
  flags_invariant c → recorder_state c rid ≠ inactive →
  flags_invariant
    (set_stopping (stopping c ++ [rid]) (set_recorder_state rid inactive c)).
Proof.
  intros [Hrec Htr Herr] Hactive.
  split; [rewrite capturing_stop by done | ..]; done.
Qed.

Lemma flags_invariant_step (e : event) (c c' : Component) :
  session_invariant c → flags_invariant c →
  handle platform network API_BASE_URL e c = Some c' →
  flags_invariant c'.
Proof.
  intros [Hone _ _ _] Hflags Hstep. pose proof Hflags as [Hrec Htr Herr].
  destruct e as [| text | r | rid data | rid | k | k]; simpl in Hstep.
  - (* the microphone button *)
    destruct (isTranscribing c) eqn:Htrans; [done |].
    unfold toggleRecording, toggleRecording_of in Hstep.
    destruct (isRecording (voiceState c)) eqn:Hisrec.
    + unfold stopRecording in Hstep.
      destruct (mediaRecorderRef c) as [rid |]; [| by simplify_eq].
      destruct (decide (recorder_state c rid ≠ inactive)) as [Ha | _];
        [| by simplify_eq].
      rewrite MediaRecorder_stop_active in Hstep by done. simplify_eq.
      by apply flags_invariant_stop.
    + simplify_eq. split; unfold capturing; simpl; [lia | by rewrite Htrans | done].
  - (* typing *)
    destruct (isTranscribing c); [done |]. simplify_eq.
    by eapply flags_invariant_same.
  - (* getUserMedia settles *)
    destruct (Nat.ltb_spec 0 (pendingStarts c)) as [Hpending |]; [| done].
    simplify_eq. destruct r as [s | s fault |].
    + rewrite startRecording_resume_Granted.
      split; unfold capturing; simpl; rewrite ?active_count_app; simpl;
        [lia | done | done].
    + destruct (startRecording_resume_faulty s fault c)
        as (Hv & Hit & _ & _ & _ & Htrs & _).
      split; rewrite ?Hv, ?Hit, ?Htrs; [done | done |].
      intros message [= <-]. auto.
    + split; simpl; [done | done |].
      intros message [= <-]. auto.
  - (* dataavailable *)
    case_match; [| done]. simplify_eq. unfold ondataavailable.
    destruct (0 <? Blob_size data)%nat; [| done].
    by eapply flags_invariant_same.
  - (* the recorder ends by itself *)
    destruct (MediaRecorder_stop rid c) as [c1 | err] eqn:Hstop; [| done].
    simplify_eq. apply MediaRecorder_stop_Ok in Hstop as [Ha ->].
    by apply flags_invariant_stop.
  - (* the stop event *)
    destruct (stopping c !! k) as [rid |] eqn:Hk; [| done]. simpl in Hstep.
    destruct (recorders c !! rid) as [r |]; [| done]. simpl in Hstep.
    simplify_eq.
    split; simpl; [done | rewrite length_app; simpl; lia | done].
  - (* the pipeline settles *)
    destruct (transcribing c !! k) as [[sid audioBlob] |] eqn:Hk; [| done].
    simpl in Hstep. simplify_eq.
    pose proof (lookup_lt_Some _ _ _ Hk) as Hlt.
    set (c1 := set_transcribing (delete k (transcribing c)) c).
    destruct (onstop_settle_frame platform network API_BASE_URL sid audioBlob c1)
      as (_ & _ & Ht & _ & _ & _ & _ & Hisrec).
    pose proof (voiceState_onstop_settle sid audioBlob c1) as Hvoice.
    simpl in Hisrec, Hvoice.
    split.
    + intros H. apply Hisrec, Hrec in H. lia.
    + rewrite Ht. done.
    + destruct Hvoice as [-> | ->]; [exact Herr |].
      intros message [= <-]. auto.
Qed.

Lemma page_flags_invariant (p : Page) :
  page_reachable platform network API_BASE_URL p →
  session_invariant (mounted p) ∧ flags_invariant (mounted p).
Proof.
  intros Hp.
  apply (page_reachable_ind platform network API_BASE_URL
           (λ c, session_invariant c ∧ flags_invariant c)); [| | | exact Hp].
  - split; split; unfold capturing; simpl; (lia || done).
  - intros e c c' [Hs Hf] Hstep. split.
    + by eapply session_invariant_step.
    + by eapply flags_invariant_step.
  - intros w c [Hs Hf]. split.
    + by eapply session_invariant_same.
    + by eapply flags_invariant_same.
Qed.

(** X8.  In every state the page can reach, unmounting and remounting
    included, the two flags of the mounted instance are exact about
    what that instance has in flight: [isRecording] is set precisely
    while one of its starts waits for the microphone, one of its
    recorders captures or the [stop] event of one is queued, and
    [isTranscribing] precisely while one of its handlers waits for the
    pipeline; the two are never set together.  What an instance that
    was unmounted still has in flight is not in these flags. *)
Theorem flags_are_exact (p : Page) :
  page_reachable platform network API_BASE_URL p →
  let c := mounted p in
  (isRecording (voiceState c) = true ↔ (0 < capturing c)%nat) ∧
  (isTranscribing c = true ↔ transcribing c ≠ []) ∧
  ¬ (isRecording (voiceState c) = true ∧ isTranscribing c = true).
Proof.
  intros Hp c.
  destruct (page_flags_invariant p Hp) as [[Hone Hrec Htr _] [Frec Ftr _]].
  fold c in Hone, Hrec, Htr, Frec, Ftr.
  split; [| split].
  - split; [exact Frec | exact Hrec].
  - split.
    + intros H%Ftr Hnil. rewrite Hnil in H. simpl in H. lia.
    + intros H. apply Htr. destruct (transcribing c); [done | simpl; lia].
  - intros [H1%Frec H2%Ftr]. lia.
Qed.

(** X9.  The field [voiceState.error], which the component sets and no
    element renders, holds a message only while the mounted instance is
    idle: [isRecording] is clear and none of its starts or recorders is
    in flight.  The message is one of the two of the voice path, and
    the next start clears it. *)
Theorem error_only_when_idle (p : Page) (message : string) :
  page_reachable platform network API_BASE_URL p →
  let c := mounted p in
  error (voiceState c) = Some message →
  isRecording (voiceState c) = false ∧ capturing c = 0%nat ∧
  (message = "Error starting recording"%string ∨
   message = "Error processing audio"%string) ∧
  error (voiceState (startRecording_begin c)) = None.
Proof.
  intros Hp c Hmessage.
  destruct (page_flags_invariant p Hp) as [[_ Hrec _ _] [_ _ Ferr]].
  fold c in Hrec, Ferr.
  destruct (Ferr message Hmessage) as [Hidle Hwhich].
  repeat apply conj; [exact Hidle | | exact Hwhich | reflexivity].
  destruct (capturing c) as [| n] eqn:Hcap; [reflexivity |].
  rewrite Hrec in Hidle by lia. done.
Qed.
End Invariants.

Lemma get_property_lacks (data : JSValue) :
  lacks_transcript data → get_property data "transcript" = Ok JUndefined.
Proof.
  destruct data as [| | b | x | s | items | fields]; try done.
  simpl. intros Hlacks. f_equal.
  induction Hlacks as [| [key value] fields Hkey _ IH]; [done |].
  simpl in *. destruct (String.eqb_spec key "transcript"); done.
Qed.

Section Ownership.
Context (platform : Platform).
Context (network : list Request → Request → FetchOutcome).
Context (API_BASE_URL : string).

Lemma references_exist_same (c c' : Component) :
  references_exist c →
  recorders c' = recorders c → streams c' = streams c →
  stopping c' = stopping c → transcribing c' = transcribing c →
  references_exist c'.
Proof.
  intros [H1 H2 H3] E1 E2 E3 E4. split; rewrite ?E1, ?E2, ?E3, ?E4; done.
Qed.

Lemma references_exist_stop (c : Component) (rid : nat) :
  references_exist c → recorder_state c rid ≠ inactive →
  references_exist
    (set_stopping (stopping c ++ [rid]) (set_recorder_state rid inactive c)).
Proof.
  intros [H1 H2 H3] Hactive.
  destruct (recorder_state_Some c rid Hactive) as (r & Hr & _).
  split; simpl.
  - rewrite Forall_lookup in H1 |- *. intros i x Hx.
    destruct (decide (rid = i)) as [<- | Hne].
    + rewrite list_lookup_alter_eq, Hr in Hx. simplify_eq/=. by eapply H1.
    + rewrite list_lookup_alter_ne in Hx by done. by eapply H1.
  - done.
  - rewrite length_alter. apply Forall_app. split; [done |].
    apply Forall_singleton. by eapply lookup_lt_Some.
Qed.

Lemma Forall_lt_mono {A : Type} (f : A → nat) (n m : nat) (l : list A) :
  (n ≤ m)%nat → Forall (λ x, (f x < n)%nat) l → Forall (λ x, (f x < m)%nat) l.
Proof.
  intros Hnm H. eapply Forall_impl; [exact H |]. intros x Hx. simpl in *. lia.
Qed.

Lemma references_exist_step (e : event) (c c' : Component) :
  references_exist c →
  handle platform network API_BASE_URL e c = Some c' →
  references_exist c'.
Proof.
  intros Hinv Hstep. pose proof Hinv as [H1 H2 H3].
  destruct e as [| text | r | rid data | rid | k | k]; simpl in Hstep.
  - destruct (isTranscribing c); [done |].
    unfold toggleRecording, toggleRecording_of in Hstep.
    destruct (isRecording (voiceState c)).
    + unfold stopRecording in Hstep.
      destruct (mediaRecorderRef c) as [rid |]; [| by simplify_eq].
      destruct (decide (recorder_state c rid ≠ inactive)) as [Ha | _];
        [| by simplify_eq].
      rewrite MediaRecorder_stop_active in Hstep by done. simplify_eq.
      by apply references_exist_stop.
    + simplify_eq. by eapply references_exist_same.
  - destruct (isTranscribing c); [done |]. simplify_eq.
    by eapply references_exist_same.
  - destruct (0 <? pendingStarts c)%nat; [| done]. simplify_eq.
    assert (∀ s : MediaStream, length (streams c) ≤ length (streams c ++ [s]))%nat
      as Hgrow by (intros s; rewrite length_app; lia).
    destruct r as [s | s fault |]; [| | by eapply references_exist_same].
    + rewrite startRecording_resume_Granted. split; simpl.
      * apply Forall_app. split.
        -- eapply (Forall_lt_mono stream); [apply Hgrow | exact H1].
        -- apply Forall_singleton. simpl. rewrite length_app. simpl. lia.
      * eapply (Forall_lt_mono fst); [apply Hgrow | exact H2].
      * rewrite length_app. eapply (Forall_lt_mono id); [| exact H3]. lia.
    + destruct (startRecording_resume_faulty s fault c)
        as (_ & _ & _ & _ & Hst & Htrs & Hss & Hrs & _).
      split; rewrite ?Hst, ?Htrs, ?Hss, ?Hrs.
      * apply Forall_app. split.
        -- eapply (Forall_lt_mono stream); [apply Hgrow | exact H1].
        -- destruct fault; [constructor |].
           apply Forall_singleton. simpl. rewrite length_app. simpl. lia.
      * eapply (Forall_lt_mono fst); [apply Hgrow | exact H2].
      * rewrite length_app. eapply (Forall_lt_mono id); [| exact H3]. lia.
  - case_match; [| done]. simplify_eq. unfold ondataavailable.
    destruct (0 <? Blob_size data)%nat; [| done].
    by eapply references_exist_same.
  - destruct (MediaRecorder_stop rid c) as [c1 | err] eqn:Hstop; [| done].
    simplify_eq. apply MediaRecorder_stop_Ok in Hstop as [Ha ->].
    by apply references_exist_stop.
  - destruct (stopping c !! k) as [rid |] eqn:Hk; [| done]. simpl in Hstep.
    destruct (recorders c !! rid) as [r |] eqn:Hr; [| done]. simpl in Hstep.
    simplify_eq. split; simpl.
    + done.
    + apply Forall_app. split; [done |]. apply Forall_singleton. simpl.
      by eapply (Forall_lookup_1 _ _ _ _ H1).
    + rewrite Forall_forall in H3 |- *.
      intros x Hx%list_elem_of_delete_inv. by apply H3.
  - destruct (transcribing c !! k) as [[sid0 audioBlob] |] eqn:Hk; [| done].
    simpl in Hstep. simplify_eq.
    set (c1 := set_transcribing (delete k (transcribing c)) c).
    destruct (onstop_settle_frame platform network API_BASE_URL sid0 audioBlob c1)
      as (_ & Ht & _ & _ & _ & Hrs & Hst & _).
    pose proof (streams_onstop_settle platform network API_BASE_URL
                  sid0 audioBlob c1) as Hss.
    simpl in Ht, Hrs, Hst, Hss.
    split; rewrite ?Ht, ?Hrs, ?Hst, ?Hss, ?length_alter; [done | | done].
    rewrite Forall_forall in H2 |- *.
    intros x Hx%list_elem_of_delete_inv. by apply H2.
Qed.

Lemma reachable_references_exist (c : Component) :
  reachable platform network API_BASE_URL c → references_exist c.
Proof.
  revert c. apply reachable_ind.
  - split; simpl; constructor.
  - intros e c c'. apply references_exist_step.
Qed.

Lemma abandoned_same (sid : nat) (s : MediaStream) (c c' : Component) :
  abandoned sid s c →
  recorders c' = recorders c → streams c' = streams c →
  stopping c' = stopping c → transcribing c' = transcribing c →
  abandoned sid s c'.
Proof.
  intros [H1 H2 H3] E1 E2 E3 E4. split; rewrite ?E1, ?E2, ?E3, ?E4; done.
Qed.

Lemma abandoned_stop (sid : nat) (s : MediaStream) (c : Component) (rid : nat) :
  abandoned sid s c → recorder_state c rid ≠ inactive →
  abandoned sid s
    (set_stopping (stopping c ++ [rid]) (set_recorder_state rid inactive c)).
Proof.
  intros [H1 H2 H3] Hactive.
  destruct (recorder_state_Some c rid Hactive) as (r & Hr & Hstate).
  split; simpl; [done | | done].
  intros i x Hx Hsid.
  destruct (decide (rid = i)) as [<- | Hne].
  - rewrite list_lookup_alter_eq, Hr in Hx. injection Hx as <-. simpl in Hsid.
    by destruct (H2 rid r Hr Hsid).
  - rewrite list_lookup_alter_ne in Hx by done.
    destruct (H2 i x Hx Hsid) as [Hinactive Hqueued]. split; [done |].
    rewrite elem_of_app, list_elem_of_singleton. intros [? | ?]; done.
Qed.

(** Nothing the component does later touches a stream that has been
    abandoned. *)
Lemma abandoned_step (sid : nat) (s : MediaStream) (e : event) (c c' : Component) :
  abandoned sid s c →
  handle platform network API_BASE_URL e c = Some c' →
  abandoned sid s c'.
Proof.
  intros Hinv Hstep. pose proof Hinv as [H1 H2 H3].
  pose proof (lookup_lt_Some _ _ _ H1) as Hsid.
  destruct e as [| text | r | rid data | rid | k | k]; simpl in Hstep.
  - destruct (isTranscribing c); [done |].
    unfold toggleRecording, toggleRecording_of in Hstep.
    destruct (isRecording (voiceState c)).
    + unfold stopRecording in Hstep.
      destruct (mediaRecorderRef c) as [rid |]; [| by simplify_eq].
      destruct (decide (recorder_state c rid ≠ inactive)) as [Ha | _];
        [| by simplify_eq].
      rewrite MediaRecorder_stop_active in Hstep by done. simplify_eq.
      by apply abandoned_stop.
    + simplify_eq. by eapply abandoned_same.
  - destruct (isTranscribing c); [done |]. simplify_eq.
    by eapply abandoned_same.
  - destruct (0 <? pendingStarts c)%nat; [| done]. simplify_eq.
    destruct r as [s' | s' fault |]; [| | by eapply abandoned_same].
    + rewrite startRecording_resume_Granted. split; simpl.
      * by rewrite lookup_app_l.
      * intros rid r Hr Hs.
        apply lookup_app_Some in Hr as [Hr | [Hge Hr]]; [by eapply H2 |].
        destruct (rid - length (recorders c))%nat as [| n]; simpl in Hr; [| done].
        simplify_eq/=. lia.
      * done.
    + destruct (startRecording_resume_faulty s' fault c)
        as (_ & _ & _ & _ & Hst & Htrs & Hss & Hrs & _).
      split; rewrite ?Hst, ?Htrs, ?Hss, ?Hrs.
      * by rewrite lookup_app_l.
      * intros rid r Hr Hs.
        apply lookup_app_Some in Hr as [Hr | [Hge Hr]]; [by eapply H2 |].
        destruct fault; [done |].
        destruct (rid - length (recorders c))%nat as [| n]; simpl in Hr; [| done].
        simplify_eq/=. lia.
      * done.
  - case_match; [| done]. simplify_eq. unfold ondataavailable.
    destruct (0 <? Blob_size data)%nat; [| done].
    by eapply abandoned_same.
  - destruct (MediaRecorder_stop rid c) as [c1 | err] eqn:Hstop; [| done].
    simplify_eq. apply MediaRecorder_stop_Ok in Hstop as [Ha ->].
    by apply abandoned_stop.
  - destruct (stopping c !! k) as [rid |] eqn:Hk; [| done]. simpl in Hstep.
    destruct (recorders c !! rid) as [r |] eqn:Hr; [| done]. simpl in Hstep.
    simplify_eq. split; simpl.
    + done.
    + intros i x Hx Hs. destruct (H2 i x Hx Hs) as [Hinactive Hqueued].
      split; [done |]. intros Hin%list_elem_of_delete_inv. done.
    + rewrite fmap_app. simpl. rewrite elem_of_app, list_elem_of_singleton.
      intros [Hin | Heq]; [done |].
      destruct (H2 rid r Hr (eq_sym Heq)) as [_ Hqueued].
      apply Hqueued. by eapply list_elem_of_lookup_2.
  - destruct (transcribing c !! k) as [[sid0 audioBlob] |] eqn:Hk; [| done].
    simpl in Hstep. simplify_eq.
    set (c1 := set_transcribing (delete k (transcribing c)) c).
    destruct (onstop_settle_frame platform network API_BASE_URL sid0 audioBlob c1)
      as (_ & Ht & _ & _ & _ & Hrs & Hst & _).
    pose proof (streams_onstop_settle platform network API_BASE_URL
                  sid0 audioBlob c1) as Hss.
    simpl in Ht, Hrs, Hst, Hss.
    assert (sid0 ≠ sid) as Hne.
    { intros ->. apply H3. apply list_elem_of_fmap. exists (sid, audioBlob).
      split; [done |]. by eapply list_elem_of_lookup_2. }
    split; rewrite ?Ht, ?Hrs, ?Hst, ?Hss.
    + by rewrite list_lookup_alter_ne.
    + done.
    + rewrite list_fmap_delete. intros Hin%list_elem_of_delete_inv. done.
Qed.

Lemma page_references_exist (p : Page) :
  page_reachable platform network API_BASE_URL p → references_exist (mounted p).
Proof.
  intros Hp.
  apply (page_reachable_ind platform network API_BASE_URL references_exist);
    [| | | exact Hp].
  - split; simpl; constructor.
  - intros e c c'. apply references_exist_step.
  - intros w c Hc. by eapply references_exist_same.
Qed.

(** An abandoned stream stays abandoned through an event of the page,
    wherever its instance is. *)
Lemma abandoned_page_handle (sid : nat) (s : MediaStream) (pe : page_event)
    (p p' : Page) (place : option nat) (d : Component) :
  page_handle platform network API_BASE_URL pe p = Some p' →
  instance_at p place = Some d →
  abandoned sid s d →
  ∃ d',
    instance_at p'
      (match place with
       | None => if is_remount pe then Some (length (detached p)) else None
       | Some i => Some i
       end) = Some d' ∧
    abandoned sid s d'.
Proof.
  intros Hstep Hd Hab.
  assert (∀ w c, abandoned sid s c → abandoned sid s (set_world w c)) as Hworld
    by (intros w c Hc; by eapply abandoned_same).
  destruct pe as [e | k e |]; simpl in Hstep.
  - destruct (handle platform network API_BASE_URL e (mounted p)) as [c' |] eqn:Hc;
      simpl in Hstep; [| done].
    injection Hstep as <-. destruct place as [i |]; simpl in *.
    + rewrite list_lookup_fmap, Hd. simpl. eexists. split; [reflexivity |].
      by apply Hworld.
    + injection Hd as <-. eexists. split; [reflexivity |].
      by eapply abandoned_step.
  - destruct (background e); [| done].
    destruct (detached p !! k) as [c |] eqn:Hk; simpl in Hstep; [| done].
    destruct (handle platform network API_BASE_URL e c) as [c' |] eqn:Hc;
      simpl in Hstep; [| done].
    injection Hstep as <-. destruct place as [i |]; simpl in *.
    + rewrite list_lookup_fmap. destruct (decide (k = i)) as [-> | Hne].
      * rewrite list_lookup_insert_eq by by eapply lookup_lt_Some.
        simpl. eexists. split; [reflexivity |]. apply Hworld.
        eapply abandoned_step; [| exact Hc]. by simplify_eq.
      * rewrite list_lookup_insert_ne by done. rewrite Hd. simpl.
        eexists. split; [reflexivity |]. by apply Hworld.
    + injection Hd as <-. eexists. split; [reflexivity |]. by apply Hworld.
  - injection Hstep as <-. destruct place as [i |]; simpl in *.
    + exists d. split; [| done]. by apply lookup_app_l_Some.
    + injection Hd as <-. exists (mounted p). split; [| done].
      by rewrite lookup_app_r, Nat.sub_diag by done.
Qed.

Lemma abandoned_detached_run (sid : nat) (s : MediaStream) (i : nat)
    (es : list page_event) :
  ∀ p p' d,
    page_run platform network API_BASE_URL es p = Some p' →
    detached p !! i = Some d → abandoned sid s d →
    ∃ d', detached p' !! i = Some d' ∧ abandoned sid s d'.
Proof.
  induction es as [| pe es IH]; intros p p' d Hrun Hd Hab; simpl in Hrun.
  - injection Hrun as <-. by exists d.
  - destruct (page_handle platform network API_BASE_URL pe p) as [p1 |] eqn:Hpe;
      simpl in Hrun; [| done].
    destruct (abandoned_page_handle sid s pe p p1 (Some i) d Hpe Hd Hab)
      as (d1 & Hd1 & Hab1).
    by eapply IH.
Qed.

Lemma page_handle_detached_length (pe : page_event) (p p' : Page) :
  page_handle platform network API_BASE_URL pe p = Some p' →
  is_remount pe = false →
  length (detached p') = length (detached p).
Proof.
  intros Hstep Hpe. destruct pe as [e | k e |]; simpl in Hstep; [| | done].
  - destruct (handle platform network API_BASE_URL e (mounted p)); simpl in Hstep;
      [| done].
    injection Hstep as <-. simpl. by rewrite length_fmap.
  - destruct (background e); [| done].
    destruct (detached p !! k); simpl in Hstep; [| done].
    destruct (handle platform network API_BASE_URL e c); simpl in Hstep; [| done].
    injection Hstep as <-. simpl. by rewrite length_fmap, length_insert.
Qed.

Lemma abandoned_page_run (sid : nat) (s : MediaStream) (es : list page_event) :
  ∀ p p',
    page_run platform network API_BASE_URL es p = Some p' →
    abandoned sid s (mounted p) →
    ∃ d', instance_at p' (place_after es p) = Some d' ∧ abandoned sid s d'.
Proof.
  induction es as [| pe es IH]; intros p p' Hrun Hab; simpl in Hrun.
  - injection Hrun as <-. by exists (mounted p).
  - destruct (page_handle platform network API_BASE_URL pe p) as [p1 |] eqn:Hpe;
      simpl in Hrun; [| done].
    destruct (abandoned_page_handle sid s pe p p1 None (mounted p) Hpe eq_refl Hab)
      as (d1 & Hd1 & Hab1).
    unfold place_after. simpl.
    destruct (is_remount pe) eqn:Hremount; simpl.
    + by eapply abandoned_detached_run.
    + injection Hd1 as <-.
      destruct (IH p1 p' Hrun Hab1) as (d' & Hd' & Hab').
      exists d'. split; [| done].
      unfold place_after in Hd'.
      by rewrite (page_handle_detached_length pe p p1 Hpe Hremount) in Hd'.
Qed.

(** X10.  A start of the mounted instance whose recorder cannot be
    created or started leaves the microphone open for good.  When
    [getUserMedia] has granted a stream and [new MediaRecorder(stream)]
    or [start()] then raises, the [catch] of [startRecording] sets the
    error state to "Error starting recording" with [isRecording] clear
    and starts no recorder, but it stops no track; and nothing that
    happens on the page afterwards stops one, whether the instance
    stays mounted or is unmounted: in every later state its stream is
    exactly as it was granted. *)
Theorem failed_start_leaves_microphone_open (p p0 p' : Page)
    (s : MediaStream) (fault : RecorderFault) (es : list page_event) :
  page_reachable platform network API_BASE_URL p →
  page_handle platform network API_BASE_URL
    (OfMounted (UserMediaSettles (GrantedFaulty s fault))) p = Some p0 →
  page_run platform network API_BASE_URL es p0 = Some p' →
  let sid := length (streams (mounted p)) in
  voiceState (mounted p0)
  = {| isRecording := false; error := Some "Error starting recording"%string |} ∧
  active_count (recorders (mounted p0)) = active_count (recorders (mounted p)) ∧
  streams (mounted p0) !! sid = Some s ∧
  ∃ d, instance_at p' (place_after es p0) = Some d ∧ streams d !! sid = Some s.
Proof.
  intros Hp Hstep Hrun sid. simpl in Hstep.
  set (c := mounted p) in *.
  destruct (0 <? pendingStarts c)%nat; [| done]. simpl in Hstep.
  injection Hstep as <-. cbn [mounted].
  destruct (page_references_exist p Hp) as [H1 H2 H3]. fold c in H1, H2, H3.
  destruct (startRecording_resume_faulty s fault c)
    as (Hv & _ & _ & _ & Hst & Htrs & Hss & Hrs & Hac & _).
  assert (abandoned sid s (startRecording_resume (GrantedFaulty s fault) c))
    as Habandoned.
  { subst sid. split; rewrite ?Hst, ?Htrs, ?Hss, ?Hrs.
    - by rewrite lookup_app_r, Nat.sub_diag by done.
    - intros rid r Hr Hs.
      apply lookup_app_Some in Hr as [Hr | [Hge Hr]].
      + pose proof (Forall_lookup_1 _ _ _ _ H1 Hr) as Hlt. simpl in Hlt. lia.
      + destruct fault; [done |].
        destruct (rid - length (recorders c))%nat as [| n] eqn:Hn;
          simpl in Hr; [| done].
        simplify_eq/=. split; [done |].
        intros Hin. rewrite Forall_forall in H3. specialize (H3 rid Hin). lia.
    - intros (entry & Hentry & Hin)%list_elem_of_fmap.
      rewrite Forall_forall in H2. specialize (H2 entry Hin). lia. }
  repeat apply conj; [exact Hv | exact Hac | by destruct Habandoned |].
  destruct (abandoned_page_run sid s es _ p' Hrun Habandoned) as (d & Hd & Hab).
  exists d. split; [exact Hd | by destruct Hab].
Qed.

(** X12.  A 2xx answer whose body parses but carries no [transcript]
    (an object without the key, an array, a primitive) is not reported
    as a failure: the compose field is set to [undefined], nothing is
    logged and no error is shown. *)
Theorem missing_transcript_is_undefined (sid : nat) (audioBlob wav : Blob)
    (c : Component) (response : Response) (data : JSValue) :
  resampleAudio platform audioBlob 16000 = Ok wav →
  network (sent (world c)) (transcribe_request API_BASE_URL wav) = Responded response →
  200 <= status response <= 299 →
  body_json response = Some data →
  lacks_transcript data →
  let c' := onstop_settle platform network API_BASE_URL sid audioBlob c in
  inputText c' = JUndefined ∧ voiceState c' = voiceState c ∧
  console (world c') = console (world c).
Proof.
  intros Hwav Hnet Hstatus Hbody Hlacks c'. subst c'.
  unfold onstop_settle, process. rewrite Hwav.
  unfold transcribeAudio, fetch. fold (transcribe_request API_BASE_URL wav).
  rewrite Hnet. cbn [mbind result_bind].
  rewrite (proj2 (Response_ok_2xx response) Hstatus). cbn [negb].
  unfold Response_json. rewrite Hbody. cbn [or_throw mbind result_bind].
  by rewrite get_property_lacks.
Qed.

(** X13.  A chunk delivered between the call of [stop] and the [stop]
    event still belongs to the recording: the handler snapshots the
    chunk sequence when the [stop] event arrives, and the blob it
    queues for the pipeline ends with that chunk. *)
Theorem last_chunk_is_uploaded (c : Component) (k rid : nat)
    (r : MediaRecorder) (data : Blob) :
  stopping c !! k = Some rid →
  recorders c !! rid = Some r →
  (0 < Blob_size data)%nat →
  ∃ c',
    run platform network API_BASE_URL [DataAvailable rid data; StopEvent k] c
    = Some c' ∧
    transcribing c'
    = transcribing c ++ [(stream r, new_Blob (audioChunksRef c) ++ data)] ∧
    isTranscribing c' = true ∧ isRecording (voiceState c') = false.
Proof.
  intros Hk Hr Hdata. simpl.
  rewrite decide_True by (right; by eapply list_elem_of_lookup_2).
  simpl. unfold ondataavailable.
  destruct (Nat.ltb_spec 0 (Blob_size data)) as [_ | ?]; [| lia].
  simpl. rewrite Hk. simpl. rewrite Hr. simpl.
  eexists. split; [reflexivity |]. simpl.
  unfold new_Blob. rewrite concat_app. simpl. by rewrite app_nil_r.
Qed.
End Ownership.

Lemma denied_page_reachable (platform : Platform)
    (network : list Request → Request → FetchOutcome) (url : string) :
  page_reachable platform network url denied_page.
Proof.
  exists [OfMounted ClickMic; OfMounted (UserMediaSettles Denied)].
  vm_compute. reflexivity.
Qed.

Lemma flags_are_exact_witness :
  isRecording (voiceState (mounted remount_demo)) = true ↔
  (0 < capturing (mounted remount_demo))%nat.
Proof.
  exact (proj1 (flags_are_exact undecodable unreachable_network "https://host"
                  remount_demo remount_demo_reachable)).
Defined.

Lemma error_only_when_idle_witness :
  error (voiceState (mounted denied_page)) = Some "Error starting recording"%string ∧
  capturing (mounted denied_page) = 0%nat.
Proof.
  split; [reflexivity |].
  exact (proj1 (proj2 (error_only_when_idle undecodable unreachable_network
                         "https://host" denied_page "Error starting recording"
                         (denied_page_reachable _ _ _) eq_refl))).
Defined.

Lemma pressed_page_reachable (platform : Platform)
    (network : list Request → Request → FetchOutcome) (url : string) :
  page_reachable platform network url
    {| mounted := startRecording_begin initial; detached := [] |}.
Proof. exists [OfMounted ClickMic]. vm_compute. reflexivity. Qed.

Lemma failed_start_leaves_microphone_open_witness :
  place_after after_fault_events faulty_page = Some 0%nat ∧
  ∃ d,
    detached after_fault_demo !! 0%nat = Some d ∧
    streams d = [ {| tracks := [true] |}; {| tracks := [false] |} ].
Proof.
  split; [reflexivity |].
  destruct (failed_start_leaves_microphone_open (decoding_to sixteen_frames)
              (answering empty_answer) "https://host"
              {| mounted := startRecording_begin initial; detached := [] |}
              faulty_page after_fault_demo
              {| tracks := [true] |} StartThrows after_fault_events)
    as (_ & _ & _ & d & Hd & Hs).
  - apply pressed_page_reachable.
  - vm_compute. reflexivity.
  - vm_compute. reflexivity.
  - vm_compute in Hd. injection Hd as <-. eexists.
    repeat apply conj; vm_compute; reflexivity.
Defined.

Lemma missing_transcript_is_undefined_witness :
  inputText (onstop_settle (decoding_to sixteen_frames) (answering empty_answer)
               "https://host" 0 [] recording_demo) = JUndefined.
Proof.
  destruct (resampleAudio (decoding_to sixteen_frames) [] 16000)
    as [wav | e] eqn:Hwav; [| vm_compute in Hwav; discriminate].
  apply (missing_transcript_is_undefined (decoding_to sixteen_frames)
           (answering empty_answer) "https://host" 0 [] wav recording_demo
           empty_answer (JObject []) Hwav eq_refl).
  - simpl. lia.
  - reflexivity.
  - simpl. constructor.
Defined.

Lemma last_chunk_is_uploaded_witness :
  ∃ c',
    run undecodable unreachable_network "https://host"
      [DataAvailable 0 [4; 5]; StopEvent 0] stopped_demo = Some c' ∧
    transcribing c' = [(0%nat, [1; 2; 3; 4; 5])].
Proof.
  destruct (last_chunk_is_uploaded undecodable unreachable_network "https://host"
              stopped_demo 0 0 {| stream := 0; state := inactive |} [4; 5]
              eq_refl eq_refl)
    as (c' & Hrun & Htranscribing & _).
  - simpl. lia.
  - exists c'. split; [exact Hrun | exact Htranscribing].
Defined.

(* ================================================================== *)
(** * The service layer *)
(* ================================================================== *)

Section ApiFacts.
Context (server : list Call → Call → FetchOutcome).
Context (API_BASE_URL : string).

Lemma rethrow_logged_called_once {A : Type} (call : Call) (label : string)
    (w : Net) (response : result Response) (k : Response → result A) :
  called_once call label w
    (rethrow_logged label (response ≫= k)
       {| calls := calls w ++ [call]; logged := logged w |}).
Proof.
  unfold called_once, rethrow_logged.
  destruct (response ≫= k) as [a | e]; simpl; [by rewrite app_nil_r | done].
Qed.

Lemma call_fetch_called_once {A : Type} (call : Call) (label : string) (w : Net)
    (k : Response → result A) :
  called_once call label w
    (let '(response, w') := call_fetch server call w in
     rethrow_logged label (response ≫= k) w').
Proof.
  unfold call_fetch.
  destruct (server (calls w) call); apply rethrow_logged_called_once.
Qed.

Lemma service_layer_called_once (w : Net) :
  (∀ message,
     called_once
       (service_call API_BASE_URL "/chat" defaultFetchOptions_headers
          (JsonText (JObject [("message"%string, JString message)])))
       "Error sending message:" w
       (sendMessage server API_BASE_URL message w)) ∧
  (∀ settings,
     called_once
       (service_call API_BASE_URL "/settings" defaultFetchOptions_headers
          (JsonText (settings_json settings)))
       "Error updating settings:" w
       (updateSettings server API_BASE_URL settings w)) ∧
  called_once
    (service_call API_BASE_URL "/clear-history" defaultFetchOptions_headers NoBody)
    "Error clearing history:" w
    (clearHistory server API_BASE_URL w) ∧
  (∀ file,
     called_once
       (service_call API_BASE_URL "/upload" [] (FormData [("file"%string, file)]))
       "Error uploading PDF:" w
       (uploadPDF server API_BASE_URL file w)).
Proof.
  repeat apply conj; intros; apply call_fetch_called_once.
Qed.

(** X14.  Every call of the service layer makes exactly one request,
    whatever the answer (there is no retry), and logs exactly one line
    when it fails and none when it succeeds.  The three JSON calls
    declare [Content-Type: application/json], also [clearHistory], which
    has no body; the upload declares no header, so that the browser can
    set the multipart boundary. *)
Theorem service_calls_once (w : Net) :
  (∀ message,
     called_once
       (service_call API_BASE_URL "/chat" [("Content-Type", "application/json")%string]
          (JsonText (JObject [("message"%string, JString message)])))
       "Error sending message:" w
       (sendMessage server API_BASE_URL message w)) ∧
  (∀ settings,
     called_once
       (service_call API_BASE_URL "/settings"
          [("Content-Type", "application/json")%string]
          (JsonText (JObject [ ("llmModel", JString (llmModel settings));
                               ("asrModel", JString (asrModel settings));
                               ("temperature", JNumber (temperature settings)) ]%string)))
       "Error updating settings:" w
       (updateSettings server API_BASE_URL settings w)) ∧
  called_once
    (service_call API_BASE_URL "/clear-history"
       [("Content-Type", "application/json")%string] NoBody)
    "Error clearing history:" w
    (clearHistory server API_BASE_URL w) ∧
  (∀ file,
     called_once
       (service_call API_BASE_URL "/upload" [] (FormData [("file"%string, file)]))
       "Error uploading PDF:" w
       (uploadPDF server API_BASE_URL file w)).
Proof.
  repeat apply conj; intros; apply call_fetch_called_once.
Qed.

(** X15.  [updateSettings] and [clearHistory] succeed exactly when the
    server answers with a 2xx status: they never read the body.
    [sendMessage] and [uploadPDF] also parse it, so a 2xx answer whose
    body is not JSON makes them fail with the parser's [SyntaxError]. *)
Theorem status_decides_success (w : Net) (settings : ChatSettings)
    (message : string) (file : File) :
  let settings_call :=
    service_call API_BASE_URL "/settings" defaultFetchOptions_headers
      (JsonText (settings_json settings)) in
  let clear_call :=
    service_call API_BASE_URL "/clear-history" defaultFetchOptions_headers NoBody in
  let chat_call :=
    service_call API_BASE_URL "/chat" defaultFetchOptions_headers
      (JsonText (JObject [("message"%string, JString message)])) in
  let upload_call :=
    service_call API_BASE_URL "/upload" [] (FormData [("file"%string, file)]) in
  ((updateSettings server API_BASE_URL settings w).1 = Ok () ↔
   ∃ r, server (calls w) settings_call = Responded r ∧ 200 <= status r <= 299) ∧
  ((clearHistory server API_BASE_URL w).1 = Ok () ↔
   ∃ r, server (calls w) clear_call = Responded r ∧ 200 <= status r <= 299) ∧
  (∀ r, server (calls w) chat_call = Responded r → 200 <= status r <= 299 →
        body_json r = None →
        (sendMessage server API_BASE_URL message w).1
        = Throw (Exn "SyntaxError" "Unexpected token")) ∧
  (∀ r, server (calls w) upload_call = Responded r → 200 <= status r <= 299 →
        body_json r = None →
        (uploadPDF server API_BASE_URL file w).1
        = Throw (Exn "SyntaxError" "Unexpected token")).
Proof.
  intros settings_call clear_call chat_call upload_call.
  subst settings_call clear_call chat_call upload_call. unfold service_call.
  split; [| split; [| split]].
  - unfold updateSettings, call_fetch.
    destruct (server (calls w) _) as [| r] eqn:Hnet; simpl.
    + split; [done | by intros (r & ? & _)].
    + destruct (Response_ok r) eqn:Hok; simpl.
      * split; [| done]. intros _. exists r. by apply Response_ok_2xx in Hok.
      * split; [done |]. intros (r' & [= <-] & H%Response_ok_2xx). congruence.
  - unfold clearHistory, call_fetch.
    destruct (server (calls w) _) as [| r] eqn:Hnet; simpl.
    + split; [done | by intros (r & ? & _)].
    + destruct (Response_ok r) eqn:Hok; simpl.
      * split; [| done]. intros _. exists r. by apply Response_ok_2xx in Hok.
      * split; [done |]. intros (r' & [= <-] & H%Response_ok_2xx). congruence.
  - intros r Hnet Hstatus%Response_ok_2xx Hbody.
    unfold sendMessage, call_fetch. rewrite Hnet. simpl.
    rewrite Hstatus. simpl. unfold Response_json. by rewrite Hbody.
  - intros r Hnet Hstatus%Response_ok_2xx Hbody.
    unfold uploadPDF, call_fetch. rewrite Hnet. simpl.
    rewrite Hstatus. simpl. unfold Response_json. by rewrite Hbody.
Qed.
End ApiFacts.

(* ================================================================== *)
(** * [PDFUpload] *)
(* ================================================================== *)

Section UploadFacts.
Context (server : list Call → Call → FetchOutcome).
Context (API_BASE_URL : string).

Lemma calls_uploadPDF (file : File) (w : Net) :
  calls (uploadPDF server API_BASE_URL file w).2
  = calls w ++ [upload_call API_BASE_URL file].
Proof.
  exact (proj1 (call_fetch_called_once server
                  (upload_call API_BASE_URL file) "Error uploading PDF:" w _)).
Qed.

Lemma net_handleUpload (s : PDFUpload.t) :
  calls (PDFUpload.net (PDFUpload.handleUpload server API_BASE_URL s))
  = calls (PDFUpload.net s)
    ++ match PDFUpload.selectedFile s with
       | Some file => [upload_call API_BASE_URL file]
       | None => []
       end.
Proof.
  unfold PDFUpload.handleUpload.
  destruct (PDFUpload.selectedFile s) as [file |]; [| by rewrite app_nil_r].
  pose proof (calls_uploadPDF file (PDFUpload.net s)) as Hcalls.
  destruct (uploadPDF server API_BASE_URL file (PDFUpload.net s)) as [[message | e] w];
    exact Hcalls.
Qed.

Lemma PDFUpload_reachable_ind (P : PDFUpload.t → Prop) :
  P PDFUpload.initial →
  (∀ e s s', P s → PDFUpload.handle server API_BASE_URL e s = Some s' → P s') →
  ∀ s, PDFUpload.reachable server API_BASE_URL s → P s.
Proof.
  intros Hinit Hstep s [es Hrun]. revert Hrun.
  generalize PDFUpload.initial, Hinit. clear Hinit.
  induction es as [| e es IH]; intros s0 Hs0; simpl.
  - by intros [= <-].
  - destruct (PDFUpload.handle server API_BASE_URL e s0) as [s1 |] eqn:He;
      simpl; [| done].
    apply IH. by eapply Hstep.
Qed.

(** X16.  Only PDF files are ever uploaded.  In every state the upload
    component can reach, the selected file (if any) has the media type
    [application/pdf], every request made so far uploads one such file
    to [/upload], and the component is not left in its uploading
    state. *)
Theorem only_pdf_is_uploaded (s : PDFUpload.t) :
  PDFUpload.reachable server API_BASE_URL s →
  (∀ file, PDFUpload.selectedFile s = Some file →
           file_type file = "application/pdf"%string) ∧
  Forall (λ call, ∃ file, file_type file = "application/pdf"%string ∧
                          call = upload_call API_BASE_URL file)
    (calls (PDFUpload.net s)) ∧
  PDFUpload.isUploading s = false.
Proof.
  revert s. apply PDFUpload_reachable_ind.
  - repeat apply conj; [done | constructor | done].
  - intros e s s' (Hfile & Hcalls & Hidle) Hstep.
    destruct e as [file |]; simpl in Hstep; simplify_eq.
    + unfold PDFUpload.handleFileSelect.
      destruct file as [f |]; [| done].
      destruct (String.eqb_spec (file_type f) "application/pdf"); [| done].
      repeat apply conj; [| done | done]. simpl. by intros ? [= <-].
    + repeat apply conj.
      * unfold PDFUpload.handleUpload.
        destruct (PDFUpload.selectedFile s) as [file |] eqn:Hsel;
          [| intros file Hf; congruence].
        by destruct (uploadPDF server API_BASE_URL file (PDFUpload.net s))
          as [[message | e] w].
      * rewrite net_handleUpload. apply Forall_app. split; [done |].
        destruct (PDFUpload.selectedFile s) as [file |] eqn:Hsel; [| constructor].
        apply Forall_singleton. exists file. split; [by apply Hfile | done].
      * unfold PDFUpload.handleUpload.
        destruct (PDFUpload.selectedFile s) as [file |]; [| done].
        by destruct (uploadPDF server API_BASE_URL file (PDFUpload.net s))
          as [[message | e] w].
Qed.

(** X17.  A selection that is refused (a file of another type, or no
    file at all) shows the error but does not unselect the file chosen
    before: the upload button then still sends that file. *)
Theorem refused_selection_keeps_file (file : option File) (s : PDFUpload.t) :
  (∀ f, file = Some f → file_type f ≠ "application/pdf"%string) →
  let s' := PDFUpload.handleFileSelect file s in
  PDFUpload.selectedFile s' = PDFUpload.selectedFile s ∧
  PDFUpload.uploadStatus s'
  = Some (status_error, JString "Please select a valid PDF file.") ∧
  PDFUpload.net (PDFUpload.handleUpload server API_BASE_URL s')
  = PDFUpload.net (PDFUpload.handleUpload server API_BASE_URL s).
Proof.
  intros Hrefused s'. subst s'. unfold PDFUpload.handleFileSelect.
  destruct file as [f |].
  - destruct (String.eqb_spec (file_type f) "application/pdf") as [Hpdf | _];
      [by destruct (Hrefused f eq_refl) |].
    repeat apply conj; try done.
    unfold PDFUpload.handleUpload. simpl.
    destruct (PDFUpload.selectedFile s) as [file |]; [| done].
    by destruct (uploadPDF server API_BASE_URL file (PDFUpload.net s))
      as [[message | e] w].
  - repeat apply conj; try done.
    unfold PDFUpload.handleUpload. simpl.
    destruct (PDFUpload.selectedFile s) as [file |]; [| done].
    by destruct (uploadPDF server API_BASE_URL file (PDFUpload.net s))
      as [[message | e] w].
Qed.
End UploadFacts.

(* ================================================================== *)
(** * [App]: the chat history *)
(* ================================================================== *)

Lemma length_substring (n : nat) (s : string) :
  (String.length (substring 0 n s) ≤ n)%nat.
Proof.
  revert s. induction n as [| n IH]; intros [| a s]; simpl; try lia.
  specialize (IH s). lia.
Qed.

Lemma length_string_app (s t : string) :
  String.length (s +:+ t) = (String.length s + String.length t)%nat.
Proof. induction s as [| a s IH]; simpl; [done | by rewrite IH]. Qed.

Lemma chat_ids_append_user (active userMessageId message : string)
    (l : list ChatHistoryItem.t) :
  ChatHistoryItem.id <$> (App.append_user active userMessageId message <$> l)
  = ChatHistoryItem.id <$> l.
Proof.
  rewrite <- list_fmap_compose. apply list_fmap_ext. intros _ chat _. simpl.
  unfold App.append_user. by destruct (decide _).
Qed.

Lemma chat_ids_append_bot (active botMessageId : string) (response : JSValue)
    (l : list ChatHistoryItem.t) :
  ChatHistoryItem.id <$> (App.append_bot active botMessageId response <$> l)
  = ChatHistoryItem.id <$> l.
Proof.
  rewrite <- list_fmap_compose. apply list_fmap_ext. intros _ chat _. simpl.
  unfold App.append_bot. by destruct (decide _).
Qed.

Lemma chat_ids_clear_chat (active : string) (l : list ChatHistoryItem.t) :
  ChatHistoryItem.id <$> (App.clear_chat active <$> l) = ChatHistoryItem.id <$> l.
Proof.
  rewrite <- list_fmap_compose. apply list_fmap_ext. intros _ chat _. simpl.
  unfold App.clear_chat. by destruct (decide _).
Qed.

(** What [handleSendMessage] leaves alone. *)
Lemma handleSendMessage_frame (activeChatId : option string) (userNow botNow : Z)
    (message : string) (response : JSValue) (s : App.t) :
  let s' := App.handleSendMessage activeChatId userNow botNow message response s in
  App.chat_ids s' = App.chat_ids s ∧
  App.activeChatId s' = App.activeChatId s ∧
  App.showSettings s' = App.showSettings s ∧ App.showUpload s' = App.showUpload s ∧
  App.settings s' = App.settings s ∧ App.net s' = App.net s.
Proof.
  unfold App.handleSendMessage, App.chat_ids.
  destruct activeChatId as [active |]; [| done].
  destruct (nonempty_string active); [| done]. simpl.
  destruct (nonempty_string message), (truthy response); simpl;
    rewrite ?chat_ids_append_bot, ?chat_ids_append_user; done.
Qed.

Lemma handleClearHistory_settle_frame (server : list Call → Call → FetchOutcome)
    (activeChatId : option string) (outcome : result unit) (s : App.t) :
  let s' := App.handleClearHistory_settle activeChatId outcome s in
  App.chat_ids s' = App.chat_ids s ∧
  App.activeChatId s' = App.activeChatId s ∧
  App.showSettings s' = App.showSettings s ∧ App.showUpload s' = App.showUpload s ∧
  App.settings s' = App.settings s.
Proof.
  unfold App.handleClearHistory_settle, App.chat_ids.
  destruct outcome as [[] | e]; [| done].
  destruct activeChatId as [active |]; [| done].
  destruct (nonempty_string active); [| done]. simpl.
  by rewrite chat_ids_clear_chat.
Qed.

Lemma handleSettingsChange_settle_frame (Number_toString : number → string)
    (settings : ChatSettings) (newSettings : PartialSettings)
    (outcome : result unit) (s : App.t) :
  let s' :=
    App.handleSettingsChange_settle Number_toString settings newSettings outcome s in
  App.chatHistory s' = App.chatHistory s ∧
  App.activeChatId s' = App.activeChatId s ∧
  App.showSettings s' = App.showSettings s ∧ App.showUpload s' = App.showUpload s ∧
  App.settings s' = App.settings s.
Proof.
  unfold App.handleSettingsChange_settle.
  destruct outcome as [[] | e]; [| done].
  destruct newSettings as [[llm |] [asr |] [value |]]; simpl;
    repeat match goal with |- context [if ?b then _ else _] => destruct b end;
    done.
Qed.

Lemma elem_of_filter_ids (id a : string) (l : list ChatHistoryItem.t) :
  a ∈ ChatHistoryItem.id <$> l → a ≠ id →
  a ∈ ChatHistoryItem.id <$> filter (λ chat, ChatHistoryItem.id chat ≠ id) l.
Proof.
  intros (chat & -> & Hin)%list_elem_of_fmap Hne.
  apply list_elem_of_fmap. exists chat. split; [done |].
  by apply list_elem_of_filter.
Qed.

Section AppFacts.
Context (server : list Call → Call → FetchOutcome).
Context (API_BASE_URL : string).
Context (Number_toString : number → string).

Lemma App_reachable_ind (P : App.t → Prop) :
  P App.initial →
  (∀ e s s', P s → App.handle server API_BASE_URL Number_toString e s = Some s' → P s') →
  ∀ s, App.reachable server API_BASE_URL Number_toString s → P s.
Proof.
  intros Hinit Hstep s [es Hrun]. revert Hrun.
  generalize App.initial, Hinit. clear Hinit.
  induction es as [| e es IH]; intros s0 Hs0; simpl.
  - by intros [= <-].
  - destruct (App.handle server API_BASE_URL Number_toString e s0) as [s1 |] eqn:He;
      simpl; [| done].
    apply IH. by eapply Hstep.
Qed.

(** The events that touch neither the chats nor the selection. *)
Lemma handle_elsewhere (e : App.event) (s s' : App.t) :
  App.handle server API_BASE_URL Number_toString e s = Some s' →
  match e with
  | App.ToggleSettings | App.ToggleUpload | App.ToggleMobileSidebar
  | App.CloseSnackbar _ | App.ClearHistory | App.SettingsChange _
  | App.SettingsChangeSettles _ =>
      App.chatHistory s' = App.chatHistory s ∧ App.activeChatId s' = App.activeChatId s
  | _ => True
  end.
Proof.
  intros Hstep. destruct e; try done; simpl in Hstep.
  - by simplify_eq.
  - by simplify_eq.
  - by simplify_eq.
  - simplify_eq. unfold App.handleCloseSnackbar. by destruct clickaway.
  - destruct (clearHistory server API_BASE_URL (App.net s)) as [outcome w].
    by simplify_eq.
  - destruct (updateSettings server API_BASE_URL _ (App.net s)) as [outcome w].
    by simplify_eq.
  - destruct (App.pendingSettings s !! k) as [[[settings newSettings] outcome] |];
      [| done].
    simpl in Hstep. simplify_eq.
    destruct (handleSettingsChange_settle_frame Number_toString settings newSettings
                outcome (App.set_pendingSettings (delete k (App.pendingSettings s)) s))
      as (H1 & H2 & _).
    by rewrite H1, H2.
Qed.

(** X18.  Once a chat exists there is always a selected chat, and it is
    one of the chats of the history: deleting the selected chat selects
    the first remaining one, and deleting the last chat creates a fresh
    one.  Before the first chat exists nothing is selected. *)
Theorem active_chat_exists (s : App.t) :
  App.reachable server API_BASE_URL Number_toString s →
  match App.activeChatId s with
  | Some active =>
      ∃ chat, chat ∈ App.chatHistory s ∧ ChatHistoryItem.id chat = active
  | None => App.chatHistory s = []
  end.
Proof.
  intros Hs.
  cut (match App.activeChatId s with
       | Some active => active ∈ App.chat_ids s
       | None => App.chatHistory s = []
       end).
  { destruct (App.activeChatId s) as [active |]; [| done].
    intros (chat & -> & Hin)%list_elem_of_fmap. by exists chat. }
  revert s Hs. apply App_reachable_ind; [done |].
  intros e s s' Hinv Hstep. pose proof (handle_elsewhere e s s' Hstep) as Helse.
  unfold App.chat_ids in *.
  destruct e; try (rewrite (proj1 Helse), (proj2 Helse); exact Hinv);
    simpl in Hstep.
  - (* the first chat *)
    simplify_eq. unfold App.useEffect_initialize.
    destruct (_ && _); [| done]. simpl. apply list_elem_of_singleton. done.
  - (* a new chat *)
    simplify_eq. unfold App.handleNewChat.
    destruct isSmallScreen; simpl; apply elem_of_cons; by left.
  - (* selecting *)
    destruct (decide (id ∈ App.chat_ids s)) as [Hin |]; [| done]. simplify_eq.
    unfold App.handleSelectChat. by destruct isSmallScreen.
  - (* deleting *)
    destruct (decide (id ∈ App.chat_ids s)) as [Hin |]; [| done]. simplify_eq.
    unfold App.handleDeleteChat.
    destruct (decide (Some id = App.activeChatId s)) as [Hactive | Hother].
    + destruct (filter _ (App.chatHistory s)) as [| first rest] eqn:Hfilter.
      * unfold App.handleNewChat.
        destruct isSmallScreen; simpl; apply list_elem_of_singleton; done.
      * simpl. apply elem_of_cons. by left.
    + simpl. destruct (App.activeChatId s) as [active |].
      * apply elem_of_filter_ids; [done | congruence].
      * by rewrite Hinv.
  - (* a message or an answer *)
    simplify_eq.
    destruct (handleSendMessage_frame activeChatId userNow botNow message response s)
      as (Hids & Hactive & _).
    unfold App.chat_ids in Hids. rewrite Hactive.
    destruct (App.activeChatId s) as [active |]; [by rewrite Hids |].
    apply fmap_nil_inv with (f := ChatHistoryItem.id). by rewrite Hids, Hinv.
  - (* clearing settles *)
    destruct (App.pendingClears s !! k) as [[activeChatId outcome] |]; [| done].
    simpl in Hstep. simplify_eq.
    destruct (handleClearHistory_settle_frame server activeChatId outcome
                (App.set_pendingClears (delete k (App.pendingClears s)) s))
      as (Hids & Hactive & _).
    unfold App.chat_ids in Hids. simpl in Hids, Hactive. rewrite Hactive.
    destruct (App.activeChatId s) as [active |]; [by rewrite Hids |].
    apply fmap_nil_inv with (f := ChatHistoryItem.id). by rewrite Hids, Hinv.
Qed.

(** X19.  The settings panel and the upload panel are never open
    together: opening one closes the other, and no other handler opens
    a panel. *)
Theorem panels_are_exclusive (s : App.t) :
  App.reachable server API_BASE_URL Number_toString s →
  App.showSettings s && App.showUpload s = false.
Proof.
  revert s. apply App_reachable_ind; [done |].
  intros e s s' Hinv Hstep.
  destruct e; simpl in Hstep.
  - simplify_eq. unfold App.useEffect_initialize.
    by destruct ((length (App.chatHistory s) =? 0)%nat && negb (App.initializedRef s)).
  - simplify_eq. simpl. apply andb_false_r.
  - simplify_eq. done.
  - by simplify_eq.
  - simplify_eq. unfold App.handleCloseSnackbar. by destruct clickaway.
  - simplify_eq. unfold App.handleNewChat. by destruct isSmallScreen.
  - destruct (decide _); [| done]. simplify_eq.
    unfold App.handleSelectChat. by destruct isSmallScreen.
  - destruct (decide _); [| done]. simplify_eq.
    unfold App.handleDeleteChat. destruct (decide _); [| done].
    destruct (filter _ _); [| done].
    unfold App.handleNewChat. by destruct isSmallScreen.
  - simplify_eq.
    destruct (handleSendMessage_frame activeChatId userNow botNow message response s)
      as (_ & _ & -> & -> & _). done.
  - destruct (clearHistory server API_BASE_URL (App.net s)) as [outcome w].
    by simplify_eq.
  - destruct (App.pendingClears s !! k) as [[activeChatId outcome] |]; [| done].
    simpl in Hstep. simplify_eq.
    destruct (handleClearHistory_settle_frame server activeChatId outcome
                (App.set_pendingClears (delete k (App.pendingClears s)) s))
      as (_ & _ & -> & -> & _). done.
  - destruct (updateSettings server API_BASE_URL _ (App.net s)) as [outcome w].
    by simplify_eq.
  - destruct (App.pendingSettings s !! k) as [[[settings newSettings] outcome] |];
      [| done].
    simpl in Hstep. simplify_eq.
    destruct (handleSettingsChange_settle_frame Number_toString settings newSettings
                outcome (App.set_pendingSettings (delete k (App.pendingSettings s)) s))
      as (_ & _ & -> & -> & _). done.
Qed.

Lemma well_titled_append_user (active userMessageId message : string)
    (chat : ChatHistoryItem.t) :
  well_titled chat → well_titled (App.append_user active userMessageId message chat).
Proof.
  intros [Hlen Hempty]. unfold App.append_user.
  destruct (decide _); [| done]. split; simpl.
  - unfold App.updatedTitle.
    destruct (length (ChatHistoryItem.messages chat) =? 0)%nat; [| done].
    destruct (Nat.ltb_spec 30 (String.length message)) as [Hlong | Hshort]; [| lia].
    rewrite length_string_app. pose proof (length_substring 30 message). simpl. lia.
  - intros H. by apply app_nil in H as [_ ?].
Qed.

Lemma well_titled_append_bot (active botMessageId : string) (response : JSValue)
    (chat : ChatHistoryItem.t) :
  well_titled chat → well_titled (App.append_bot active botMessageId response chat).
Proof.
  intros [Hlen Hempty]. unfold App.append_bot.
  destruct (decide _); [| done]. split; simpl; [done |].
  intros H. by apply app_nil in H as [_ ?].
Qed.

Lemma well_titled_clear_chat (active : string) (chat : ChatHistoryItem.t) :
  well_titled chat → well_titled (App.clear_chat active chat).
Proof.
  intros Hchat. unfold App.clear_chat.
  destruct (decide _); [| done]. split; simpl; [lia | done].
Qed.

Lemma well_titled_newChat (id : string) : well_titled (App.newChat id).
Proof. split; simpl; [lia | done]. Qed.

(** X20.  In every state the application can reach, the title of a
    chat has at most 33 characters (a first message of more than 30 is
    cut to 30 and followed by three dots), and a chat without messages
    is called "New Chat". *)
Theorem titles_are_short (s : App.t) :
  App.reachable server API_BASE_URL Number_toString s →
  Forall (λ chat,
            (String.length (ChatHistoryItem.title chat) ≤ 33)%nat ∧
            (ChatHistoryItem.messages chat = [] →
             ChatHistoryItem.title chat = "New Chat"%string))
    (App.chatHistory s).
Proof.
  revert s. apply App_reachable_ind; [constructor |].
  intros e s s' Hinv Hstep. pose proof (handle_elsewhere e s s' Hstep) as Helse.
  fold well_titled in *.
  destruct e; try (rewrite (proj1 Helse); exact Hinv); simpl in Hstep.
  - simplify_eq. unfold App.useEffect_initialize.
    destruct ((length (App.chatHistory s) =? 0)%nat && negb (App.initializedRef s));
      [| done].
    simpl. apply Forall_singleton, well_titled_newChat.
  - simplify_eq. unfold App.handleNewChat.
    destruct isSmallScreen; simpl; (constructor; [apply well_titled_newChat | done]).
  - destruct (decide _); [| done]. simplify_eq.
    unfold App.handleSelectChat. by destruct isSmallScreen.
  - destruct (decide _); [| done]. simplify_eq.
    assert (Forall well_titled
              (filter (λ chat, ChatHistoryItem.id chat ≠ id) (App.chatHistory s)))
      as Hfiltered.
    { rewrite Forall_forall in Hinv |- *.
      intros chat [_ Hchat]%list_elem_of_filter. by apply Hinv. }
    unfold App.handleDeleteChat. destruct (decide _); [| done].
    destruct (filter _ (App.chatHistory s)) as [| first rest]; [| done].
    unfold App.handleNewChat.
    destruct isSmallScreen; simpl; (constructor; [apply well_titled_newChat | done]).
  - simplify_eq. unfold App.handleSendMessage.
    destruct activeChatId as [active |]; [| done].
    destruct (nonempty_string active); [| done]. simpl.
    assert (Forall well_titled
              (App.chatHistory
                 (if nonempty_string message
                  then App.setChatHistory
                         (App.append_user active (timestamp_id userNow) message
                            <$> App.chatHistory s) s
                  else s))) as Huser.
    { destruct (nonempty_string message); [| done]. simpl.
      apply Forall_fmap. eapply Forall_impl; [exact Hinv |].
      intros chat. apply well_titled_append_user. }
    destruct (truthy response); [| done]. simpl.
    apply Forall_fmap. eapply Forall_impl; [exact Huser |].
    intros chat. apply well_titled_append_bot.
  - destruct (App.pendingClears s !! k) as [[activeChatId outcome] |]; [| done].
    simpl in Hstep. simplify_eq. unfold App.handleClearHistory_settle.
    destruct outcome as [[] | err]; [| done].
    destruct activeChatId as [active |]; [| done].
    destruct (nonempty_string active); [| done]. simpl.
    apply Forall_fmap. eapply Forall_impl; [exact Hinv |].
    intros chat. apply well_titled_clear_chat.
Qed.

(** X21.  A message and its answer go to the chats that carry the
    identifier the sending function closed over, whichever chat is
    selected by now.  Such a chat gets, after the messages it already
    has, the user's message when its text is not empty and then the
    answer when there is one, each under the identifier made from its
    clock reading, and nothing else; every other chat is left exactly
    as it is, and so is every chat when the identifier is empty; the
    selection is not changed; and when the chat has been deleted in the
    meantime, nothing is stored.  A user's message also gives the chat
    the title [updatedTitle] computes. *)
Theorem messages_go_to_the_originating_chat (origin : option string)
    (userNow botNow : Z) (message : string) (response : JSValue) (s : App.t) :
  let s' := App.handleSendMessage origin userNow botNow message response s in
  let added :=
    (if nonempty_string message
     then [ChatMessage.mk (timestamp_id userNow) (JString message) user]
     else []) ++
    (if truthy response
     then [ChatMessage.mk (timestamp_id botNow) response bot]
     else []) in
  App.activeChatId s' = App.activeChatId s ∧
  length (App.chatHistory s') = length (App.chatHistory s) ∧
  (∀ k chat, App.chatHistory s !! k = Some chat →
     ∃ chat',
       App.chatHistory s' !! k = Some chat' ∧
       ChatHistoryItem.id chat' = ChatHistoryItem.id chat ∧
       (origin = Some (ChatHistoryItem.id chat) →
        nonempty_string (ChatHistoryItem.id chat) = true →
        ChatHistoryItem.messages chat' = ChatHistoryItem.messages chat ++ added ∧
        ChatHistoryItem.title chat'
        = (if nonempty_string message then App.updatedTitle chat message
           else ChatHistoryItem.title chat)) ∧
       (origin ≠ Some (ChatHistoryItem.id chat) ∨
        nonempty_string (ChatHistoryItem.id chat) = false →
        chat' = chat)) ∧
  ((∀ id, origin = Some id → id ∉ App.chat_ids s) →
   App.chatHistory s' = App.chatHistory s).
Proof.
  intros s' added. subst s' added.
  destruct (handleSendMessage_frame origin userNow botNow message response s)
    as (Hids & Hactive & _).
  split; [exact Hactive |]. split.
  { unfold App.chat_ids in Hids.
    by rewrite <- (length_fmap ChatHistoryItem.id), Hids, length_fmap. }
  unfold App.handleSendMessage.
  assert (∀ k chat, App.chatHistory s !! k = Some chat →
            (origin = Some (ChatHistoryItem.id chat) →
             nonempty_string (ChatHistoryItem.id chat) = true → False) →
            ∃ chat',
              App.chatHistory s !! k = Some chat' ∧
              ChatHistoryItem.id chat' = ChatHistoryItem.id chat ∧
              (origin = Some (ChatHistoryItem.id chat) →
               nonempty_string (ChatHistoryItem.id chat) = true →
               ChatHistoryItem.messages chat'
               = ChatHistoryItem.messages chat
                 ++ (if nonempty_string message
                     then [ChatMessage.mk (timestamp_id userNow) (JString message) user]
                     else [])
                 ++ (if truthy response
                     then [ChatMessage.mk (timestamp_id botNow) response bot]
                     else []) ∧
               ChatHistoryItem.title chat'
               = (if nonempty_string message then App.updatedTitle chat message
                  else ChatHistoryItem.title chat)) ∧
              (origin ≠ Some (ChatHistoryItem.id chat) ∨
               nonempty_string (ChatHistoryItem.id chat) = false →
               chat' = chat)) as Hsame.
  { intros k chat Hk Hnot. exists chat.
    split; [exact Hk |]. split; [reflexivity |]. split; [| done].
    intros H1 H2. destruct (Hnot H1 H2). }
  destruct origin as [active |];
    [| split; [intros k chat Hk; apply Hsame; [exact Hk | intros [=]] | done]].
  destruct (nonempty_string active) eqn:Hactive_id; simpl;
    [| split; [intros k chat Hk; apply Hsame; [exact Hk |];
               intros [= ->]; congruence
              | done]].
  clear Hsame. split.
  - intros k chat Hk.
    destruct (nonempty_string message), (truthy response); simpl;
      rewrite ?list_lookup_fmap, Hk; simpl;
      unfold App.append_bot, App.append_user; simpl;
      destruct (decide (ChatHistoryItem.id chat = active)) as [Hid | Hid]; simpl;
      rewrite ?decide_True by done; rewrite ?decide_False by done;
      eexists;
      (split; [reflexivity |]); (split; [reflexivity |]); simpl;
      (split;
       [intros Horigin _;
        first [congruence
              | split;
                [rewrite <- ?app_assoc; first [reflexivity | by rewrite app_nil_r]
                | reflexivity]]
       | intros [Hne | Hempty]; first [reflexivity | congruence]]).
  - intros Habsent. specialize (Habsent active eq_refl).
    assert (∀ f : ChatHistoryItem.t → ChatHistoryItem.t,
              (∀ chat, ChatHistoryItem.id chat ≠ active → f chat = chat) →
              f <$> App.chatHistory s = App.chatHistory s) as Hmap.
    { intros f Hf. rewrite <- (list_fmap_id (App.chatHistory s)) at 2.
      apply list_fmap_ext. intros i chat Hchat. apply Hf. intros Hid.
      apply Habsent. unfold App.chat_ids. apply list_elem_of_fmap.
      exists chat. split; [by symmetry |]. by eapply list_elem_of_lookup_2. }
    assert (App.append_user active (timestamp_id userNow) message
              <$> App.chatHistory s = App.chatHistory s) as Huser.
    { apply Hmap. intros chat Hid. unfold App.append_user. by rewrite decide_False. }
    assert (App.append_bot active (timestamp_id botNow) response
              <$> App.chatHistory s = App.chatHistory s) as Hbot.
    { apply Hmap. intros chat Hid. unfold App.append_bot. by rewrite decide_False. }
    destruct (nonempty_string message), (truthy response); simpl;
      rewrite ?Huser, ?Hbot; done.
Qed.

(** The identifiers after an event: those before, some of them gone,
    and at most one new one, made from the clock reading of the
    event. *)
Lemma chat_ids_step (e : App.event) (s s' : App.t) :
  App.handle server API_BASE_URL Number_toString e s = Some s' →
  App.chat_ids s' `sublist_of`
    match event_clock e with
    | Some now => timestamp_id now :: App.chat_ids s
    | None => App.chat_ids s
    end.
Proof.
  intros Hstep. pose proof (handle_elsewhere e s s' Hstep) as Helse.
  unfold App.chat_ids.
  destruct e; try (rewrite (proj1 Helse); reflexivity); simpl in Hstep; simpl.
  - simplify_eq. unfold App.useEffect_initialize.
    destruct ((length (App.chatHistory s) =? 0)%nat && negb (App.initializedRef s));
      simpl.
    + apply sublist_skip, sublist_nil_l.
    + by apply sublist_cons.
  - simplify_eq. unfold App.handleNewChat. by destruct isSmallScreen.
  - destruct (decide _); [| done]. simplify_eq.
    unfold App.handleSelectChat. by destruct isSmallScreen.
  - destruct (decide _); [| done]. simplify_eq.
    assert (ChatHistoryItem.id
              <$> filter (λ chat, ChatHistoryItem.id chat ≠ id) (App.chatHistory s)
            `sublist_of` ChatHistoryItem.id <$> App.chatHistory s) as Hfiltered
      by apply fmap_sublist, sublist_filter.
    unfold App.handleDeleteChat. destruct (decide _); [| by apply sublist_cons].
    destruct (filter _ (App.chatHistory s)) as [| first rest];
      [| by apply sublist_cons].
    unfold App.handleNewChat.
    destruct isSmallScreen; simpl; apply sublist_skip, sublist_nil_l.
  - simplify_eq.
    destruct (handleSendMessage_frame activeChatId userNow botNow message response s)
      as (Hids & _).
    unfold App.chat_ids in Hids. by rewrite Hids.
  - destruct (App.pendingClears s !! k) as [[activeChatId outcome] |]; [| done].
    simpl in Hstep. simplify_eq.
    destruct (handleClearHistory_settle_frame server activeChatId outcome
                (App.set_pendingClears (delete k (App.pendingClears s)) s))
      as (Hids & _).
    unfold App.chat_ids in Hids. by rewrite Hids.
Qed.

Lemma distinct_ids_run (es : list App.event) :
  ∀ (s s' : App.t) (last : option Z),
    NoDup (App.chat_ids s) →
    (∀ id, id ∈ App.chat_ids s →
           ∃ t t0, id = timestamp_id t ∧ last = Some t0 ∧ t <= t0) →
    clock_advances last es →
    App.run server API_BASE_URL Number_toString es s = Some s' →
    NoDup (App.chat_ids s').
Proof.
  induction es as [| e es IH]; intros s s' last Hdistinct Hbound Hclock Hrun;
    simpl in Hrun.
  - by simplify_eq.
  - destruct (App.handle server API_BASE_URL Number_toString e s) as [s1 |] eqn:Hstep;
      [| done].
    simpl in Hrun.
    pose proof (chat_ids_step e s s1 Hstep) as Hsub.
    simpl in Hclock. destruct (event_clock e) as [now |].
    + destruct Hclock as [Hlater Hclock].
      assert (timestamp_id now ∉ App.chat_ids s) as Hfresh.
      { intros (t & t0 & Heq & -> & Hle)%Hbound.
        apply (inj pretty) in Heq. lia. }
      apply (IH s1 s' (Some now)); [| | done | done].
      * eapply sublist_NoDup; [| exact Hsub]. by constructor.
      * intros id Hid. apply (elem_of_sublist _ _ _ Hid) in Hsub.
        apply elem_of_cons in Hsub as [-> | Hold].
        -- exists now, now. repeat split; lia.
        -- destruct (Hbound id Hold) as (t & t0 & -> & -> & Hle).
           exists t, now. repeat split; lia.
    + apply (IH s1 s' last); [| | done | done].
      * by eapply sublist_NoDup.
      * intros id Hid. apply Hbound. by eapply elem_of_sublist.
Qed.

(** X22.  As long as the clock has advanced between the events that
    create a chat, the chats of the history carry pairwise distinct
    identifiers. *)
Theorem chat_ids_are_distinct (es : list App.event) (s : App.t) :
  App.run server API_BASE_URL Number_toString es App.initial = Some s →
  clock_advances None es →
  NoDup (ChatHistoryItem.id <$> App.chatHistory s).
Proof.
  intros Hrun Hclock.
  apply (distinct_ids_run es App.initial s None); [constructor | | done | done].
  intros id Hid. by apply elem_of_nil in Hid.
Qed.

(** X23.  The chats are cleared only once the server has confirmed.
    [handleClearHistory] makes one request; on a 2xx answer it empties
    the chats that carry the selected identifier, names them "New Chat"
    and leaves the others as they are; on any failure the history is
    untouched, the failure is logged by the service layer and by the
    handler, and the error notification is shown. *)
Theorem clearing_waits_for_the_server (s : App.t) :
  let s' := App.handleClearHistory server API_BASE_URL s in
  calls (App.net s')
  = calls (App.net s)
    ++ [service_call API_BASE_URL "/clear-history"
          [("Content-Type", "application/json")%string] NoBody] ∧
  match (clearHistory server API_BASE_URL (App.net s)).1 with
  | Ok _ =>
      logged (App.net s') = logged (App.net s) ∧
      snack_message (App.snackbar s') = "Chat history cleared successfully"%string ∧
      ∀ k chat, App.chatHistory s !! k = Some chat →
        App.chatHistory s' !! k
        = Some (if decide (Some (ChatHistoryItem.id chat) = App.activeChatId s ∧
                           ChatHistoryItem.id chat ≠ EmptyString)
                then ChatHistoryItem.mk (ChatHistoryItem.id chat) "New Chat" []
                else chat)
  | Throw _ =>
      App.chatHistory s' = App.chatHistory s ∧
      logged (App.net s')
      = logged (App.net s)
        ++ ["Error clearing history:"%string; "Failed to clear history:"%string] ∧
      App.snackbar s'
      = {| snack_open := true; snack_message := "Failed to clear history";
           snack_severity := severity_error |}
  end.
Proof.
  intros s'. subst s'. unfold App.handleClearHistory.
  destruct (proj1 (proj2 (proj2 (service_layer_called_once server API_BASE_URL
                                   (App.net s)))))
    as [Hcalls Hlogged].
  destruct (clearHistory server API_BASE_URL (App.net s)) as [[[] | e] w];
    simpl in Hcalls, Hlogged |- *.
  - rewrite app_nil_r in Hlogged.
    unfold App.handleClearHistory_settle.
    destruct (App.activeChatId s) as [active |] eqn:Hactive; simpl.
    + destruct active as [| a active]; simpl.
      * repeat apply conj; try done.
        intros k chat Hk. rewrite decide_False; [done |].
        intros [[= Hid] Hne]. done.
      * repeat apply conj; try done.
        intros k chat Hk. rewrite list_lookup_fmap, Hk. simpl. f_equal.
        unfold App.clear_chat.
        destruct (decide (ChatHistoryItem.id chat = String a active)) as [Hid | Hid].
        -- rewrite decide_True; [done |]. rewrite Hid. done.
        -- rewrite decide_False; [done |]. intros [[= H] _]. done.
    + repeat apply conj; try done;
        try (intros k chat Hk; rewrite decide_False; [done | by intros [? _]]).
  - repeat apply conj; try done.
    rewrite Hlogged. by rewrite <- app_assoc.
Qed.

Lemma net_handleSettingsChange_settle (settings : ChatSettings)
    (newSettings : PartialSettings) (outcome : result unit) (t : App.t) :
  App.net (App.handleSettingsChange_settle Number_toString settings newSettings
             outcome t)
  = match outcome with
    | Ok _ => App.net t
    | Throw _ => console_error "Failed to update settings:" (App.net t)
    end.
Proof.
  unfold App.handleSettingsChange_settle.
  destruct outcome as [[] | e]; [| done].
  destruct newSettings as [[llm |] [asr |] [value |]]; simpl;
    repeat match goal with |- context [if ?b then _ else _] => destruct b end;
    done.
Qed.

(** X24.  A change of settings is applied at once and never taken
    back.  [handleSettingsChange] stores the merged settings before the
    server is asked, sends exactly them, and keeps them whatever the
    outcome: on a failure only the error notification tells that the
    server does not have them.  On success a changed temperature is the
    notification shown, also when a model changed with it. *)
Theorem settings_change_is_not_taken_back (newSettings : PartialSettings) (s : App.t) :
  let updatedSettings := merge_settings (App.settings s) newSettings in
  let s' :=
    App.handleSettingsChange server API_BASE_URL Number_toString newSettings s in
  App.settings s' = updatedSettings ∧
  calls (App.net s')
  = calls (App.net s)
    ++ [service_call API_BASE_URL "/settings"
          [("Content-Type", "application/json")%string]
          (JsonText (settings_json updatedSettings))] ∧
  match (updateSettings server API_BASE_URL updatedSettings (App.net s)).1 with
  | Ok _ =>
      logged (App.net s') = logged (App.net s) ∧
      ∀ value, new_temperature newSettings = Some value →
               number_eqb value (temperature (App.settings s)) = false →
               App.snackbar s'
               = {| snack_open := true;
                    snack_message := "Temperature set to " +:+ Number_toString value;
                    snack_severity := severity_info |}
  | Throw _ =>
      logged (App.net s')
      = logged (App.net s)
        ++ ["Error updating settings:"%string; "Failed to update settings:"%string] ∧
      App.snackbar s'
      = {| snack_open := true; snack_message := "Failed to update settings";
           snack_severity := severity_error |}
  end.
Proof.
  intros updatedSettings s'. subst s'. unfold App.handleSettingsChange.
  fold updatedSettings.
  destruct (proj1 (proj2 (service_layer_called_once server API_BASE_URL (App.net s)))
              updatedSettings) as [Hcalls Hlogged].
  destruct (updateSettings server API_BASE_URL updatedSettings (App.net s))
    as [outcome w].
  cbn [fst snd] in Hcalls, Hlogged |- *.
  set (t := App.set_net w (App.setSettings updatedSettings s)).
  destruct (handleSettingsChange_settle_frame Number_toString (App.settings s)
              newSettings outcome t) as (_ & _ & _ & _ & Hsettings).
  pose proof (net_handleSettingsChange_settle (App.settings s) newSettings outcome t)
    as Hnet.
  split; [exact Hsettings |].
  destruct outcome as [[] | e]; rewrite Hnet; cbn [is_ok] in Hlogged.
  - rewrite app_nil_r in Hlogged. repeat apply conj; try done.
    intros value Hvalue Hchanged. unfold App.handleSettingsChange_settle.
    rewrite Hvalue, Hchanged. done.
  - repeat apply conj; try done.
    + simpl. rewrite Hlogged. by rewrite <- app_assoc.
Qed.
End AppFacts.

(* ================================================================== *)
(** * [ChatInterface]: sending *)
(* ================================================================== *)

Lemma trimStart_blank (s : string) : trimStart s = EmptyString ↔ blank s = true.
Proof.
  induction s as [| a s IH]; simpl; [done |].
  destruct (is_whitespace a); simpl; [exact IH | done].
Qed.

Lemma trimStart_head (s : string) :
  match trimStart s with
  | EmptyString => True
  | String a _ => is_whitespace a = false
  end.
Proof.
  induction s as [| a s IH]; simpl; [done |].
  destruct (is_whitespace a) eqn:Ha; [exact IH | exact Ha].
Qed.

Lemma trimEnd_head (a : ascii) (s : string) :
  is_whitespace a = false → trimEnd (String a s) ≠ EmptyString.
Proof. intros Ha. simpl. rewrite Ha. by destruct (trimEnd s). Qed.

(** The text is blank exactly when nothing is left of it once
    trimmed. *)
Lemma trim_blank (s : string) : trim s = EmptyString ↔ blank s = true.
Proof.
  rewrite <- trimStart_blank. unfold trim.
  pose proof (trimStart_head s) as Hhead.
  destruct (trimStart s) as [| a t]; [done |].
  split; [| done]. intros H. by apply trimEnd_head in H.
Qed.

Lemma nonempty_string_false (s : string) :
  nonempty_string s = false ↔ s = EmptyString.
Proof. by destruct s. Qed.

Lemma append_user_origin (origin userMessageId message : string)
    (chat : ChatHistoryItem.t) :
  ChatHistoryItem.id chat = origin →
  App.append_user origin userMessageId message chat
  = ChatHistoryItem.mk (ChatHistoryItem.id chat) (App.updatedTitle chat message)
      (ChatHistoryItem.messages chat
       ++ [ChatMessage.mk userMessageId (JString message) user]).
Proof. intros Hid. unfold App.append_user. by rewrite decide_True. Qed.

Section SendFacts.
Context (server : list Call → Call → FetchOutcome).
Context (API_BASE_URL : string).

(** X25.  A blank text (empty, or white space only) is not sent:
    [handleSend] returns at once, with no request, no message and the
    field as it is, whether or not a parent handles the messages. *)
Theorem blank_text_is_not_sent {Parent : Type}
    (onSendMessage : option (Z → string → JSValue → Parent → Parent))
    (now userNow botNow : Z) (text : string) (c : ChatInterface.t)
    (parent : Parent) (w : Net) :
  ChatInterface.inputText c = JString text →
  blank text = true →
  ChatInterface.handleSend server API_BASE_URL onSendMessage now userNow botNow
    c parent w
  = Ok (c, parent, w).
Proof.
  intros Htext Hblank. unfold ChatInterface.handleSend.
  rewrite Htext. simpl.
  rewrite (proj2 (trim_blank text) Hblank). reflexivity.
Qed.

(** X26.  Sending with a parent that keeps the history.  For a text
    that is not blank, [handleSend] makes exactly one request, whose
    message is the text as typed (not trimmed), empties the field and
    ends with [isLoading] cleared.  A chat that carries the identifier
    the parent's function closed over receives the user's message, and
    after it the answer when the call succeeded with a truthy answer;
    on a failure, or an answer that is empty or missing, the user's
    message stays alone. *)
Theorem handleSend_stores_message_then_answer (origin : string)
    (now userNow botNow : Z) (text : string) (c : ChatInterface.t)
    (app : App.t) (w : Net) :
  ChatInterface.inputText c = JString text →
  blank text = false →
  origin ≠ EmptyString →
  let onSendMessage :=
    λ clock, App.handleSendMessage (Some origin) clock clock in
  let answer := (sendMessage server API_BASE_URL text w).1 in
  ∃ c' app' w',
    ChatInterface.handleSend server API_BASE_URL (Some onSendMessage)
      now userNow botNow c app w
    = Ok (c', app', w') ∧
    calls w'
    = calls w
      ++ [service_call API_BASE_URL "/chat"
            [("Content-Type", "application/json")%string]
            (JsonText (JObject [("message"%string, JString text)]))] ∧
    ChatInterface.inputText c' = JString EmptyString ∧
    ChatInterface.isLoading c' = false ∧
    ChatInterface.localMessages c' = ChatInterface.localMessages c ∧
    ∀ k chat, App.chatHistory app !! k = Some chat →
              ChatHistoryItem.id chat = origin →
      ∃ chat',
        App.chatHistory app' !! k = Some chat' ∧
        ChatHistoryItem.messages chat'
        = ChatHistoryItem.messages chat
          ++ [ChatMessage.mk (timestamp_id userNow) (JString text) user]
          ++ match answer with
             | Ok response =>
                 if truthy response
                 then [ChatMessage.mk (timestamp_id botNow) response bot]
                 else []
             | Throw _ => []
             end.
Proof.
  intros Htext Hblank Horigin onSendMessage answer.
  unfold ChatInterface.handleSend. rewrite Htext. simpl.
  assert (nonempty_string (trim text) = true) as ->.
  { destruct (nonempty_string (trim text)) eqn:Hn; [done |].
    apply nonempty_string_false, trim_blank in Hn. congruence. }
  simpl.
  assert (nonempty_string text = true) as Htext_nonempty.
  { destruct text; [done | done]. }
  assert (nonempty_string origin = true) as Horigin_nonempty by (by destruct origin).
  pose proof (proj1 (service_layer_called_once server API_BASE_URL w) text)
    as [Hcalls _].
  subst answer.
  destruct (sendMessage server API_BASE_URL text w) as [[response | e] w1];
    simpl in Hcalls |- *.
  - eexists _, _, _. split; [reflexivity |].
    repeat apply conj; try done.
    intros k chat Hk Hid. subst onSendMessage. unfold App.handleSendMessage.
    rewrite Horigin_nonempty, Htext_nonempty. simpl.
    destruct (truthy response); simpl.
    + rewrite !list_lookup_fmap, Hk. simpl.
      rewrite append_user_origin by done.
      unfold App.append_bot. simpl. rewrite decide_True by done.
      eexists. split; [reflexivity |].
      simpl. by rewrite <- app_assoc.
    + rewrite !list_lookup_fmap, Hk. simpl.
      rewrite append_user_origin by done.
      eexists. split; [reflexivity |]. done.
  - eexists _, _, _. split; [reflexivity |].
    repeat apply conj; try done.
    intros k chat Hk Hid. subst onSendMessage. unfold App.handleSendMessage.
    rewrite Horigin_nonempty, Htext_nonempty. simpl.
    rewrite !list_lookup_fmap, Hk. simpl.
    rewrite append_user_origin by done.
    eexists. split; [reflexivity |]. done.
Qed.

(** X27.  Without a parent the component keeps the messages itself,
    and then an answer is stored whatever it is: after a successful
    call the local messages have grown by the user's message and by one
    bot message holding the value the server returned, also when that
    value is empty or [undefined]; after a failed call only by the
    user's message. *)
Theorem handleSend_local_messages {Parent : Type}
    (now userNow botNow : Z) (text : string) (c : ChatInterface.t)
    (parent : Parent) (w : Net) :
  ChatInterface.inputText c = JString text →
  blank text = false →
  ∃ c' w',
    ChatInterface.handleSend server API_BASE_URL None now userNow botNow c parent w
    = Ok (c', parent, w') ∧
    ChatInterface.isLoading c' = false ∧
    ChatInterface.inputText c' = JString EmptyString ∧
    ChatInterface.localMessages c'
    = ChatInterface.localMessages c
      ++ [ChatMessage.mk (timestamp_id now) (JString text) user]
      ++ match (sendMessage server API_BASE_URL text w).1 with
         | Ok response => [ChatMessage.mk (timestamp_id (botNow + 1)) response bot]
         | Throw _ => []
         end.
Proof.
  intros Htext Hblank.
  unfold ChatInterface.handleSend. rewrite Htext. simpl.
  assert (nonempty_string (trim text) = true) as ->.
  { destruct (nonempty_string (trim text)) eqn:Hn; [done |].
    apply nonempty_string_false, trim_blank in Hn. congruence. }
  simpl.
  destruct (sendMessage server API_BASE_URL text w) as [[response | e] w1]; simpl.
  - eexists _, _. split; [reflexivity |]. repeat apply conj; try done.
    by rewrite <- app_assoc.
  - eexists _, _. split; [reflexivity |]. repeat apply conj; done.
Qed.
End SendFacts.

(** X28.  The send button reads [inputText.trim()] when it is rendered,
    so the field has to hold a string.  After a 2xx answer of the
    transcription service that carries no transcript, the field holds
    [undefined] and the transcribing flag is cleared, and rendering the
    button raises [TypeError], whatever [isLoading] is; so does
    [handleSend]. *)
Theorem missing_transcript_breaks_rendering (platform : Platform)
    (network : list Request → Request → FetchOutcome) (API_BASE_URL : string)
    (sid : nat) (audioBlob wav : Blob) (c : Component)
    (response : Response) (data : JSValue) (isLoading : bool) :
  resampleAudio platform audioBlob 16000 = Ok wav →
  network (sent (world c)) (transcribe_request API_BASE_URL wav) = Responded response →
  200 <= status response <= 299 →
  body_json response = Some data →
  lacks_transcript data →
  let c' := onstop_settle platform network API_BASE_URL sid audioBlob c in
  ChatInterface.render_sendButton isLoading (isTranscribing c') (inputText c')
  = Throw (Exn "TypeError" "trim") ∧
  ∀ (Parent : Type) server url onSendMessage now userNow botNow messages
    (parent : Parent) w,
    ChatInterface.handleSend server url onSendMessage now userNow botNow
      (ChatInterface.mk messages (inputText c') isLoading) parent w
    = Throw (Exn "TypeError" "trim").
Proof.
  intros Hwav Hnet Hstatus Hbody Hlacks c'.
  assert (inputText c' = JUndefined ∧ isTranscribing c' = false) as [-> ->].
  { subst c'. unfold onstop_settle, process. rewrite Hwav.
    unfold transcribeAudio, fetch. fold (transcribe_request API_BASE_URL wav).
    rewrite Hnet. cbn [mbind result_bind].
    rewrite (proj2 (Response_ok_2xx response) Hstatus). cbn [negb].
    unfold Response_json. rewrite Hbody. cbn [or_throw mbind result_bind].
    by rewrite get_property_lacks. }
  split; [by destruct isLoading |]. done.
Qed.

(* ================================================================== *)
(** * The statements above on test data *)
(* ================================================================== *)

Lemma upload_demo_reachable : PDFUpload.reachable accepting "https://host" upload_demo.
Proof. exists upload_events. vm_compute. reflexivity. Qed.

Lemma app_demo_reachable : App.reachable accepting "https://host" unformatted app_demo.
Proof. exists app_events. vm_compute. reflexivity. Qed.

Lemma only_pdf_is_uploaded_witness :
  calls (PDFUpload.net upload_demo) = [upload_call "https://host" leaflet] ∧
  Forall (λ call, ∃ file, file_type file = "application/pdf"%string ∧
                          call = upload_call "https://host" file)
    (calls (PDFUpload.net upload_demo)).
Proof.
  split; [vm_compute; reflexivity |].
  exact (proj1 (proj2 (only_pdf_is_uploaded accepting "https://host" upload_demo
                         upload_demo_reachable))).
Defined.

Lemma refused_selection_keeps_file_witness :
  let s := PDFUpload.handleFileSelect (Some leaflet) PDFUpload.initial in
  PDFUpload.selectedFile (PDFUpload.handleFileSelect (Some picture) s) = Some leaflet.
Proof.
  intros s.
  refine (proj1 (refused_selection_keeps_file accepting "https://host"
                   (Some picture) s _)).
  intros f [= <-]. discriminate.
Defined.

Lemma active_chat_exists_witness :
  App.activeChatId app_demo = Some "1000"%string ∧
  ∃ chat, chat ∈ App.chatHistory app_demo ∧ ChatHistoryItem.id chat = "1000"%string.
Proof.
  assert (App.activeChatId app_demo = Some "1000"%string) as Hactive
    by (vm_compute; reflexivity).
  split; [exact Hactive |].
  pose proof (active_chat_exists accepting "https://host" unformatted app_demo
                app_demo_reachable) as H.
  rewrite Hactive in H. exact H.
Defined.

Lemma panels_are_exclusive_witness :
  App.showUpload app_demo = true ∧ App.showSettings app_demo = false.
Proof.
  assert (App.showUpload app_demo = true) as Hupload by (vm_compute; reflexivity).
  split; [exact Hupload |].
  pose proof (panels_are_exclusive accepting "https://host" unformatted app_demo
                app_demo_reachable) as H.
  rewrite Hupload, andb_true_r in H. exact H.
Defined.

Lemma titles_are_short_witness :
  Forall (λ chat, (String.length (ChatHistoryItem.title chat) ≤ 33)%nat)
    (App.chatHistory app_demo).
Proof.
  eapply Forall_impl;
    [exact (titles_are_short accepting "https://host" unformatted app_demo
              app_demo_reachable) |].
  intros chat [H _]. exact H.
Defined.

Lemma chat_ids_are_distinct_witness :
  NoDup (ChatHistoryItem.id <$> App.chatHistory app_demo).
Proof.
  apply (chat_ids_are_distinct accepting "https://host" unformatted app_events).
  - vm_compute. reflexivity.
  - simpl. lia.
Defined.

Lemma blank_text_is_not_sent_witness :
  ChatInterface.handleSend accepting "https://host"
    (Some (λ clock, App.handleSendMessage (Some "1000"%string) clock clock))
    1 2 3 (composing "  ") app_demo {| calls := []; logged := [] |}
  = Ok (composing "  ", app_demo, {| calls := []; logged := [] |}).
Proof.
  apply blank_text_is_not_sent with (text := "  "%string); reflexivity.
Defined.

Lemma handleSend_stores_message_then_answer_witness :
  ∃ c' app' w',
    ChatInterface.handleSend accepting "https://host"
      (Some (λ clock, App.handleSendMessage (Some "1000"%string) clock clock))
      1 2 3 (composing " om ") app_demo {| calls := []; logged := [] |}
    = Ok (c', app', w') ∧
    length (calls w') = 1%nat ∧
    ChatInterface.inputText c' = JString EmptyString.
Proof.
  destruct (handleSend_stores_message_then_answer accepting "https://host"
              "1000" 1 2 3 " om " (composing " om ") app_demo
              {| calls := []; logged := [] |} eq_refl eq_refl)
    as (c' & app' & w' & Hsend & Hcalls & Hinput & _).
  - discriminate.
  - exists c', app', w'. split; [exact Hsend |].
    split; [by rewrite Hcalls | exact Hinput].
Defined.

Lemma handleSend_local_messages_witness :
  ∃ c' w',
    ChatInterface.handleSend accepting "https://host" None 1 2 3
      (composing " om ") tt {| calls := []; logged := [] |}
    = Ok (c', tt, w') ∧
    length (ChatInterface.localMessages c') = 2%nat.
Proof.
  destruct (handleSend_local_messages accepting "https://host" 1 2 3 " om "
              (composing " om ") tt {| calls := []; logged := [] |} eq_refl eq_refl)
    as (c' & w' & Hsend & _ & _ & Hmessages).
  exists c', w'. split; [exact Hsend |]. rewrite Hmessages. reflexivity.
Defined.

Lemma missing_transcript_breaks_rendering_witness :
  let c' :=
    onstop_settle (decoding_to sixteen_frames) (answering empty_answer)
      "https://host" 0 [] recording_demo in
  ChatInterface.render_sendButton false (isTranscribing c') (inputText c')
  = Throw (Exn "TypeError" "trim").
Proof.
  destruct (resampleAudio (decoding_to sixteen_frames) [] 16000)
    as [wav | e] eqn:Hwav; [| vm_compute in Hwav; discriminate].
  refine (proj1 (missing_transcript_breaks_rendering (decoding_to sixteen_frames)
                   (answering empty_answer) "https://host" 0 [] wav recording_demo
                   empty_answer (JObject []) false Hwav eq_refl _ eq_refl _)).
  - simpl. lia.
  - simpl. constructor.
Defined.

Lemma bufferToWav_header_values_witness :
  ∃ out, bufferToWav stereo_demo = Some out ∧
         getUint32 out 4 = Some 44 ∧ getUint16 out 22 = Some 2 ∧
         getUint32 out 24 = Some 16000 ∧ getUint32 out 40 = Some 8.
Proof.
  destruct (bufferToWav_header_values stereo_demo stereo_demo_rendered)
    as (out & Hout & H4 & H22 & H24 & _ & _ & H40); try (simpl; lia).
  exists out. repeat apply conj; assumption.
Defined.
